(** * CSV++ reference implementation: header grammar, value decoder, rows.

    A shallow embedding of the Python package [csvpp]
    (modules [models], [value_parser], [header_parser], [parser], and the
    value renderer of [pprint]) and the
    properties its specification states about it.

    Python [str] values are sequences of characters: [list ascii] here,
    with slicing [s[a:b]] written [take (b - a) (drop a s)] and indexing
    [s[i]] written [s !! i].  Exceptions are the [Raises] outcome of a small
    error monad; a loop that never finishes is the [NoReturn] outcome. *)

From Stdlib Require Import Ascii String.
From stdpp Require Import base decidable option list gmap strings pretty.

Local Open Scope list_scope.

(** ** Strings *)

Abbreviation str := (list ascii).

Definition lit (s : string) : str := list_ascii_of_string s.

Definition dquote : ascii := Ascii.ascii_of_nat 34.

(** [s] between double quotes. *)
Definition quoted (s : str) : str := dquote :: s ++ [dquote].

(** [s[start:stop]] for [start <= stop]. *)
Definition slice (s : str) (start stop : nat) : str :=
  take (stop - start) (drop start s).

(** [s.startswith(p)] *)
Definition startswith (s p : str) : bool :=
  bool_decide (take (length p) s = p).

(** ** models.py: exceptions and outcomes *)

Inductive Error : Type :=
  | CSVPPError
  | HeaderParseError
  | ValueParseError
  | InvalidQuotingError
  | DelimiterConflictError
  (* the two exceptions of Python's [csv] module that [parse] lets through *)
  | TypeError
  | CsvError.

Global Instance Error_eq_dec : EqDecision Error.
Proof. solve_decision. Defined.

Inductive outcome (A : Type) : Type :=
  | Returns (a : A)
  | Raises (e : Error)
  | NoReturn.
Arguments Returns {A} a.
Arguments Raises {A} e.
Arguments NoReturn {A}.

Definition bind {A B} (m : outcome A) (k : A → outcome B) : outcome B :=
  match m with
  | Returns a => k a
  | Raises e => Raises e
  | NoReturn => NoReturn
  end.

Global Instance outcome_bind : MBind outcome := λ A B k m, bind m k.
Global Instance outcome_ret : MRet outcome := λ A a, Returns a.

(** The statements of a [for] loop that appends one result per item and
    stops at the first exception. *)
Fixpoint for_each {A B} (f : A → outcome B) (l : list A) : outcome (list B) :=
  match l with
  | [] => Returns []
  | x :: l' => y ← f x; ys ← for_each f l'; Returns (y :: ys)
  end.

(** ** models.py: the Field schema *)

Inductive Field : Type :=
  | SimpleField (name : str)
  | ArrayField (name : str) (delimiter : str) (element_type : Field)
  | StructField (name : str) (component_delimiter : str)
                (components : list Field).

Definition field_name (f : Field) : str :=
  match f with
  | SimpleField n => n
  | ArrayField n _ _ => n
  | StructField n _ _ => n
  end.

Definition is_SimpleField (f : Field) : bool :=
  match f with SimpleField _ => true | _ => false end.

(** ** Decoded values

    [VDict] is a Python [dict]: insertion-ordered, one entry per key. *)

Inductive Value : Type :=
  | VStr (s : str)
  | VList (l : list Value)
  | VDict (d : list (str * Value))
  | VNone.

(** [d[k] = v] on an insertion-ordered dict: an existing key keeps its
    position and takes the new value, a new key is appended. *)
Fixpoint dict_set {V} (d : list (str * V)) (k : str) (v : V) : list (str * V) :=
  match d with
  | [] => [(k, v)]
  | (k', v') :: d' =>
      if bool_decide (k' = k) then (k, v) :: d' else (k', v') :: dict_set d' k v
  end.

Fixpoint dict_get {V} (d : list (str * V)) (k : str) : option V :=
  match d with
  | [] => None
  | (k', v') :: d' => if bool_decide (k' = k) then Some v' else dict_get d' k
  end.

Definition dict_keys {V} (d : list (str * V)) : list str := d.*1.

(** ** value_parser.py: quote_aware_split *)

Record scan : Type := Scan {
  values : list str;
  quoted_flags : list bool;
  current : str;
  this_quoted : bool;
  in_quotes : bool;
  i : nat
}.

Definition scan_init : scan := Scan [] [] [] false false 0.

(** One iteration of the [while i < len(s)] body, at [ch = s[i]]. *)
Definition quote_aware_split_step (s delimiter : str) (st : scan) (ch : ascii) : scan :=
  let '(Scan vs fs cur tq inq i) := st in
  if inq then
    if bool_decide (ch = dquote) then
      if bool_decide (s !! (i + 1) = Some dquote)
      then Scan vs fs (cur ++ [dquote]) tq inq (i + 2)
      else Scan vs fs cur tq false (i + 1)
    else Scan vs fs (cur ++ [ch]) tq inq (i + 1)
  else
    if bool_decide (ch = dquote) && bool_decide (cur = []) then
      Scan vs fs cur true true (i + 1)
    else if bool_decide (slice s i (i + length delimiter) = delimiter) then
      Scan (vs ++ [cur]) (fs ++ [tq]) [] false inq (i + length delimiter)
    else Scan vs fs (cur ++ [ch]) tq inq (i + 1).

(** [while i < len(s): ch = s[i]; <step>]: the loop shared by the two
    row and token scanners.  [fuel] bounds the number of iterations; a scan
    whose index stops advancing never leaves the loop. *)
Fixpoint scan_loop (fuel : nat) (s : str) (step : scan → ascii → scan)
    (st : scan) : outcome scan :=
  match s !! i st with
  | None => Returns st
  | Some ch =>
      match fuel with
      | 0 => NoReturn
      | S fuel' => scan_loop fuel' s step (step st ch)
      end
  end.

(** The two parallel lists are returned zipped: [(token, was_quoted)]. *)
Definition scan_result (st : scan) : list (str * bool) :=
  zip (values st ++ [current st]) (quoted_flags st ++ [this_quoted st]).

Definition quote_aware_split (s delimiter : str) : outcome (list (str * bool)) :=
  st ← scan_loop (length s) s (quote_aware_split_step s delimiter) scan_init;
  Returns (scan_result st).

(** ** value_parser.py: parse_value, _parse_array, _parse_struct *)

(** The [for i, comp_schema in enumerate(schema.components)] loop of
    [_parse_struct], with [decode] standing for the recursive
    [parse_value] call on the component. *)
Fixpoint struct_loop (decode : Field → str → outcome Value)
    (comps : list Field) (i : nat) (elements : list (str * bool))
    (result : list (str * Value)) : outcome (list (str * Value)) :=
  match comps with
  | [] => Returns result
  | comp_schema :: rest =>
      match elements !! i with
      | Some (elem, elem_quoted) =>
          if elem_quoted && negb (is_SimpleField comp_schema)
          then Raises InvalidQuotingError
          else
            v ← decode comp_schema elem;
            struct_loop decode rest (S i) elements
              (dict_set result (field_name comp_schema) v)
      | None =>
          struct_loop decode rest (S i) elements
            (dict_set result (field_name comp_schema) VNone)
      end
  end.

(** The [for elem, elem_quoted in zip(elements, quoted_flags)] loop of
    [_parse_array]. *)
Fixpoint array_loop (decode : str → outcome Value) (element_is_leaf : bool)
    (elements : list (str * bool)) : outcome (list Value) :=
  match elements with
  | [] => Returns []
  | (elem, elem_quoted) :: rest =>
      if elem_quoted && negb element_is_leaf
      then Raises InvalidQuotingError
      else
        v ← decode elem;
        vs ← array_loop decode element_is_leaf rest;
        Returns (v :: vs)
  end.

Fixpoint parse_value (raw : str) (schema : Field) (was_quoted : bool)
  {struct schema} : outcome Value :=
  match schema with
  | SimpleField _ => Returns (VStr raw)
  | ArrayField _ delimiter element_type =>
      if was_quoted then Raises InvalidQuotingError
      else
        (* _parse_array *)
        if bool_decide (raw = []) then Returns (VList [])
        else
          elements ← quote_aware_split raw delimiter;
          result ← array_loop (λ elem, parse_value elem element_type false)
                     (is_SimpleField element_type) elements;
          Returns (VList result)
  | StructField _ component_delimiter components =>
      if was_quoted then Raises InvalidQuotingError
      else
        (* _parse_struct *)
        if bool_decide (components = []) then Returns (VDict [])
        else
          elements ← quote_aware_split raw component_delimiter;
          if bool_decide (length components < length elements)
          then Raises ValueParseError
          else
            result ← struct_loop (λ comp_schema elem,
                                    parse_value elem comp_schema false)
                        components 0 elements [];
            Returns (VDict result)
  end.

(** ** header_parser.py *)

Definition ch (s : string) : ascii :=
  match s with String c _ => c | EmptyString => Ascii.zero end.

(** [field-char = ALPHA / DIGIT / "_" / "-"] *)
Definition is_field_char (c : ascii) : bool :=
  let n := nat_of_ascii c in
  ((65 <=? n) && (n <=? 90)) || ((97 <=? n) && (n <=? 122))
  || ((48 <=? n) && (n <=? 57)) || (n =? 95) || (n =? 45).

Fixpoint name_run (s : str) : nat :=
  match s with
  | c :: s' => if is_field_char c then S (name_run s') else 0
  | [] => 0
  end.

(** [_NAME_RE.match(s, pos)] for [_NAME_RE = ^[A-Za-z0-9_\-]+]: the end of
    the match, if any.  The anchor [^] only matches at the real beginning
    of the string, whatever [pos] is; every call site passes [pos = 0]. *)
Definition NAME_RE_match (s : str) (pos : nat) : option nat :=
  if bool_decide (pos = 0) then
    match name_run s with
    | 0 => None
    | n => Some n
    end
  else None.

(** [s.find(c, pos)] for a one-character needle; [None] is Python's [-1]. *)
Fixpoint find_from (rest : str) (c : ascii) (pos : nat) : option nat :=
  match rest with
  | [] => None
  | x :: rest' =>
      if bool_decide (x = c) then Some pos else find_from rest' c (S pos)
  end.

Definition find (s : str) (c : ascii) (pos : nat) : option nat :=
  find_from (drop pos s) c pos.

Definition DEFAULT_ARRAY_DELIM : str := lit "~".
Definition DEFAULT_COMP_DELIM : str := lit "^".

(** *** _bracket_aware_split *)

Record bscan : Type := BScan {
  b_parts : list str;
  b_current : str;
  b_depth : Z;
  b_i : nat
}.

Definition bracket_aware_split_step (s delimiter : str) (st : bscan) (c : ascii)
  : bscan :=
  let '(BScan parts cur depth i) := st in
  if bool_decide (c = ch "(") || bool_decide (c = ch "[") then
    BScan parts (cur ++ [c]) (depth + 1)%Z (i + 1)
  else if bool_decide (c = ch ")") || bool_decide (c = ch "]") then
    BScan parts (cur ++ [c]) (depth - 1)%Z (i + 1)
  else if bool_decide (depth = 0%Z)
          && bool_decide (slice s i (i + length delimiter) = delimiter) then
    BScan (parts ++ [cur]) [] depth (i + length delimiter)
  else BScan parts (cur ++ [c]) depth (i + 1).

Fixpoint bracket_aware_split_loop (fuel : nat) (s delimiter : str) (st : bscan)
  : outcome bscan :=
  match s !! b_i st with
  | None => Returns st
  | Some c =>
      match fuel with
      | 0 => NoReturn
      | S fuel' =>
          bracket_aware_split_loop fuel' s delimiter
            (bracket_aware_split_step s delimiter st c)
      end
  end.

Definition _bracket_aware_split (s delimiter : str) : outcome (list str) :=
  st ← bracket_aware_split_loop (length s) s delimiter (BScan [] [] 0%Z 0);
  Returns (b_parts st ++ [b_current st]).

(** *** _parse_component_list, with [parse] standing for the recursive
    [_parse_field(raw, pos=0, depth=depth, used_delimiters=used_delimiters)]
    call.  Which [d] of [sorted(used_delimiters, ...)] is found first only
    changes the message, so the loop over them is an [existsb]. *)
Definition parse_component (parse : str → outcome (Field * nat))
    (used_delimiters : gset str) (raw : str) : outcome Field :=
  if startswith raw (lit "(") then Raises DelimiterConflictError
  else
    '(comp_field, consumed) ← parse raw;
    if bool_decide (consumed ≠ length raw) then
      let trailing := drop consumed raw in
      if existsb (startswith trailing) (elements used_delimiters)
      then Raises DelimiterConflictError
      else Raises HeaderParseError
    else Returns comp_field.

Definition _parse_component_list (parse : str → outcome (Field * nat))
    (body comp_delim : str) (used_delimiters : gset str)
  : outcome (list Field) :=
  raw_components ← _bracket_aware_split body comp_delim;
  for_each (parse_component parse used_delimiters) raw_components.

(** *** _parse_field *)

(** The [while pos < len(s) and depth_count > 0] loop that looks for the
    closing parenthesis; [rest] is [s[pos:]]. *)
Fixpoint paren_loop (rest : str) (pos depth_count : nat) : nat * nat :=
  match rest with
  | [] => (pos, depth_count)
  | c :: rest' =>
      if bool_decide (depth_count = 0) then (pos, depth_count)
      else
        let depth_count :=
          if bool_decide (c = ch "(") then depth_count + 1
          else if bool_decide (c = ch ")") then depth_count - 1
          else depth_count in
        paren_loop rest' (pos + 1) depth_count
  end.

(** The optional array brackets, lines 122-146: the delimiter they
    declare, if any, and the position after them. *)
Definition read_array_brackets (s : str) (pos depth : nat)
  : outcome (option str * nat) :=
  if bool_decide (s !! pos = Some (ch "[")) then
    let pos := pos + 1 in
    match find s (ch "]") pos with
    | None => Raises HeaderParseError
    | Some bracket_close =>
        let delim_str := slice s pos bracket_close in
        array_delim ←
          (if bool_decide (delim_str = []) then
             if bool_decide (0 < depth) then Raises HeaderParseError
             else Returns DEFAULT_ARRAY_DELIM
           else
             if bool_decide (length delim_str ≠ 1) then Raises HeaderParseError
             else Returns delim_str);
        Returns (Some array_delim, bracket_close + 1)
    end
  else Returns (None, pos).

(** ... followed by the check against the enclosing levels, lines 148-153. *)
Definition parse_array_part (s : str) (pos depth : nat)
    (used_delimiters : gset str) : outcome (option str * nat) :=
  '(array_delim, pos) ← read_array_brackets s pos depth;
  match array_delim with
  | Some d =>
      if bool_decide (d ∈ used_delimiters) then Raises DelimiterConflictError
      else Returns (array_delim, pos)
  | None => Returns (array_delim, pos)
  end.

(** The optional component delimiter in front of a struct body, lines
    156-163: the delimiter and the position of the expected ["("]. *)
Definition struct_opener (s : str) (pos : nat) : option (str * nat) :=
  if bool_decide (s !! pos = Some (ch "(")) then Some (DEFAULT_COMP_DELIM, pos)
  else if bool_decide (s !! (pos + 1) = Some (ch "(")) then
    Some (slice s pos (pos + 1), pos + 1)
  else None.

(** What lines 156-207 find of a struct body. *)
Record struct_part : Type := StructPart {
  sp_comp_delim : str;
  sp_body : str;
  sp_end : nat;
  sp_inner_used : gset str
}.

Definition parse_struct_part (s : str) (pos : nat) (array_delim : option str)
    (used_delimiters : gset str) : outcome (option struct_part) :=
  match struct_opener s pos with
  | None => Returns None
  | Some (comp_delim, pos) =>
      if bool_decide (s !! pos ≠ Some (ch "(")) then Raises HeaderParseError
      else
        let pos := pos + 1 in
        if bool_decide (comp_delim ∈ used_delimiters)
        then Raises DelimiterConflictError
        else if bool_decide (array_delim = Some comp_delim)
        then Raises DelimiterConflictError
        else
          let body_start := pos in
          let '(pos, depth_count) := paren_loop (drop pos s) pos 1 in
          if bool_decide (depth_count ≠ 0) then Raises HeaderParseError
          else
            let body := slice s body_start (pos - 1) in
            let inner_used := used_delimiters ∪ {[comp_delim]} in
            let inner_used :=
              match array_delim with
              | Some d => inner_used ∪ {[d]}
              | None => inner_used
              end in
            Returns (Some (StructPart comp_delim body pos inner_used))
  end.

(** Lines 113-207 of [_parse_field], everything before the components
    are parsed: the name, the array delimiter if any, the position after
    the array part, and the struct body if any. *)
Definition parse_head (s : str) (pos depth : nat) (used_delimiters : gset str)
  : outcome (str * option str * nat * option struct_part) :=
  match NAME_RE_match s pos with
  | None => Raises HeaderParseError
  | Some m_end =>
      let name := slice s pos m_end in
      let pos := m_end in
      '(array_delim, pos) ← parse_array_part s pos depth used_delimiters;
      struct ← parse_struct_part s pos array_delim used_delimiters;
      Returns (name, array_delim, pos, struct)
  end.

(** [_parse_field].  [fuel] bounds the depth of the recursion; the
    [NestingDepthWarning] of lines 104-111 goes to the warnings channel and
    changes nothing here. *)
Fixpoint _parse_field (fuel : nat) (s : str) (pos depth : nat)
    (used_delimiters : gset str) : outcome (Field * nat) :=
  match fuel with
  | 0 => NoReturn
  | S fuel' =>
      '(name, array_delim, pos, struct) ← parse_head s pos depth used_delimiters;
      match struct with
      | None =>
          match array_delim with
          | Some d => Returns (ArrayField name d (SimpleField name), pos)
          | None => Returns (SimpleField name, pos)
          end
      | Some (StructPart comp_delim body pos inner_used) =>
          components ←
            _parse_component_list
              (λ raw, _parse_field fuel' raw 0 (depth + 1) inner_used)
              body comp_delim inner_used;
          let struct_type := StructField name comp_delim components in
          match array_delim with
          | Some d => Returns (ArrayField name d struct_type, pos)
          | None => Returns (struct_type, pos)
          end
      end
  end.

(** Every level of nesting consumes at least the two parentheses, so
    [length header] levels of recursion are never exhausted (see
    [parse_field_terminates]). *)
Definition parse_field (header : str) : outcome Field :=
  '(field_obj, consumed) ← _parse_field (S (length header)) header 0 0 ∅;
  if bool_decide (consumed ≠ length header) then Raises HeaderParseError
  else Returns field_obj.

(** [str.isspace] on one character, for the code points below 256. *)
Definition is_space (c : ascii) : bool :=
  let n := nat_of_ascii c in
  ((9 <=? n) && (n <=? 13)) || ((28 <=? n) && (n <=? 32))
  || (n =? 133) || (n =? 160).

Fixpoint lstrip (s : str) : str :=
  match s with
  | c :: s' => if is_space c then lstrip s' else s
  | [] => []
  end.

(** [s.strip()] *)
Definition strip (s : str) : str := reverse (lstrip (reverse (lstrip s))).

Definition parse_header_row (headers : list str) : outcome (list Field) :=
  for_each (λ h, parse_field (strip h)) headers.

(** ** parser.py *)

Definition CR : ascii := Ascii.ascii_of_nat 13.
Definition LF : ascii := Ascii.ascii_of_nat 10.

(** [_split_csv_lines]; [rest] is [text[i:]]. *)
Fixpoint split_csv_lines_loop (rest : str) (lines : list str) (current : str)
    (in_quotes : bool) : list str * str :=
  match rest with
  | [] => (lines, current)
  | c :: rest' =>
      if bool_decide (c = dquote) then
        match in_quotes, rest' with
        | true, c' :: rest'' =>
            if bool_decide (c' = dquote)
            then split_csv_lines_loop rest'' lines (current ++ [dquote]) in_quotes
            else split_csv_lines_loop rest' lines (current ++ [c]) (negb in_quotes)
        | _, _ => split_csv_lines_loop rest' lines (current ++ [c]) (negb in_quotes)
        end
      else if bool_decide (c = CR) && negb in_quotes then
        match rest' with
        | c' :: rest'' =>
            if bool_decide (c' = LF)
            then split_csv_lines_loop rest'' (lines ++ [current]) [] in_quotes
            else split_csv_lines_loop rest' (lines ++ [current]) [] in_quotes
        | [] => split_csv_lines_loop rest' (lines ++ [current]) [] in_quotes
        end
      else if bool_decide (c = LF) && negb in_quotes then
        split_csv_lines_loop rest' (lines ++ [current]) [] in_quotes
      else split_csv_lines_loop rest' lines (current ++ [c]) in_quotes
  end.

Definition _split_csv_lines (text : str) : list str :=
  let '(lines, current) := split_csv_lines_loop text [] [] false in
  if bool_decide (current ≠ []) then lines ++ [current] else lines.

(** One iteration of the loop of [_parse_csv_row]: the separator test is
    [ch == field_sep], one character against the whole separator. *)
Definition parse_csv_row_step (line field_sep : str) (st : scan) (ch : ascii)
  : scan :=
  let '(Scan vs fs cur wq inq i) := st in
  if inq then
    if bool_decide (ch = dquote) then
      if bool_decide (line !! (i + 1) = Some dquote)
      then Scan vs fs (cur ++ [dquote]) wq inq (i + 2)
      else Scan vs fs cur wq false (i + 1)
    else Scan vs fs (cur ++ [ch]) wq inq (i + 1)
  else
    if bool_decide (ch = dquote) && bool_decide (cur = []) then
      Scan vs fs cur true true (i + 1)
    else if bool_decide ([ch] = field_sep) then
      Scan (vs ++ [cur]) (fs ++ [wq]) [] false inq (i + 1)
    else Scan vs fs (cur ++ [ch]) wq inq (i + 1).

Definition _parse_csv_row (line field_sep : str) : outcome (list (str * bool)) :=
  st ← scan_loop (length line) line (parse_csv_row_step line field_sep) scan_init;
  Returns (scan_result st).

(** [_iter_rows_with_quoting]: every line after the first that is not
    blank, split into cells. *)
Definition _iter_rows_with_quoting (text field_sep : str)
  : outcome (list (list (str * bool))) :=
  let lines := _split_csv_lines text in
  for_each (λ line, _parse_csv_row line field_sep)
    (filter (λ line, strip line ≠ []) (drop 1 lines)).

(** The cell of column [col_idx]: the empty unquoted cell beyond the end of
    the row. *)
Definition cell (row : list (str * bool)) (col_idx : nat) : str * bool :=
  default ([], false) (row !! col_idx).

(** The [for col_idx, schema in enumerate(schemas)] loop of [parse]. *)
Fixpoint record_loop (schemas : list Field) (col_idx : nat)
    (row : list (str * bool)) (record : list (str * Value))
  : outcome (list (str * Value)) :=
  match schemas with
  | [] => Returns record
  | schema :: rest =>
      let '(raw_val, was_quoted) := cell row col_idx in
      v ← parse_value raw_val schema was_quoted;
      record_loop rest (S col_idx) row (dict_set record (field_name schema) v)
  end.

Definition parse_record (schemas : list Field) (row : list (str * bool))
  : outcome (list (str * Value)) :=
  record_loop schemas 0 row [].

(** The standard library's reader, as [parse] uses it:
    [reader = csv.reader(io.StringIO(text), delimiter=field_sep)] and then
    [next(reader)].  The call of [csv.reader] raises [TypeError] for a
    delimiter it does not accept, and [next] returns the first record,
    raises [StopIteration] when there is none, or raises [csv.Error]. *)
Inductive reader_result : Type :=
  | FirstRecord (raw_headers : list str)
  | StopIteration
  | ReaderTypeError
  | ReaderCsvError.

Section Parse.
(** The reader belongs to Python, not to this package. *)
Variable csv_reader_next : str → str → reader_result.

(** [parse]: only [StopIteration] is caught; the reader's own exceptions
    leave [parse] as they are. *)
Definition parse (text field_sep : str) : outcome (list (list (str * Value))) :=
  match csv_reader_next text field_sep with
  | ReaderTypeError => Raises TypeError
  | ReaderCsvError => Raises CsvError
  | StopIteration => Raises CSVPPError
  | FirstRecord raw_headers =>
      schemas ← parse_header_row raw_headers;
      rows ← _iter_rows_with_quoting text field_sep;
      for_each (parse_record schemas)
        (filter (λ raw_row, length raw_row ≠ 0) rows)
  end.
End Parse.

(** ** The decoder as the specification words it *)

(** The dict left by the assignments [d[k] = v] for [(k, v)] in [pairs],
    in order, starting from [init]. *)
Definition dict_of {V} (init : list (str * V)) (pairs : list (str * V))
  : list (str * V) :=
  foldl (λ d kv, dict_set d kv.1 kv.2) init pairs.

(** Array: the empty cell is the empty list; any other cell is split on the
    array delimiter and every token is decoded against the element schema
    with its own quoted flag. *)
Definition decode_array (delimiter : str) (element : Field) (raw : str)
  : outcome Value :=
  if bool_decide (raw = []) then Returns (VList [])
  else
    tokens ← quote_aware_split raw delimiter;
    vs ← for_each (λ '(token, quoted), parse_value token element quoted) tokens;
    Returns (VList vs).

(** Struct: component [i] is bound to the decoding of token [i] when there
    is one, to [VNone] otherwise. *)
Definition component_binding (tokens : list (str * bool)) (ic : nat * Field)
  : outcome (str * Value) :=
  match tokens !! ic.1 with
  | Some (token, quoted) =>
      v ← parse_value token ic.2 quoted; Returns (field_name ic.2, v)
  | None => Returns (field_name ic.2, VNone)
  end.

Definition enumerate_from {A} (start : nat) (l : list A) : list (nat * A) :=
  imap (λ j x, (start + j, x)) l.

Definition component_bindings (components : list Field)
    (tokens : list (str * bool)) : outcome (list (str * Value)) :=
  for_each (component_binding tokens) (enumerate_from 0 components).

(** Induction on schemas, with the hypothesis for every component of a
    struct. *)
Definition Field_nested_ind (P : Field → Prop)
    (Hsimple : ∀ name, P (SimpleField name))
    (Harray : ∀ name delimiter element,
        P element → P (ArrayField name delimiter element))
    (Hstruct : ∀ name component_delimiter components,
        Forall P components →
        P (StructField name component_delimiter components))
  : ∀ schema, P schema :=
  fix go (schema : Field) : P schema :=
    match schema with
    | SimpleField name => Hsimple name
    | ArrayField name delimiter element =>
        Harray name delimiter element (go element)
    | StructField name component_delimiter components =>
        Hstruct name component_delimiter components
          ((fix go_list (cs : list Field) : Forall P cs :=
              match cs with
              | [] => Forall_nil_2 P
              | c :: cs' => Forall_cons_2 P c cs' (go c) (go_list cs')
              end) components)
    end.

(** ** A quoted value meets a non-leaf schema

    [quoted_nonleaf raw schema was_quoted]: while [raw] is decoded against
    [schema], the decoder comes to a value that is quoted and whose schema
    is an array or a struct -- the cell itself, or a token at any depth,
    every token before it on the way having been decoded. *)
Inductive quoted_nonleaf : str → Field → bool → Prop :=
  | quoted_cell raw schema :
      is_SimpleField schema = false →
      quoted_nonleaf raw schema true
  | quoted_in_array raw name delimiter element tokens n token quoted :
      raw ≠ [] →
      quote_aware_split raw delimiter = Returns tokens →
      tokens !! n = Some (token, quoted) →
      (∀ m token' quoted', m < n → tokens !! m = Some (token', quoted') →
         ∃ v, parse_value token' element quoted' = Returns v) →
      quoted_nonleaf token element quoted →
      quoted_nonleaf raw (ArrayField name delimiter element) false
  | quoted_in_struct raw name component_delimiter components tokens
      n comp token quoted :
      components ≠ [] →
      quote_aware_split raw component_delimiter = Returns tokens →
      length tokens ≤ length components →
      components !! n = Some comp →
      tokens !! n = Some (token, quoted) →
      (∀ m comp' token' quoted', m < n →
         components !! m = Some comp' → tokens !! m = Some (token', quoted') →
         ∃ v, parse_value token' comp' quoted' = Returns v) →
      quoted_nonleaf token comp quoted →
      quoted_nonleaf raw (StructField name component_delimiter components) false.

(** Column [n] of a record: the name of its schema bound to the decoding of
    its cell. *)
Definition column_binding (row : list (str * bool)) (ic : nat * Field)
  : outcome (str * Value) :=
  v ← parse_value (cell row ic.1).1 ic.2 (cell row ic.1).2;
  Returns (field_name ic.2, v).

(** ** A reader to run whole documents with

    [first_line_reader] stands in for [csv.reader] with its default
    dialect (delimiter as given, the double quote as quote character,
    doubled quotes, no
    escape character, not strict) up to the first record, after the state
    machine of the standard library's reader.  [io.StringIO] hands the text
    over in lines that end with LF; the reader processes the characters of
    a line and then an end-of-line mark, and goes on with the next line
    while a quoted field is open. *)
Inductive csv_state : Type :=
  | START_RECORD
  | START_FIELD
  | IN_FIELD
  | IN_QUOTED_FIELD
  | QUOTE_IN_QUOTED_FIELD
  | EAT_CRNL.

Record csv_parser : Type := CsvParser {
  csv_fields : list str;
  csv_field : str;
  csv_st : csv_state
}.

Definition csv_save_field (p : csv_parser) (st : csv_state) : csv_parser :=
  CsvParser (csv_fields p ++ [csv_field p]) [] st.

Definition csv_add_char (p : csv_parser) (c : ascii) (st : csv_state)
  : csv_parser :=
  CsvParser (csv_fields p) (csv_field p ++ [c]) st.

(** One character, or the end-of-line mark [None]; the result [None] is
    [csv.Error]. *)
Definition csv_process_char (delimiter : ascii) (p : csv_parser)
    (c : option ascii) : option csv_parser :=
  let after_newline :=
    match c with None => START_RECORD | Some _ => EAT_CRNL end in
  let start_field :=
    match c with
    | None => Some (csv_save_field p START_RECORD)
    | Some x =>
        if bool_decide (x = LF) || bool_decide (x = CR)
        then Some (csv_save_field p EAT_CRNL)
        else if bool_decide (x = dquote)
        then Some (CsvParser (csv_fields p) (csv_field p) IN_QUOTED_FIELD)
        else if bool_decide (x = delimiter)
        then Some (csv_save_field p START_FIELD)
        else Some (csv_add_char p x IN_FIELD)
    end in
  match csv_st p with
  | START_RECORD =>
      match c with
      | None => Some p
      | Some x =>
          if bool_decide (x = LF) || bool_decide (x = CR)
          then Some (CsvParser (csv_fields p) (csv_field p) EAT_CRNL)
          else start_field
      end
  | START_FIELD => start_field
  | IN_FIELD =>
      match c with
      | None => Some (csv_save_field p after_newline)
      | Some x =>
          if bool_decide (x = LF) || bool_decide (x = CR)
          then Some (csv_save_field p after_newline)
          else if bool_decide (x = delimiter)
          then Some (csv_save_field p START_FIELD)
          else Some (csv_add_char p x IN_FIELD)
      end
  | IN_QUOTED_FIELD =>
      match c with
      | None => Some p
      | Some x =>
          if bool_decide (x = dquote)
          then Some (CsvParser (csv_fields p) (csv_field p) QUOTE_IN_QUOTED_FIELD)
          else Some (csv_add_char p x IN_QUOTED_FIELD)
      end
  | QUOTE_IN_QUOTED_FIELD =>
      match c with
      | None => Some (csv_save_field p after_newline)
      | Some x =>
          if bool_decide (x = dquote)
          then Some (csv_add_char p x IN_QUOTED_FIELD)
          else if bool_decide (x = delimiter)
          then Some (csv_save_field p START_FIELD)
          else if bool_decide (x = LF) || bool_decide (x = CR)
          then Some (csv_save_field p after_newline)
          else Some (csv_add_char p x IN_FIELD)
      end
  | EAT_CRNL =>
      match c with
      | None => Some (CsvParser (csv_fields p) (csv_field p) START_RECORD)
      | Some x =>
          if bool_decide (x = LF) || bool_decide (x = CR) then Some p
          else None
      end
  end.

Fixpoint csv_feed (delimiter : ascii) (chars : str) (p : csv_parser)
  : option csv_parser :=
  match chars with
  | [] => csv_process_char delimiter p None
  | c :: chars' =>
      match csv_process_char delimiter p (Some c) with
      | Some p' => csv_feed delimiter chars' p'
      | None => None
      end
  end.

(** The lines [io.StringIO(text)] yields: each ends with its LF, except
    a last line without one. *)
Fixpoint lines_keepends (text current : str) : list str :=
  match text with
  | [] => if bool_decide (current = []) then [] else [current]
  | c :: text' =>
      if bool_decide (c = LF) then (current ++ [c]) :: lines_keepends text' []
      else lines_keepends text' (current ++ [c])
  end.

Fixpoint csv_read (delimiter : ascii) (lines : list str) (p : csv_parser)
  : reader_result :=
  match lines with
  | [] =>
      match csv_field p, csv_st p with
      | [], IN_QUOTED_FIELD | _ :: _, _ =>
          FirstRecord (csv_fields p ++ [csv_field p])
      | [], _ => StopIteration
      end
  | line :: lines' =>
      match csv_feed delimiter line p with
      | None => ReaderCsvError
      | Some p' =>
          match csv_st p' with
          | START_RECORD => FirstRecord (csv_fields p')
          | _ => csv_read delimiter lines' p'
          end
      end
  end.

(** [csv.reader] refuses a delimiter that is not one character. *)
Definition first_line_reader (text field_sep : str) : reader_result :=
  match field_sep with
  | [delimiter] =>
      csv_read delimiter (lines_keepends text []) (CsvParser [] [] START_RECORD)
  | _ => ReaderTypeError
  end.

(** ** The calls of the header parser

    [_parse_field] on a component, with fuel for its whole length, and the
    iteration of [_parse_component_list] on it. *)
Definition parse_at (depth : nat) (used_delimiters : gset str) (raw : str)
  : outcome (Field * nat) :=
  _parse_field (S (length raw)) raw 0 depth used_delimiters.

Definition component_outcome (depth : nat) (used_delimiters : gset str)
    (raw : str) : outcome Field :=
  parse_component (parse_at depth used_delimiters) used_delimiters raw.

(** [visits header raw depth used]: parsing [header], some component loop
    comes to the component [raw], at nesting depth [depth] and with the
    delimiters [used] of the enclosing levels in scope -- every enclosing
    field has a well-formed head and struct body, and the components in
    front of [raw] in its list have been parsed without error. *)
Inductive visits (header : str) : str → nat → gset str → Prop :=
  | visits_top name array_delim pos sp raws n raw :
      parse_head header 0 0 ∅ = Returns (name, array_delim, pos, Some sp) →
      _bracket_aware_split (sp_body sp) (sp_comp_delim sp) = Returns raws →
      raws !! n = Some raw →
      (∀ m raw', m < n → raws !! m = Some raw' →
         ∃ f, component_outcome 1 (sp_inner_used sp) raw' = Returns f) →
      visits header raw 1 (sp_inner_used sp)
  | visits_nested outer depth used name array_delim pos sp raws n raw :
      visits header outer depth used →
      startswith outer (lit "(") = false →
      parse_head outer 0 depth used = Returns (name, array_delim, pos, Some sp) →
      _bracket_aware_split (sp_body sp) (sp_comp_delim sp) = Returns raws →
      raws !! n = Some raw →
      (∀ m raw', m < n → raws !! m = Some raw' →
         ∃ f, component_outcome (depth + 1) (sp_inner_used sp) raw' = Returns f) →
      visits header raw (depth + 1) (sp_inner_used sp).

(** A field declaration whose array part is the empty brackets. *)
Definition empty_brackets (s : str) : Prop :=
  ∃ name rest,
    name ≠ [] ∧ Forall (λ c, is_field_char c = true) name
    ∧ s = name ++ lit "[]" ++ rest.

(** [delimiter_reused used depth raw]: the component [raw], visited with
    the delimiters [used] in scope, shows one of them again -- it starts
    with the ["("] that a reused component delimiter cut off; its array
    delimiter or its component delimiter is in scope, or they are equal;
    or what is left after its field starts with a delimiter in scope. *)
Inductive delimiter_reused (used : gset str) (depth : nat) (raw : str) : Prop :=
  | reused_cut_paren :
      startswith raw (lit "(") = true →
      delimiter_reused used depth raw
  | reused_array_delimiter m_end d pos :
      NAME_RE_match raw 0 = Some m_end →
      read_array_brackets raw m_end depth = Returns (Some d, pos) →
      d ∈ used →
      delimiter_reused used depth raw
  | reused_component_delimiter m_end array_delim pos c pos' :
      NAME_RE_match raw 0 = Some m_end →
      parse_array_part raw m_end depth used = Returns (array_delim, pos) →
      struct_opener raw pos = Some (c, pos') →
      c ∈ used ∨ array_delim = Some c →
      delimiter_reused used depth raw
  | reused_after_field f consumed d :
      startswith raw (lit "(") = false →
      parse_at depth used raw = Returns (f, consumed) →
      consumed ≠ length raw →
      d ∈ used →
      startswith (drop consumed raw) d = true →
      delimiter_reused used depth raw.

(** ** The schema as shared Python objects

    [parse_value] receives a reference to a schema object that every row
    shares.  Here the schema objects live in a heap, the decoder is written
    against the heap in a state-and-error monad where any statement could
    write, and it reads: attribute loads and nothing else. *)
Module Heap.
Definition ref := nat.

Inductive object : Type :=
  | SimpleObject (name : str)
  | ArrayObject (name delimiter : str) (element_type : ref)
  | StructObject (name component_delimiter : str) (components : list ref).

Definition is_SimpleObject (o : object) : bool :=
  match o with SimpleObject _ => true | _ => false end.

Definition object_name (o : object) : str :=
  match o with
  | SimpleObject n => n
  | ArrayObject n _ _ => n
  | StructObject n _ _ => n
  end.

Definition run (A : Type) : Type := gmap ref object → gmap ref object * outcome A.

Definition lift {A} (m : outcome A) : run A := λ h, (h, m).

Definition run_bind_def {A B} (k : A → run B) (m : run A) : run B :=
  λ h, let '(h', r) := m h in
       match r with
       | Returns a => k a h'
       | Raises e => (h', Raises e)
       | NoReturn => (h', NoReturn)
       end.

Global Instance run_bind : MBind run := @run_bind_def.
Global Instance run_ret : MRet run := λ A a, lift (Returns a).

(** Reading the object behind a reference. *)
Definition load (r : ref) : run object :=
  λ h, (h, match h !! r with Some o => Returns o | None => NoReturn end).

Fixpoint array_loop (decode : str → ref → bool → run Value)
    (element_type : ref) (elements : list (str * bool)) : run (list Value) :=
  match elements with
  | [] => mret []
  | (elem, elem_quoted) :: rest =>
      o ← load element_type;
      if elem_quoted && negb (is_SimpleObject o)
      then lift (Raises InvalidQuotingError)
      else
        v ← decode elem element_type false;
        vs ← array_loop decode element_type rest;
        mret (v :: vs)
  end.

Fixpoint struct_loop (decode : str → ref → bool → run Value)
    (comps : list ref) (i : nat) (elements : list (str * bool))
    (result : list (str * Value)) : run (list (str * Value)) :=
  match comps with
  | [] => mret result
  | comp_schema :: rest =>
      o ← load comp_schema;
      match elements !! i with
      | Some (elem, elem_quoted) =>
          if elem_quoted && negb (is_SimpleObject o)
          then lift (Raises InvalidQuotingError)
          else
            v ← decode elem comp_schema false;
            struct_loop decode rest (S i) elements
              (dict_set result (object_name o) v)
      | None =>
          struct_loop decode rest (S i) elements
            (dict_set result (object_name o) VNone)
      end
  end.

Fixpoint parse_value (fuel : nat) (raw : str) (schema : ref)
    (was_quoted : bool) : run Value :=
  match fuel with
  | 0 => lift NoReturn
  | S fuel' =>
      o ← load schema;
      match o with
      | SimpleObject _ => mret (VStr raw)
      | ArrayObject _ delimiter element_type =>
          if was_quoted then lift (Raises InvalidQuotingError)
          else if bool_decide (raw = []) then mret (VList [])
          else
            elements ← lift (quote_aware_split raw delimiter);
            result ← array_loop (parse_value fuel') element_type elements;
            mret (VList result)
      | StructObject _ component_delimiter components =>
          if was_quoted then lift (Raises InvalidQuotingError)
          else if bool_decide (components = []) then mret (VDict [])
          else
            elements ← lift (quote_aware_split raw component_delimiter);
            if bool_decide (length components < length elements)
            then lift (Raises ValueParseError)
            else
              result ← struct_loop (parse_value fuel') components 0
                         elements [];
              mret (VDict result)
      end
  end.

(** The object behind [r] is the root of the schema tree [schema]. *)
Inductive represents (h : gmap ref object) : ref → Field → Prop :=
  | represents_simple r name :
      h !! r = Some (SimpleObject name) →
      represents h r (SimpleField name)
  | represents_array r name delimiter e element :
      h !! r = Some (ArrayObject name delimiter e) →
      represents h e element →
      represents h r (ArrayField name delimiter element)
  | represents_struct r name component_delimiter cs components :
      h !! r = Some (StructObject name component_delimiter cs) →
      Forall2 (represents h) cs components →
      represents h r (StructField name component_delimiter components).
End Heap.

(** The objects of the schema of the header [tags[|]]. *)
Definition tags_heap : gmap Heap.ref Heap.object :=
  {[ 0 := Heap.ArrayObject (lit "tags") (lit "|") 1;
     1 := Heap.SimpleObject (lit "tags") ]}.

(** The number of schema levels, which bounds the recursion of the
    decoder. *)
Fixpoint height (schema : Field) : nat :=
  match schema with
  | SimpleField _ => 1
  | ArrayField _ _ element => S (height element)
  | StructField _ _ components => S (max_list (height <$> components))
  end.

(** A computation that leaves every heap as it found it. *)
Definition frames {A} (m : Heap.run A) : Prop := ∀ h, (m h).1 = h.

(** ** Notions used to state further properties *)

(** [sep.join(parts)] *)
Fixpoint join (sep : str) (parts : list str) : str :=
  match parts with
  | [] => []
  | [p] => p
  | p :: rest => p ++ sep ++ join sep rest
  end.

(** A token written as a quoted token: between double quotes, every double
    quote of the content doubled. *)
Definition escape_quotes (s : str) : str :=
  flat_map (λ c, if bool_decide (c = dquote) then [dquote; dquote] else [c]) s.

Definition quote_token (s : str) : str := quoted (escape_quotes s).

(** A name of the header grammar: [1*field-char]. *)
Definition valid_name (name : str) : Prop :=
  name ≠ [] ∧ Forall (λ c, is_field_char c = true) name.

(** The schemas of the data model, [used] being the delimiters of the
    enclosing levels: names are names of the grammar, every delimiter is
    one character and differs from every delimiter in scope, an array
    repeats a scalar or a struct of its own name, and a struct has at least
    one component. *)
Inductive well_formed : gset str → Field → Prop :=
  | wf_simple used name :
      valid_name name →
      well_formed used (SimpleField name)
  | wf_array used name d :
      valid_name name → length d = 1 → d ∉ used →
      well_formed used (ArrayField name d (SimpleField name))
  | wf_struct used name c components :
      valid_name name → length c = 1 → c ∉ used →
      components ≠ [] →
      Forall (well_formed (used ∪ {[c]})) components →
      well_formed used (StructField name c components)
  | wf_array_struct used name d c components :
      valid_name name → length d = 1 → length c = 1 →
      d ∉ used → c ∉ used → c ≠ d →
      components ≠ [] →
      Forall (well_formed (used ∪ {[c]} ∪ {[d]})) components →
      well_formed used (ArrayField name d (StructField name c components)).

(** The values a schema describes: a string for a scalar, a list of values of
    the element for an array, and for a struct a dict that has every
    component name once, an entry holding a value of a component of that
    name or [VNone]. *)
Inductive conforms : Field → Value → Prop :=
  | conforms_simple name s :
      conforms (SimpleField name) (VStr s)
  | conforms_array name delimiter element vs :
      Forall (conforms element) vs →
      conforms (ArrayField name delimiter element) (VList vs)
  | conforms_struct name component_delimiter components d :
      NoDup (dict_keys d) →
      (∀ k, k ∈ dict_keys d ↔ k ∈ field_name <$> components) →
      Forall (λ kv, ∃ comp, comp ∈ components ∧ field_name comp = kv.1
                            ∧ (kv.2 = VNone ∨ conforms comp kv.2)) d →
      conforms (StructField name component_delimiter components) (VDict d).

(** The state of a scan of a suffix, seen from the whole string: [n]
    characters and the tokens [vs0], flagged [fs0], came before it. *)
Definition scan_shift (n : nat) (vs0 : list str) (fs0 : list bool) (st : scan)
  : scan :=
  Scan (vs0 ++ values st) (fs0 ++ quoted_flags st) (current st)
       (this_quoted st) (in_quotes st) (n + i st).

(** [delimiter] does not start inside [token], also when it follows it. *)
Definition delimiter_free (delimiter token : str) : Prop :=
  ∀ k, k < length token →
       slice (token ++ delimiter) k (k + length delimiter) ≠ delimiter.

(** A token that needs no quotes in front of [delimiter]: it does not
    begin with a double quote and the delimiter does not start inside it.
    (A double quote further on is an ordinary character to the splitter.) *)
Definition plain_token (delimiter token : str) : Prop :=
  head token ≠ Some dquote ∧ delimiter_free delimiter token.

(** A token as it is written in a value: between quotes when flagged. *)
Definition write_token (token : str * bool) : str :=
  if token.2 then quote_token token.1 else token.1.

(** ** pprint.py: the rendering of a decoded value *)

Module Pprint.

(** [_Palette]: the ANSI sequences; all empty without colour. *)
Record Palette : Type := MkPalette {
  RESET : str;
  BOLD : str;
  DIM : str;
  CYAN : str;
  YELLOW : str;
  GREEN : str;
  MAGENTA : str;
  BLUE : str
}.

Definition ESC : ascii := Ascii.ascii_of_nat 27.

Definition _ANSI : Palette :=
  MkPalette (ESC :: lit "[0m") (ESC :: lit "[1m") (ESC :: lit "[2m")
            (ESC :: lit "[36m") (ESC :: lit "[33m") (ESC :: lit "[32m")
            (ESC :: lit "[35m") (ESC :: lit "[34m").

Definition _PLAIN : Palette := MkPalette [] [] [] [] [] [] [] [].

(** [str(n)] *)
Definition decimal (n : nat) : str := lit (pretty n).

(** [" " * n] *)
Definition spaces (n : nat) : str := replicate n " "%char.

(** [f"{s:<{w}}"] *)
Definition ljust (s : str) (w : nat) : str := s ++ spaces (w - length s).

(** The items when [all(isinstance(v, str) for v in items)]. *)
Fixpoint strings_of (items : list Value) : option (list str) :=
  match items with
  | [] => Some []
  | VStr s :: rest => rest' ← strings_of rest; Some (s :: rest')
  | _ :: _ => None
  end.

(** [f'"{v}"' if "," in v or not v else v] *)
Definition inline_item (v : str) : str :=
  if bool_decide (","%char ∈ v) || bool_decide (v = []) then quoted v else v.

(** The loop of [_render_list] over items that are not all strings;
    [render] stands for [_render_value], and [None] for the [IndexError]
    of [item_lines[0]] on an empty list. *)
Fixpoint render_items (render : Value → option (list str)) (c : Palette)
    (idx : nat) (items : list Value) : option (list str) :=
  match items with
  | [] => Some []
  | item :: rest =>
      let idx_str := DIM c ++ lit "[" ++ decimal idx ++ lit "]" ++ RESET c ++ lit " " in
      item_lines ← render item;
      first ← item_lines !! 0;
      let pad := spaces (length (lit "[" ++ decimal idx ++ lit "] ")) in
      more ← render_items render c (S idx) rest;
      Some ((idx_str ++ first) :: ((λ il, pad ++ il) <$> drop 1 item_lines) ++ more)
  end.

Definition _render_list (render : Value → option (list str)) (c : Palette)
    (items : list Value) : option (list str) :=
  match items with
  | [] => Some [DIM c ++ lit "[]" ++ RESET c]
  | _ :: _ =>
      match strings_of items with
      | Some strs =>
          let inline := join (lit ", ") (inline_item <$> strs) in
          if bool_decide (length inline ≤ 45)
          then Some [YELLOW c ++ lit "[" ++ RESET c ++ inline
                     ++ YELLOW c ++ lit "]" ++ RESET c]
          else Some (imap (λ idx item,
                             (DIM c ++ lit "[" ++ decimal idx ++ lit "]"
                              ++ RESET c ++ lit " ")
                             ++ GREEN c ++ item ++ RESET c) strs)
      | None => render_items render c 0 items
      end
  end.

(** The loop of [_render_struct] over [struct.items()]. *)
Fixpoint render_entries (render : Value → option (list str)) (c : Palette)
    (sub_key_w : nat) (entries : list (str * Value)) : option (list str) :=
  match entries with
  | [] => Some []
  | (key, value) :: rest =>
      let key_str := MAGENTA c ++ ljust key sub_key_w ++ RESET c in
      val_lines ← render value;
      first ← val_lines !! 0;
      let pad := spaces sub_key_w in
      more ← render_entries render c sub_key_w rest;
      Some ((key_str ++ lit "  " ++ first)
            :: ((λ vl, pad ++ lit "  " ++ vl) <$> drop 1 val_lines) ++ more)
  end.

Definition _render_struct (render : Value → option (list str)) (c : Palette)
    (struct : list (str * Value)) : option (list str) :=
  match struct with
  | [] => Some [DIM c ++ lit "{}" ++ RESET c]
  | _ :: _ =>
      let sub_key_w := max_list (length <$> struct.*1) in
      render_entries render c sub_key_w struct
  end.

(** [_render_value]: the display lines of a value.  The last [return] of
    the source, for a value that is none of [None], [str], [list] and
    [dict], has no counterpart in [Value]. *)
Fixpoint _render_value (c : Palette) (value : Value) : option (list str) :=
  match value with
  | VNone => Some [DIM c ++ lit "(none)" ++ RESET c]
  | VStr s =>
      if bool_decide (s = []) then Some [DIM c ++ lit "(empty)" ++ RESET c]
      else Some [GREEN c ++ s ++ RESET c]
  | VList items => _render_list (_render_value c) c items
  | VDict struct => _render_struct (_render_value c) c struct
  end.

End Pprint.

(** Induction on values, with the hypothesis for every item of a list and
    every value of a dict. *)
Definition Value_nested_ind (P : Value → Prop)
    (Hstr : ∀ s, P (VStr s))
    (Hlist : ∀ l, Forall P l → P (VList l))
    (Hdict : ∀ d, Forall (λ kv, P kv.2) d → P (VDict d))
    (Hnone : P VNone) : ∀ v, P v :=
  fix go (v : Value) : P v :=
    match v with
    | VStr s => Hstr s
    | VList l =>
        Hlist l ((fix go_list (l : list Value) : Forall P l :=
                    match l with
                    | [] => Forall_nil_2 P
                    | x :: l' => Forall_cons_2 P x l' (go x) (go_list l')
                    end) l)
    | VDict d =>
        Hdict d ((fix go_dict (d : list (str * Value))
                    : Forall (λ kv, P kv.2) d :=
                    match d with
                    | [] => Forall_nil_2 _
                    | kv :: d' => Forall_cons_2 _ kv d' (go kv.2) (go_dict d')
                    end) d)
    | VNone => Hnone
    end.

(** ** Writing headers *)

Definition is_bracket (c : ascii) : bool :=
  bool_decide (c = ch "(") || bool_decide (c = ch ")")
  || bool_decide (c = ch "[") || bool_decide (c = ch "]").

(** The header of a schema, by the grammar of [header_parser]: the name,
    the array delimiter between square brackets, the component delimiter
    and the components between parentheses, separated by it. *)
Fixpoint header_text (f : Field) : str :=
  match f with
  | SimpleField name => name
  | ArrayField name d element =>
      name ++ lit "[" ++ d ++ lit "]"
      ++ match element with
         | StructField _ c components =>
             c ++ lit "(" ++ join c (header_text <$> components) ++ lit ")"
         | _ => []
         end
  | StructField name c components =>
      name ++ c ++ lit "(" ++ join c (header_text <$> components) ++ lit ")"
  end.

(** The delimiters a header can declare so that it reads back: no
    delimiter is a bracket, and a component delimiter, which follows a
    name, is no character of names. *)
Inductive writable : Field → Prop :=
  | writable_simple name : writable (SimpleField name)
  | writable_array name d element :
      Forall (λ x, is_bracket x = false) d →
      writable element →
      writable (ArrayField name d element)
  | writable_struct name c components :
      Forall (λ y, is_bracket y = false ∧ is_field_char y = false) c →
      Forall writable components →
      writable (StructField name c components).

(** The change of [depth] in [_bracket_aware_split] over a string. *)
Definition bracket_value (c : ascii) : Z :=
  if bool_decide (c = ch "(") || bool_decide (c = ch "[") then 1%Z
  else if bool_decide (c = ch ")") || bool_decide (c = ch "]") then (-1)%Z
  else 0%Z.

Fixpoint bracket_delta (s : str) : Z :=
  match s with
  | [] => 0%Z
  | c :: s' => (bracket_value c + bracket_delta s')%Z
  end.

(** A stretch over which the search for the closing parenthesis goes on
    with the count it had. *)
Definition paren_neutral (t : str) : Prop :=
  ∀ rest pos k,
    paren_loop (t ++ rest) pos (S k) = paren_loop rest (pos + length t) (S k).

(** ** Positions

    What the header parser finds at position [k + p] of a string is what
    it finds at position [p] of the string without its first [k]
    characters, with every position moved by [k]. *)
Definition shift_struct_part (k : nat) (sp : struct_part) : struct_part :=
  StructPart (sp_comp_delim sp) (sp_body sp) (k + sp_end sp) (sp_inner_used sp).

Definition shift_struct (k : nat) (r : outcome (option struct_part))
  : outcome (option struct_part) :=
  match r with
  | Returns (Some sp) => Returns (Some (shift_struct_part k sp))
  | other => other
  end.

Definition shift_consumed {A} (k : nat) (r : outcome (A * nat))
  : outcome (A * nat) :=
  match r with
  | Returns (a, consumed) => Returns (a, k + consumed)
  | Raises e => Raises e
  | NoReturn => NoReturn
  end.

(** * Properties *)

(** ** The tests of the package, run on the embedding *)

Example quote_aware_split_test :
  quote_aware_split (lit "a|" ++ quoted (lit "b|c") ++ lit "|d") (lit "|")
  = Returns [(lit "a", false); (lit "b|c", true); (lit "d", false)].
Proof. vm_compute. reflexivity. Qed.

Example parse_field_ecommerce :
  parse_field (lit "items[~]^(sku^name^opts[;]:(k:v))")
  = Returns (ArrayField (lit "items") (lit "~")
      (StructField (lit "items") (lit "^")
         [SimpleField (lit "sku"); SimpleField (lit "name");
          ArrayField (lit "opts") (lit ";")
            (StructField (lit "opts") (lit ":")
               [SimpleField (lit "k"); SimpleField (lit "v")])])).
Proof. vm_compute. reflexivity. Qed.

Example parse_field_conflict :
  parse_field (lit "address[~]^(street~city)") = Raises DelimiterConflictError.
Proof. vm_compute. reflexivity. Qed.

Example parse_field_nested_empty :
  parse_field (lit "address[~]^(lines[]^city)") = Raises HeaderParseError.
Proof. vm_compute. reflexivity. Qed.

Example parse_field_same_component_delims :
  parse_field (lit "location^(name^coords^(lat^lon))")
  = Raises DelimiterConflictError.
Proof. vm_compute. reflexivity. Qed.

(** ** The error monad *)

Lemma bind_Returns {A B} (a : A) (k : A → outcome B) :
  (Returns a ≫= k) = k a.
Proof. reflexivity. Qed.

Lemma bind_eq_Returns {A B} (m : outcome A) (k : A → outcome B) (b : B) :
  (m ≫= k) = Returns b ↔ ∃ a, m = Returns a ∧ k a = Returns b.
Proof.
  destruct m as [a| |]; simpl; split; try (intros [a' [? ?]]); try discriminate.
  - intros H. exists a. auto.
  - congruence.
Qed.

Lemma for_each_ext {A B} (f g : A → outcome B) (l : list A) :
  (∀ x, x ∈ l → f x = g x) → for_each f l = for_each g l.
Proof.
  induction l as [|x l IH]; intros Hfg; simpl; [reflexivity|].
  rewrite (Hfg x) by apply list_elem_of_here.
  rewrite IH; [reflexivity|].
  intros y Hy. apply Hfg. by apply list_elem_of_further.
Qed.

(** ** Decoding tokens *)

(** Checking the flag of a token and then decoding it as unquoted, as both
    loops do, is decoding it with its own flag. *)
Lemma decode_token_eq (schema : Field) (token : str) (quoted : bool) :
  (if quoted && negb (is_SimpleField schema)
   then Raises InvalidQuotingError
   else parse_value token schema false)
  = parse_value token schema quoted.
Proof. destruct quoted, schema; reflexivity. Qed.

Lemma array_loop_for_each (element : Field) (elements : list (str * bool)) :
  array_loop (λ elem, parse_value elem element false)
    (is_SimpleField element) elements
  = for_each (λ '(token, quoted), parse_value token element quoted) elements.
Proof.
  induction elements as [|[token quoted] rest IH]; simpl; [reflexivity|].
  rewrite <- (decode_token_eq element token quoted).
  destruct (quoted && negb (is_SimpleField element)); [reflexivity|].
  rewrite IH. reflexivity.
Qed.

Lemma enumerate_from_cons {A} (i : nat) (x : A) (l : list A) :
  enumerate_from i (x :: l) = (i, x) :: enumerate_from (S i) l.
Proof.
  unfold enumerate_from. rewrite imap_cons, Nat.add_0_r. f_equal.
  apply imap_ext. intros j y _. simpl. f_equal. lia.
Qed.

Lemma component_binding_token elements i comp token quoted :
  elements !! i = Some (token, quoted) →
  component_binding elements (i, comp)
  = (v ← parse_value token comp quoted; Returns (field_name comp, v)).
Proof. unfold component_binding. simpl. intros ->. reflexivity. Qed.

Lemma component_binding_missing elements i comp :
  elements !! i = None →
  component_binding elements (i, comp) = Returns (field_name comp, VNone).
Proof. unfold component_binding. simpl. intros ->. reflexivity. Qed.

Lemma struct_loop_bindings (comps : list Field) (i : nat)
    (elements : list (str * bool)) (result : list (str * Value)) :
  struct_loop (λ comp_schema elem, parse_value elem comp_schema false)
    comps i elements result
  = (bs ← for_each (component_binding elements) (enumerate_from i comps);
     Returns (dict_of result bs)).
Proof.
  revert i result.
  induction comps as [|comp rest IH]; intros i result; [reflexivity|].
  rewrite enumerate_from_cons. cbn [struct_loop for_each].
  destruct (elements !! i) as [[token quoted]|] eqn:Hi.
  - rewrite (component_binding_token _ _ _ _ _ Hi).
    rewrite <- (decode_token_eq comp token quoted).
    destruct (quoted && negb (is_SimpleField comp)); [reflexivity|].
    destruct (parse_value token comp false) as [v| |]; simpl; try reflexivity.
    rewrite IH. destruct (for_each _ _); reflexivity.
  - rewrite (component_binding_missing _ _ _ Hi). simpl.
    rewrite IH. destruct (for_each _ _); reflexivity.
Qed.

Lemma for_each_Returns {A B} (f : A → outcome B) (l : list A) (ys : list B) :
  for_each f l = Returns ys ↔ Forall2 (λ x y, f x = Returns y) l ys.
Proof.
  revert ys. induction l as [|x l IH]; intros ys; simpl.
  - split.
    + intros [= <-]. constructor.
    + intros H. inversion H. reflexivity.
  - split.
    + intros H. apply bind_eq_Returns in H as (y & Hy & H).
      apply bind_eq_Returns in H as (ys' & Hys & [= <-]).
      constructor; [exact Hy | by apply IH].
    + intros H. inversion H as [|? y ? ys' Hy Hys]; subst.
      rewrite Hy. simpl. apply IH in Hys. rewrite Hys. reflexivity.
Qed.

(** ** Insertion-ordered dicts *)

Section Dict.
Context {V : Type}.
Implicit Types (d : list (str * V)) (k : str) (v : V).

Lemma dict_get_set_eq d k v : dict_get (dict_set d k v) k = Some v.
Proof.
  induction d as [|[k' v'] d IH]; simpl.
  - rewrite bool_decide_eq_true_2; reflexivity.
  - destruct (bool_decide (k' = k)) eqn:E; simpl.
    + rewrite bool_decide_eq_true_2; reflexivity.
    + rewrite E. exact IH.
Qed.

Lemma dict_get_set_ne d k k' v :
  k ≠ k' → dict_get (dict_set d k v) k' = dict_get d k'.
Proof.
  intros Hne. induction d as [|[k0 v0] d IH]; simpl.
  - rewrite bool_decide_eq_false_2; [reflexivity | exact Hne].
  - destruct (bool_decide (k0 = k)) eqn:E; simpl.
    + apply bool_decide_eq_true in E. subst k0.
      rewrite !bool_decide_eq_false_2 by exact Hne. reflexivity.
    + rewrite IH. reflexivity.
Qed.

Lemma dict_set_fresh d k v : k ∉ dict_keys d → dict_set d k v = d ++ [(k, v)].
Proof.
  unfold dict_keys. induction d as [|[k' v'] d IH]; simpl; intros Hk.
  - reflexivity.
  - apply not_elem_of_cons in Hk as [Hne Hk].
    rewrite bool_decide_eq_false_2 by congruence. rewrite IH; auto.
Qed.

Lemma dict_keys_set_elem d k v k' :
  k' ∈ dict_keys (dict_set d k v) ↔ k' = k ∨ k' ∈ dict_keys d.
Proof.
  unfold dict_keys. induction d as [|[k0 v0] d IH]; simpl.
  - rewrite list_elem_of_singleton, elem_of_nil. tauto.
  - destruct (bool_decide (k0 = k)) eqn:E; simpl.
    + apply bool_decide_eq_true in E. subst k0.
      rewrite !elem_of_cons. tauto.
    + rewrite !elem_of_cons, IH. tauto.
Qed.

Lemma dict_keys_set_NoDup d k v :
  NoDup (dict_keys d) → NoDup (dict_keys (dict_set d k v)).
Proof.
  unfold dict_keys. induction d as [|[k0 v0] d IH]; simpl; intros Hnd.
  - apply NoDup_singleton.
  - apply NoDup_cons in Hnd as [Hk0 Hnd].
    destruct (bool_decide (k0 = k)) eqn:E; simpl.
    + apply bool_decide_eq_true in E. subst k0.
      apply NoDup_cons. auto.
    + apply bool_decide_eq_false in E.
      apply NoDup_cons. split; [|auto].
      intros Hin. apply (dict_keys_set_elem d k v k0) in Hin as [?|?];
        [congruence | contradiction].
Qed.

Lemma dict_of_snoc d (bs : list (str * V)) k v :
  dict_of d (bs ++ [(k, v)]) = dict_set (dict_of d bs) k v.
Proof. unfold dict_of. rewrite foldl_snoc. reflexivity. Qed.

Lemma dict_of_NoDup d (bs : list (str * V)) :
  NoDup (dict_keys d) → NoDup (dict_keys (dict_of d bs)).
Proof.
  revert d. induction bs as [|[k v] bs IH]; intros d Hd; simpl; [exact Hd|].
  apply IH. by apply dict_keys_set_NoDup.
Qed.

Lemma dict_of_keys_elem d (bs : list (str * V)) k :
  k ∈ dict_keys (dict_of d bs) ↔ k ∈ dict_keys d ∨ k ∈ bs.*1.
Proof.
  revert d. induction bs as [|[k0 v0] bs IH]; intros d; simpl.
  - rewrite elem_of_nil. tauto.
  - rewrite IH, dict_keys_set_elem, elem_of_cons. tauto.
Qed.

(** Bindings with pairwise distinct fresh keys are stored as they come. *)
Lemma dict_of_distinct d (bs : list (str * V)) :
  NoDup (dict_keys d ++ bs.*1) → dict_of d bs = d ++ bs.
Proof.
  revert d. induction bs as [|[k v] bs IH]; intros d Hnd; simpl.
  - by rewrite app_nil_r.
  - assert (Hk : k ∉ dict_keys d).
    { apply NoDup_app in Hnd as (_ & Hdis & _). intros Hin.
      apply (Hdis k Hin). simpl. apply list_elem_of_here. }
    rewrite (dict_set_fresh d k v Hk). rewrite IH.
    + rewrite <- app_assoc. reflexivity.
    + unfold dict_keys in *. rewrite fmap_app. simpl.
      rewrite <- app_assoc. exact Hnd.
Qed.

(** The value stored under a key is the one of the last binding for it. *)
Lemma dict_of_get_last d (pre post : list (str * V)) k v :
  k ∉ post.*1 → dict_get (dict_of d (pre ++ (k, v) :: post)) k = Some v.
Proof.
  intros Hpost. unfold dict_of. rewrite foldl_app. simpl.
  fold (dict_of (dict_set (foldl (λ d kv, dict_set d kv.1 kv.2) d pre) k v) post).
  generalize (dict_get_set_eq (foldl (λ d kv, dict_set d kv.1 kv.2) d pre) k v).
  generalize (dict_set (foldl (λ d kv, dict_set d kv.1 kv.2) d pre) k v).
  induction post as [|[k' v'] post IH]; intros d0 Hd0; simpl; [exact Hd0|].
  simpl in Hpost. apply not_elem_of_cons in Hpost as [Hne Hpost].
  apply IH; [exact Hpost|].
  rewrite dict_get_set_ne by congruence. exact Hd0.
Qed.

Lemma dict_get_is_Some d k : is_Some (dict_get d k) ↔ k ∈ dict_keys d.
Proof.
  unfold dict_keys. induction d as [|[k' v'] d IH]; simpl.
  - rewrite elem_of_nil. split; [intros [? [=]] | tauto].
  - destruct (bool_decide (k' = k)) eqn:E.
    + apply bool_decide_eq_true in E. subst. rewrite elem_of_cons.
      split; eauto.
    + apply bool_decide_eq_false in E. rewrite elem_of_cons, IH.
      split; [tauto | intros [?|?]; [congruence | assumption]].
Qed.
End Dict.

(** ** The scanning loops return *)

Lemma scan_loop_returns (s : str) (step : scan → ascii → scan) :
  (∀ st c, s !! i st = Some c → i st < i (step st c)) →
  ∀ fuel st, length s ≤ fuel + i st →
  ∃ st', scan_loop fuel s step st = Returns st'.
Proof.
  intros Hstep fuel. induction fuel as [|fuel IH]; intros st Hlen; simpl.
  - rewrite (lookup_ge_None_2 s (i st)) by lia. eauto.
  - destruct (s !! i st) as [c|] eqn:Hc; [|eauto].
    apply IH. specialize (Hstep st c Hc). lia.
Qed.

Lemma scan_loop_invariant (P : scan → Prop) (s : str)
    (step : scan → ascii → scan) :
  (∀ st c, s !! i st = Some c → P st → P (step st c)) →
  ∀ fuel st st', P st → scan_loop fuel s step st = Returns st' → P st'.
Proof.
  intros Hstep fuel. induction fuel as [|fuel IH]; intros st st' HP; simpl.
  - destruct (s !! i st); [discriminate|]. by intros [= <-].
  - destruct (s !! i st) as [c|] eqn:Hc; [|by intros [= <-]].
    apply IH. by apply Hstep.
Qed.

Lemma quote_aware_split_step_advances s delimiter st c :
  delimiter ≠ [] → i st < i (quote_aware_split_step s delimiter st c).
Proof.
  intros Hd. assert (0 < length delimiter) by (destruct delimiter; simpl; [done|lia]).
  destruct st as [vs fs cur tq inq n]. unfold quote_aware_split_step.
  repeat case_match; simpl; lia.
Qed.

Lemma scan_result_length st :
  length (values st) = length (quoted_flags st) →
  length (scan_result st) = S (length (values st)).
Proof.
  intros H. unfold scan_result.
  rewrite length_zip_with, !length_app, <- H. simpl. lia.
Qed.

Lemma quote_aware_split_step_flags s delimiter st c :
  length (values st) = length (quoted_flags st) →
  length (values (quote_aware_split_step s delimiter st c))
  = length (quoted_flags (quote_aware_split_step s delimiter st c)).
Proof.
  destruct st as [vs fs cur tq inq n]. unfold quote_aware_split_step.
  repeat case_match; simpl; rewrite ?length_app; simpl; lia.
Qed.

(** With a delimiter of at least one character the splitter returns, and
    it returns at least one token. *)
Lemma quote_aware_split_returns (s delimiter : str) :
  delimiter ≠ [] →
  ∃ tokens, quote_aware_split s delimiter = Returns tokens ∧ 0 < length tokens.
Proof.
  intros Hd. unfold quote_aware_split.
  destruct (scan_loop_returns s (quote_aware_split_step s delimiter)
              (λ st c _, quote_aware_split_step_advances s delimiter st c Hd)
              (length s) scan_init) as [st Hst]; [simpl; lia|].
  rewrite Hst. simpl. eexists. split; [reflexivity|].
  rewrite scan_result_length; [lia|].
  apply (scan_loop_invariant
           (λ st, length (values st) = length (quoted_flags st)) s
           (quote_aware_split_step s delimiter)
           (λ st c _, quote_aware_split_step_flags s delimiter st c)
           (length s) scan_init st); [reflexivity | exact Hst].
Qed.

(** ** Arrays *)

Lemma parse_value_array name delimiter element raw :
  parse_value raw (ArrayField name delimiter element) false
  = decode_array delimiter element raw.
Proof.
  simpl. unfold decode_array.
  destruct (bool_decide (raw = [])); [reflexivity|].
  destruct (quote_aware_split raw delimiter) as [tokens| |]; simpl; try reflexivity.
  rewrite array_loop_for_each. reflexivity.
Qed.

(** C3. Decoding an unquoted cell against an array schema: the empty cell
    is the empty list; any other cell is split by the quote-aware splitter
    on the array delimiter (which returns for every non-empty delimiter) and
    each token is decoded against the element schema with its own quoted
    flag.  Empty tokens stay as empty strings, and a quoted token keeps the
    delimiter as content. *)
Theorem array_decoding :
  (∀ name delimiter element raw,
     parse_value raw (ArrayField name delimiter element) false
     = decode_array delimiter element raw)
  ∧ (∀ name delimiter element,
       parse_value [] (ArrayField name delimiter element) false
       = Returns (VList []))
  ∧ (∀ delimiter raw, delimiter ≠ [] →
       ∃ tokens, quote_aware_split raw delimiter = Returns tokens
                 ∧ 0 < length tokens)
  ∧ (∃ schema,
       parse_field (lit "tags[|]") = Returns schema
       ∧ parse_value (lit "urgent||priority") schema false
         = Returns (VList [VStr (lit "urgent"); VStr []; VStr (lit "priority")])
       ∧ parse_value (lit "First note|" ++ quoted (lit "Second note with | pipe")
                      ++ lit "|Third note")
           schema false
         = Returns (VList [VStr (lit "First note");
                           VStr (lit "Second note with | pipe");
                           VStr (lit "Third note")])).
Proof.
  split; [exact parse_value_array|].
  split; [reflexivity|].
  split; [intros delimiter raw; apply quote_aware_split_returns|].
  eexists. split; [vm_compute; reflexivity|].
  split; vm_compute; reflexivity.
Qed.

Lemma array_decoding_witness :
  ∃ tokens, quote_aware_split (lit "urgent||priority") (lit "|") = Returns tokens
            ∧ 0 < length tokens.
Proof.
  apply (proj1 (proj2 (proj2 array_decoding))). discriminate.
Defined.

(** ** Structs *)

Lemma parse_value_struct name component_delimiter components raw tokens :
  components ≠ [] →
  quote_aware_split raw component_delimiter = Returns tokens →
  parse_value raw (StructField name component_delimiter components) false
  = if bool_decide (length components < length tokens)
    then Raises ValueParseError
    else bs ← component_bindings components tokens;
         Returns (VDict (dict_of [] bs)).
Proof.
  intros Hne Hsplit. simpl.
  rewrite bool_decide_eq_false_2 by exact Hne.
  rewrite Hsplit. simpl.
  destruct (bool_decide (length components < length tokens)); [reflexivity|].
  rewrite struct_loop_bindings. unfold component_bindings.
  destruct (for_each _ _); reflexivity.
Qed.

Lemma enumerate_from_lookup {A} (start : nat) (l : list A) (n : nat) :
  enumerate_from start l !! n = (λ x, (start + n, x)) <$> l !! n.
Proof. unfold enumerate_from. rewrite list_lookup_imap. reflexivity. Qed.

Lemma component_bindings_names components tokens bs :
  component_bindings components tokens = Returns bs →
  bs.*1 = field_name <$> components.
Proof.
  unfold component_bindings. generalize 0.
  revert bs. induction components as [|comp rest IH]; intros bs n H.
  - injection H as <-. reflexivity.
  - rewrite enumerate_from_cons in H. simpl in H.
    apply bind_eq_Returns in H as ([k v] & Hb & H).
    apply bind_eq_Returns in H as (bs' & Hbs & [= <-]).
    simpl. f_equal; [|by eapply IH].
    unfold component_binding in Hb. simpl in Hb.
    destruct (tokens !! n) as [[token quoted]|].
    + apply bind_eq_Returns in Hb as (? & _ & [= <- _]). reflexivity.
    + by injection Hb as <- _.
Qed.

Lemma component_bindings_lookup components tokens bs n comp :
  component_bindings components tokens = Returns bs →
  components !! n = Some comp →
  match tokens !! n with
  | Some (token, quoted) =>
      ∃ v, parse_value token comp quoted = Returns v
           ∧ bs !! n = Some (field_name comp, v)
  | None => bs !! n = Some (field_name comp, VNone)
  end.
Proof.
  unfold component_bindings. intros H Hn.
  apply for_each_Returns in H.
  assert (Hen : enumerate_from 0 components !! n = Some (n, comp))
    by (rewrite enumerate_from_lookup, Hn; reflexivity).
  destruct (Forall2_lookup_l _ _ _ _ _ H Hen) as (b & Hb & Hf).
  unfold component_binding in Hf. simpl in Hf.
  destruct (tokens !! n) as [[token quoted]|].
  - apply bind_eq_Returns in Hf as (v & Hv & [= <-]). eauto.
  - by injection Hf as <-.
Qed.

Lemma component_bindings_leaves components tokens :
  Forall (λ c, is_SimpleField c = true) components →
  ∃ bs, component_bindings components tokens = Returns bs.
Proof.
  unfold component_bindings. generalize 0.
  induction components as [|comp rest IH]; intros n Hall; [by eexists|].
  apply Forall_cons in Hall as [Hc Hall].
  rewrite enumerate_from_cons. simpl.
  destruct (IH (S n) Hall) as [bs Hbs]. rewrite Hbs.
  unfold component_binding. simpl.
  destruct comp; try discriminate.
  destruct (tokens !! n) as [[token quoted]|]; simpl; eauto.
Qed.

(** C4. Decoding an unquoted value against a struct with at least one
    declared component, when the split on the component delimiter yields no
    more tokens than components: the result is the dict left by binding, in
    declaration order, every declared component name -- component [n] to
    the decoding of token [n] when there is one, to [VNone] otherwise.  Every
    declared name is a key of the result; when the names are pairwise
    distinct the entries are exactly these bindings, in declaration order;
    a struct of leaves always decodes.  For [geo^(lat^lon)] the cell
    [34.05] gives [{lat: "34.05", lon: None}]. *)
Theorem struct_decoding :
  (∀ name component_delimiter components raw tokens,
     components ≠ [] →
     quote_aware_split raw component_delimiter = Returns tokens →
     length tokens ≤ length components →
     parse_value raw (StructField name component_delimiter components) false
     = (bs ← component_bindings components tokens;
        Returns (VDict (dict_of [] bs)))
     ∧ (Forall (λ c, is_SimpleField c = true) components →
        ∃ bs, component_bindings components tokens = Returns bs)
     ∧ ∀ bs, component_bindings components tokens = Returns bs →
         bs.*1 = field_name <$> components
         ∧ (∀ n comp, components !! n = Some comp →
              match tokens !! n with
              | Some (token, quoted) =>
                  ∃ v, parse_value token comp quoted = Returns v
                       ∧ bs !! n = Some (field_name comp, v)
              | None => bs !! n = Some (field_name comp, VNone)
              end)
         ∧ (∀ comp, comp ∈ components →
              field_name comp ∈ dict_keys (dict_of [] bs))
         ∧ (NoDup (field_name <$> components) → dict_of [] bs = bs))
  ∧ (∃ schema,
       parse_field (lit "geo^(lat^lon)") = Returns schema
       ∧ parse_value (lit "34.05") schema false
         = Returns (VDict [(lit "lat", VStr (lit "34.05")); (lit "lon", VNone)])
       ∧ parse_value (lit "34.05^-118.24") schema false
         = Returns (VDict [(lit "lat", VStr (lit "34.05"));
                           (lit "lon", VStr (lit "-118.24"))])).
Proof.
  split.
  - intros name d components raw tokens Hne Hsplit Hlen.
    split; [|split].
    + rewrite (parse_value_struct _ _ _ _ _ Hne Hsplit).
      rewrite bool_decide_eq_false_2 by lia. reflexivity.
    + apply component_bindings_leaves.
    + intros bs Hbs.
      pose proof (component_bindings_names _ _ _ Hbs) as Hnames.
      split; [exact Hnames|].
      split; [intros n comp; by apply component_bindings_lookup|].
      split.
      * intros comp Hin. apply dict_of_keys_elem. right.
        rewrite Hnames. by apply list_elem_of_fmap_2.
      * intros Hnd. rewrite dict_of_distinct; [reflexivity|].
        simpl. by rewrite Hnames.
  - eexists. split; [vm_compute; reflexivity|].
    split; vm_compute; reflexivity.
Qed.

Lemma struct_decoding_witness :
  parse_value (lit "34.05")
    (StructField (lit "geo") (lit "^")
       [SimpleField (lit "lat"); SimpleField (lit "lon")]) false
  = (bs ← component_bindings
            [SimpleField (lit "lat"); SimpleField (lit "lon")]
            [(lit "34.05", false)];
     Returns (VDict (dict_of [] bs))).
Proof.
  apply (proj1 struct_decoding (lit "geo") (lit "^")
           [SimpleField (lit "lat"); SimpleField (lit "lon")]
           (lit "34.05") [(lit "34.05", false)]).
  - discriminate.
  - vm_compute. reflexivity.
  - simpl. lia.
Defined.




(** ** Where a loop raises *)

Lemma for_each_Raises {A B} (f : A → outcome B) (l : list A) (e : Error) :
  for_each f l = Raises e ↔
  ∃ n x, l !! n = Some x ∧ f x = Raises e
         ∧ ∀ m y, m < n → l !! m = Some y → ∃ b, f y = Returns b.
Proof.
  induction l as [|x l IH]; simpl.
  - split; [discriminate|]. intros (n & y & Hn & _). by rewrite lookup_nil in Hn.
  - split.
    + destruct (f x) as [b| |] eqn:Hx; simpl; try discriminate.
      * destruct (for_each f l) as [bs| |] eqn:Hl; simpl; try discriminate.
        intros [= ->]. destruct (proj1 IH eq_refl) as (n & y & Hn & Hy & Hbefore).
        exists (S n), y. split; [exact Hn|]. split; [exact Hy|].
        intros [|m] z Hm Hz; simpl in Hz.
        -- injection Hz as <-. eauto.
        -- apply (Hbefore m z); [lia | exact Hz].
      * intros [= ->]. exists 0, x. split; [reflexivity|]. split; [exact Hx|].
        intros m y Hm. lia.
    + intros (n & y & Hn & Hy & Hbefore). destruct n as [|n]; simpl in Hn.
      * injection Hn as ->. rewrite Hy. reflexivity.
      * destruct (Hbefore 0 x) as [b Hb]; [lia | reflexivity |].
        rewrite Hb. simpl.
        assert (Hl : for_each f l = Raises e).
        { apply IH. exists n, y. split; [exact Hn|]. split; [exact Hy|].
          intros m z Hm Hz. apply (Hbefore (S m) z); [lia | exact Hz]. }
        rewrite Hl. reflexivity.
Qed.

Lemma scan_loop_not_Raises fuel s step st e :
  scan_loop fuel s step st ≠ Raises e.
Proof.
  revert st. induction fuel as [|fuel IH]; intros st; simpl;
    destruct (s !! i st); try discriminate. apply IH.
Qed.

Lemma quote_aware_split_not_Raises s delimiter e :
  quote_aware_split s delimiter ≠ Raises e.
Proof.
  unfold quote_aware_split.
  destruct (scan_loop _ _ _ _) as [st| |] eqn:H; simpl; try discriminate.
  by apply scan_loop_not_Raises in H.
Qed.

(** ** Quoting *)

Lemma parse_value_quoted_nonleaf raw schema :
  is_SimpleField schema = false →
  parse_value raw schema true = Raises InvalidQuotingError.
Proof. destruct schema; [discriminate | reflexivity | reflexivity]. Qed.

Lemma quoted_nonleaf_raises raw schema was_quoted :
  quoted_nonleaf raw schema was_quoted →
  parse_value raw schema was_quoted = Raises InvalidQuotingError.
Proof.
  induction 1 as
    [raw schema Hleaf
    |raw name delimiter element tokens n token quoted Hraw Hsplit Hn Hbefore _ IH
    |raw name cd components tokens n comp token quoted
       Hne Hsplit Hlen Hcomp Hn Hbefore _ IH].
  - by apply parse_value_quoted_nonleaf.
  - rewrite parse_value_array. unfold decode_array.
    rewrite bool_decide_eq_false_2 by exact Hraw. rewrite Hsplit. simpl.
    assert (Hloop : for_each (λ '(token, quoted), parse_value token element quoted)
                      tokens = Raises InvalidQuotingError).
    { apply for_each_Raises. exists n, (token, quoted).
      split; [exact Hn|]. split; [exact IH|].
      intros m [token' quoted'] Hm Hy. by eapply Hbefore. }
    rewrite Hloop. reflexivity.
  - rewrite (parse_value_struct _ _ _ _ _ Hne Hsplit).
    rewrite bool_decide_eq_false_2 by lia.
    assert (Hloop : component_bindings components tokens
                    = Raises InvalidQuotingError).
    { apply for_each_Raises. exists n, (n, comp).
      split; [by rewrite enumerate_from_lookup, Hcomp|].
      split.
      - rewrite (component_binding_token _ _ _ _ _ Hn), IH. reflexivity.
      - intros m [m' comp'] Hm Hy.
        rewrite enumerate_from_lookup in Hy.
        destruct (components !! m) as [c|] eqn:Hc; [|discriminate].
        injection Hy as <- <-. simpl.
        destruct (tokens !! m) as [[token' quoted']|] eqn:Ht.
        + rewrite (component_binding_token _ _ _ _ _ Ht).
          destruct (Hbefore m c token' quoted' Hm Hc Ht) as [v ->]. by eexists.
        + rewrite (component_binding_missing _ _ _ Ht). by eexists. }
    rewrite Hloop. reflexivity.
Qed.

Lemma raises_quoted_nonleaf schema :
  ∀ raw was_quoted,
    parse_value raw schema was_quoted = Raises InvalidQuotingError →
    quoted_nonleaf raw schema was_quoted.
Proof.
  induction schema as [name | name delimiter element IH
                      | name cd components IH] using Field_nested_ind;
    intros raw was_quoted Hraise.
  - discriminate.
  - destruct was_quoted; [by apply quoted_cell|].
    rewrite parse_value_array in Hraise. unfold decode_array in Hraise.
    destruct (bool_decide (raw = [])) eqn:Hraw; [discriminate|].
    apply bool_decide_eq_false in Hraw.
    destruct (quote_aware_split raw delimiter) as [tokens|e|] eqn:Hsplit;
      simpl in Hraise; [| by apply quote_aware_split_not_Raises in Hsplit
                        | discriminate].
    destruct (for_each _ tokens) as [vs|e|] eqn:Hloop; simpl in Hraise;
      try discriminate.
    injection Hraise as ->.
    apply for_each_Raises in Hloop
      as (n & [token quoted] & Hn & Htoken & Hbefore).
    eapply quoted_in_array; eauto.
    intros m token' quoted' Hm Hy. apply (Hbefore m (token', quoted') Hm Hy).
  - destruct was_quoted; [by apply quoted_cell|].
    destruct (decide (components = [])) as [->|Hne]; [discriminate|].
    destruct (quote_aware_split raw cd) as [tokens|e|] eqn:Hsplit.
    2: { simpl in Hraise. rewrite bool_decide_eq_false_2 in Hraise by exact Hne.
         rewrite Hsplit in Hraise. simpl in Hraise.
         by apply quote_aware_split_not_Raises in Hsplit. }
    2: { simpl in Hraise. rewrite bool_decide_eq_false_2 in Hraise by exact Hne.
         rewrite Hsplit in Hraise. discriminate. }
    rewrite (parse_value_struct _ _ _ _ _ Hne Hsplit) in Hraise.
    destruct (bool_decide (length components < length tokens)) eqn:Hlen;
      [discriminate|].
    apply bool_decide_eq_false in Hlen.
    destruct (component_bindings components tokens) as [bs|e|] eqn:Hloop;
      simpl in Hraise; try discriminate.
    injection Hraise as ->.
    apply for_each_Raises in Hloop as (n & [n' comp] & Hn & Hcomp & Hbefore).
    rewrite enumerate_from_lookup in Hn.
    destruct (components !! n) as [c|] eqn:Hc; [|discriminate].
    injection Hn as <- <-. simpl in *.
    destruct (tokens !! n) as [[token quoted]|] eqn:Ht.
    2: { by rewrite (component_binding_missing _ _ _ Ht) in Hcomp. }
    rewrite (component_binding_token _ _ _ _ _ Ht) in Hcomp.
    destruct (parse_value token c quoted) as [v|e|] eqn:Hv; simpl in Hcomp;
      try discriminate.
    injection Hcomp as ->.
    eapply (quoted_in_struct raw name cd components tokens n c token quoted);
      eauto; [lia | |].
    + intros m comp' token' quoted' Hm Hc' Ht'.
      destruct (Hbefore m (m, comp')) as [b Hb]; [exact Hm | |].
      * by rewrite enumerate_from_lookup, Hc'.
      * rewrite (component_binding_token _ _ _ _ _ Ht') in Hb.
        apply bind_eq_Returns in Hb as (v & Hv' & _). eauto.
    + rewrite Forall_lookup in IH. by apply (IH n c Hc).
Qed.

(** C2. Decoding raises [InvalidQuotingError] exactly when a quoted value
    meets a schema that is not a [SimpleField]: a quoted cell whose schema
    is an array or a struct is rejected, so is a quoted token of an array or
    struct schema at any depth, and no other decoding raises this error; a
    quoted value against a [SimpleField] is returned as it is. *)
Theorem invalid_quoting :
  (∀ raw schema was_quoted,
     parse_value raw schema was_quoted = Raises InvalidQuotingError
     ↔ quoted_nonleaf raw schema was_quoted)
  ∧ (∀ raw schema,
       is_SimpleField schema = false →
       parse_value raw schema true = Raises InvalidQuotingError)
  ∧ (∀ raw name, parse_value raw (SimpleField name) true = Returns (VStr raw))
  ∧ parse_value (quoted (lit "123 Main^Springfield") ++ lit "~456 Oak^New York")
      (ArrayField (lit "address") (lit "~")
         (StructField (lit "address") (lit "^")
            [SimpleField (lit "street"); SimpleField (lit "city")])) false
    = Raises InvalidQuotingError.
Proof.
  split.
  { intros raw schema was_quoted. split.
    - apply raises_quoted_nonleaf.
    - apply quoted_nonleaf_raises. }
  split; [exact parse_value_quoted_nonleaf|].
  split; [reflexivity|].
  vm_compute. reflexivity.
Qed.

Lemma invalid_quoting_witness :
  parse_value (lit "a|b") (ArrayField (lit "notes") (lit "|")
                             (SimpleField (lit "notes"))) true
  = Raises InvalidQuotingError.
Proof.
  apply (proj1 (proj2 invalid_quoting)). reflexivity.
Defined.

(** ** Records and duplicate names *)

Lemma record_loop_bindings (schemas : list Field) (i : nat)
    (row : list (str * bool)) (record : list (str * Value)) :
  record_loop schemas i row record
  = (bs ← for_each (column_binding row) (enumerate_from i schemas);
     Returns (dict_of record bs)).
Proof.
  revert i record.
  induction schemas as [|schema rest IH]; intros i record; [reflexivity|].
  rewrite enumerate_from_cons. cbn [record_loop for_each].
  change (column_binding row (i, schema))
    with (v ← parse_value (cell row i).1 schema (cell row i).2;
          Returns (field_name schema, v)).
  destruct (cell row i) as [raw_val was_quoted]. cbn [fst snd].
  destruct (parse_value raw_val schema was_quoted) as [v| |]; simpl;
    try reflexivity.
  rewrite IH. destruct (for_each _ _); reflexivity.
Qed.

(** A loop that binds one name per item: the dict has every name once, and
    the value under a name is the one bound by the last item carrying it. *)
Lemma bindings_last_wins {A} (f : A → outcome (str * Value)) (key : A → str)
    (l : list A) (bs : list (str * Value)) :
  (∀ x b, f x = Returns b → b.1 = key x) →
  for_each f l = Returns bs →
  NoDup (dict_keys (dict_of [] bs))
  ∧ (∀ k, k ∈ dict_keys (dict_of [] bs) ↔ k ∈ key <$> l)
  ∧ ∀ n x, l !! n = Some x →
      ∃ b, f x = Returns b
           ∧ ((∀ m y, n < m → l !! m = Some y → key y ≠ key x) →
              dict_get (dict_of [] bs) (key x) = Some b.2).
Proof.
  intros Hkey Hloop. apply for_each_Returns in Hloop.
  assert (Hnames : bs.*1 = key <$> l).
  { induction Hloop as [|x b l bs Hx _ IH]; simpl; [reflexivity|].
    f_equal; [by apply Hkey | exact IH]. }
  split; [apply dict_of_NoDup, NoDup_nil_2|].
  split.
  { intros k. rewrite dict_of_keys_elem, Hnames. unfold dict_keys. simpl.
    rewrite elem_of_nil. tauto. }
  intros n x Hn.
  destruct (Forall2_lookup_l _ _ _ _ _ Hloop Hn) as (b & Hb & Hfx).
  exists b. split; [exact Hfx|]. intros Hlast.
  rewrite <- (take_drop_middle bs n b Hb).
  assert (Hbk : b = (key x, b.2)).
  { rewrite <- (Hkey x b Hfx). by destruct b. }
  rewrite Hbk at 1. apply dict_of_get_last.
  intros Hin. apply list_elem_of_fmap in Hin as ([k' v'] & Hk' & Hin).
  simpl in Hk'. subst k'.
  apply list_elem_of_lookup in Hin as [j Hj].
  rewrite lookup_drop in Hj.
  destruct (Forall2_lookup_r _ _ _ _ _ Hloop Hj) as (y & Hy & Hfy).
  apply (Hlast (S n + j) y); [lia | exact Hy |].
  by rewrite <- (Hkey y _ Hfy).
Qed.

Lemma enumerate_from_names (schemas : list Field) (i : nat) :
  (λ ic : nat * Field, field_name ic.2) <$> enumerate_from i schemas
  = field_name <$> schemas.
Proof.
  revert i. induction schemas as [|s rest IH]; intros i; [reflexivity|].
  rewrite enumerate_from_cons. simpl. by rewrite IH.
Qed.


Lemma parse_struct_last_wins name cd components raw result :
  parse_value raw (StructField name cd components) false = Returns result →
  ∃ d, result = VDict d
    ∧ NoDup (dict_keys d)
    ∧ (∀ k, k ∈ dict_keys d ↔ k ∈ field_name <$> components)
    ∧ ∀ n comp, components !! n = Some comp →
        ∃ tokens b,
          quote_aware_split raw cd = Returns tokens
          ∧ component_binding tokens (n, comp) = Returns b
          ∧ ((∀ m comp', n < m → components !! m = Some comp' →
                field_name comp' ≠ field_name comp) →
             dict_get d (field_name comp) = Some b.2).
Proof.
  intros H.
  destruct (decide (components = [])) as [->|Hne].
  { injection H as <-. exists []. split; [reflexivity|].
    split; [apply NoDup_nil_2|]. split; [reflexivity|].
    intros n comp Hn. by rewrite lookup_nil in Hn. }
  destruct (quote_aware_split raw cd) as [tokens|e|] eqn:Hsplit.
  2,3: simpl in H; rewrite bool_decide_eq_false_2 in H by exact Hne;
       rewrite Hsplit in H; discriminate.
  rewrite (parse_value_struct _ _ _ _ _ Hne Hsplit) in H.
  destruct (bool_decide (length components < length tokens)); [discriminate|].
  apply bind_eq_Returns in H as (bs & Hbs & [= <-]).
  destruct (bindings_last_wins (component_binding tokens)
              (λ ic, field_name ic.2) (enumerate_from 0 components) bs)
    as (Hnd & Hkeys & Hlast).
  { intros [n comp] b Hb. unfold component_binding in Hb. simpl in Hb.
    destruct (tokens !! n) as [[token quoted]|].
    - apply bind_eq_Returns in Hb as (v & _ & [= <-]). reflexivity.
    - by injection Hb as <-. }
  { exact Hbs. }
  exists (dict_of [] bs). split; [reflexivity|]. split; [exact Hnd|].
  split; [intros k; by rewrite Hkeys, enumerate_from_names|].
  intros n comp Hn.
  destruct (Hlast n (n, comp)) as (b & Hb & Hget).
  { by rewrite enumerate_from_lookup, Hn. }
  exists tokens, b. split; [reflexivity|]. split; [exact Hb|].
  intros Hlater. apply Hget.
  intros m [m' comp'] Hm Hy. rewrite enumerate_from_lookup in Hy.
  destruct (components !! m) as [c|] eqn:Hc; [|discriminate].
  injection Hy as <- <-. simpl. by apply (Hlater m).
Qed.



(** ** Rows and the field separator *)

Lemma scan_loop_ext (s : str) (step1 step2 : scan → ascii → scan) :
  (∀ st c, s !! i st = Some c → step1 st c = step2 st c) →
  ∀ fuel st, scan_loop fuel s step1 st = scan_loop fuel s step2 st.
Proof.
  intros Hstep fuel. induction fuel as [|fuel IH]; intros st; simpl;
    [reflexivity|].
  destruct (s !! i st) as [c|] eqn:Hc; [|reflexivity].
  rewrite (Hstep st c Hc). apply IH.
Qed.

Lemma slice_one (s : str) (n : nat) (c : ascii) :
  s !! n = Some c → slice s n (n + 1) = [c].
Proof.
  intros Hn. unfold slice. replace (n + 1 - n) with 1 by lia.
  rewrite (drop_S s c n Hn). reflexivity.
Qed.

Lemma parse_csv_row_step_single (line : str) (sep : ascii) st c :
  line !! i st = Some c →
  parse_csv_row_step line [sep] st c = quote_aware_split_step line [sep] st c.
Proof.
  destruct st as [vs fs cur tq inq n]. simpl. intros Hc.
  unfold parse_csv_row_step, quote_aware_split_step.
  rewrite (slice_one line n c Hc). reflexivity.
Qed.

Lemma parse_csv_row_single (line : str) (sep : ascii) :
  _parse_csv_row line [sep] = quote_aware_split line [sep].
Proof.
  unfold _parse_csv_row, quote_aware_split.
  rewrite (scan_loop_ext line _ (quote_aware_split_step line [sep]));
    [reflexivity|].
  intros st c. apply parse_csv_row_step_single.
Qed.

Lemma parse_csv_row_step_advances line field_sep st c :
  i st < i (parse_csv_row_step line field_sep st c).
Proof.
  destruct st as [vs fs cur tq inq n]. unfold parse_csv_row_step.
  repeat case_match; simpl; lia.
Qed.

Lemma parse_csv_row_step_no_match line field_sep st c :
  length field_sep ≠ 1 →
  values st = [] ∧ quoted_flags st = [] →
  values (parse_csv_row_step line field_sep st c) = []
  ∧ quoted_flags (parse_csv_row_step line field_sep st c) = [].
Proof.
  intros Hlen. destruct st as [vs fs cur tq inq n]. simpl. intros [-> ->].
  unfold parse_csv_row_step.
  rewrite (bool_decide_eq_false_2 ([c] = field_sep))
    by (intros <-; simpl in Hlen; lia).
  repeat case_match; simpl; auto.
Qed.

Lemma parse_csv_row_never_splits (line field_sep : str) :
  length field_sep ≠ 1 →
  ∃ cell quoted, _parse_csv_row line field_sep = Returns [(cell, quoted)].
Proof.
  intros Hlen. unfold _parse_csv_row.
  destruct (scan_loop_returns line (parse_csv_row_step line field_sep)
              (λ st c _, parse_csv_row_step_advances line field_sep st c)
              (length line) scan_init) as [st Hst]; [simpl; lia|].
  rewrite Hst. simpl.
  destruct (scan_loop_invariant
              (λ st, values st = [] ∧ quoted_flags st = []) line
              (parse_csv_row_step line field_sep)
              (λ st c _, parse_csv_row_step_no_match line field_sep st c Hlen)
              (length line) scan_init st) as [Hv Hf]; [by split | exact Hst |].
  unfold scan_result. rewrite Hv, Hf. simpl. eauto.
Qed.

(** ** The header parser: splitting a struct body *)

Lemma bracket_loop_invariant (P : bscan → Prop) (s delimiter : str) :
  (∀ st c, s !! b_i st = Some c → P st →
     P (bracket_aware_split_step s delimiter st c)) →
  ∀ fuel st st', P st →
    bracket_aware_split_loop fuel s delimiter st = Returns st' → P st'.
Proof.
  intros Hstep fuel. induction fuel as [|fuel IH]; intros st st' HP; simpl.
  - destruct (s !! b_i st); [discriminate|]. by intros [= <-].
  - destruct (s !! b_i st) as [c|] eqn:Hc; [|by intros [= <-]].
    apply IH. by apply Hstep.
Qed.

Lemma bracket_step_advances s delimiter st c :
  delimiter ≠ [] → b_i st < b_i (bracket_aware_split_step s delimiter st c).
Proof.
  intros Hd. assert (0 < length delimiter) by (destruct delimiter; simpl; [done|lia]).
  destruct st as [parts cur depth n]. unfold bracket_aware_split_step.
  repeat case_match; simpl; lia.
Qed.

Lemma bracket_loop_returns (s delimiter : str) :
  delimiter ≠ [] →
  ∀ fuel st, length s ≤ fuel + b_i st →
  ∃ st', bracket_aware_split_loop fuel s delimiter st = Returns st'.
Proof.
  intros Hd fuel. induction fuel as [|fuel IH]; intros st Hlen; simpl.
  - rewrite (lookup_ge_None_2 s (b_i st)) by lia. eauto.
  - destruct (s !! b_i st) as [c|] eqn:Hc; [|eauto].
    apply IH. pose proof (bracket_step_advances s delimiter st c Hd). lia.
Qed.

Lemma bracket_aware_split_returns (s delimiter : str) :
  delimiter ≠ [] → ∃ raws, _bracket_aware_split s delimiter = Returns raws.
Proof.
  intros Hd. unfold _bracket_aware_split.
  destruct (bracket_loop_returns s delimiter Hd (length s) (BScan [] [] 0%Z 0))
    as [st Hst]; [simpl; lia|].
  rewrite Hst. simpl. eauto.
Qed.

Lemma bracket_loop_not_Raises fuel s delimiter st e :
  bracket_aware_split_loop fuel s delimiter st ≠ Raises e.
Proof.
  revert st. induction fuel as [|fuel IH]; intros st; simpl;
    destruct (s !! b_i st); try discriminate. apply IH.
Qed.

Lemma bracket_aware_split_not_Raises s delimiter e :
  _bracket_aware_split s delimiter ≠ Raises e.
Proof.
  unfold _bracket_aware_split.
  destruct (bracket_aware_split_loop _ _ _ _) as [st| |] eqn:H; simpl;
    try discriminate.
  by apply bracket_loop_not_Raises in H.
Qed.

Lemma slice_length_le (s : str) (a b : nat) : length (slice s a b) ≤ length s - a.
Proof. unfold slice. rewrite length_take, length_drop. lia. Qed.

Lemma slice_eq_length (s d : str) (n : nat) :
  n < length s → slice s n (n + length d) = d → n + length d ≤ length s.
Proof.
  intros Hn H. pose proof (slice_length_le s n (n + length d)) as Hle.
  rewrite H in Hle. lia.
Qed.

Lemma bracket_aware_split_lengths (s delimiter : str) (raws : list str) :
  _bracket_aware_split s delimiter = Returns raws →
  Forall (λ raw, length raw ≤ length s) raws.
Proof.
  unfold _bracket_aware_split. intros H.
  apply bind_eq_Returns in H as (st & Hst & [= <-]).
  pose (P := λ st : bscan,
          b_i st ≤ length s ∧ length (b_current st) ≤ b_i st
          ∧ Forall (λ p : str, length p ≤ b_i st) (b_parts st)).
  assert (HP : P st).
  { apply (bracket_loop_invariant P s delimiter) with (length s) (BScan [] [] 0%Z 0);
      [| split; [simpl; lia | split; [simpl; lia | apply Forall_nil_2]] | exact Hst].
    clear. intros [parts cur depth n] c Hc (Hn & Hcur & Hparts).
    simpl in *. apply lookup_lt_Some in Hc.
    assert (Hmono : ∀ k, n ≤ k → Forall (λ p : str, length p ≤ k) parts).
    { intros k Hk. eapply Forall_impl; [exact Hparts|]. simpl. intros; lia. }
    unfold bracket_aware_split_step, P.
    repeat case_match; simpl; rewrite ?length_app; simpl;
      try (split; [lia | split; [lia | apply Hmono; lia]]).
    match goal with
    | H : _ && _ = true |- _ => apply andb_true_iff in H as [_ Hs]
    end.
    apply bool_decide_eq_true in Hs.
    pose proof (slice_eq_length s delimiter n Hc Hs).
    split; [lia|]. split; [lia|].
    apply Forall_app. split; [apply Hmono; lia|].
    apply Forall_singleton. lia. }
  destruct HP as (Hn & Hcur & Hparts).
  apply Forall_app. split.
  - eapply Forall_impl; [exact Hparts|]. simpl. intros; lia.
  - apply Forall_singleton. lia.
Qed.

(** ** The header parser: the head of a field *)

Lemma struct_opener_spec s pos c pos' :
  struct_opener s pos = Some (c, pos') →
  s !! pos' = Some (ch "(") ∧ length c = 1 ∧ pos ≤ pos'.
Proof.
  unfold struct_opener.
  destruct (bool_decide (s !! pos = Some (ch "("))) eqn:H1.
  - intros [= <- <-]. apply bool_decide_eq_true in H1. auto.
  - destruct (bool_decide (s !! (pos + 1) = Some (ch "("))) eqn:H2;
      [|discriminate].
    intros [= <- <-]. apply bool_decide_eq_true in H2.
    split; [exact H2|]. split; [|lia].
    destruct (s !! pos) as [x|] eqn:Hx.
    + by rewrite (slice_one s pos x Hx).
    + apply lookup_ge_None in Hx. apply lookup_lt_Some in H2. lia.
Qed.

Lemma parse_struct_part_body s pos array_delim used sp :
  parse_struct_part s pos array_delim used = Returns (Some sp) →
  length (sp_body sp) < length s ∧ length (sp_comp_delim sp) = 1.
Proof.
  unfold parse_struct_part.
  destruct (struct_opener s pos) as [[c pos']|] eqn:Hop; [|discriminate].
  apply struct_opener_spec in Hop as (Hparen & Hc & _).
  apply lookup_lt_Some in Hparen.
  destruct (paren_loop (drop (pos' + 1) s) (pos' + 1) 1) as [p dc].
  repeat case_match; try discriminate.
  all: intros [= <-]; simpl; (split; [|exact Hc]).
  all: pose proof (slice_length_le s (pos' + 1) (p - 1)); lia.
Qed.

Lemma parse_head_body s pos depth used name array_delim pos' sp :
  parse_head s pos depth used = Returns (name, array_delim, pos', Some sp) →
  length (sp_body sp) < length s ∧ length (sp_comp_delim sp) = 1.
Proof.
  unfold parse_head.
  destruct (NAME_RE_match s pos) as [m_end|]; [|discriminate].
  intros H. apply bind_eq_Returns in H as ([ad p] & _ & H).
  apply bind_eq_Returns in H as (struct & Hstruct & [= _ _ _ ->]).
  by apply parse_struct_part_body in Hstruct.
Qed.

(** ** The header parser: fuel *)

Lemma parse_component_ext (parse1 parse2 : str → outcome (Field * nat))
    used raw :
  parse1 raw = parse2 raw →
  parse_component parse1 used raw = parse_component parse2 used raw.
Proof. unfold parse_component. intros ->. reflexivity. Qed.

Lemma parse_field_fuel fuel1 :
  ∀ fuel2 s pos depth used,
    length s < fuel1 → length s < fuel2 →
    _parse_field fuel1 s pos depth used = _parse_field fuel2 s pos depth used.
Proof.
  induction fuel1 as [|fuel1 IH]; intros fuel2 s pos depth used H1 H2; [lia|].
  destruct fuel2 as [|fuel2]; [lia|]. simpl.
  destruct (parse_head s pos depth used)
    as [[[[name array_delim] pos'] [sp|]]| |] eqn:Hhead; simpl; try reflexivity.
  apply parse_head_body in Hhead as [Hbody _].
  destruct sp as [comp_delim body pos'' inner_used]. simpl in *.
  unfold _parse_component_list.
  destruct (_bracket_aware_split body comp_delim) as [raws| |] eqn:Hsplit;
    simpl; try reflexivity.
  apply bracket_aware_split_lengths in Hsplit.
  rewrite (for_each_ext _
             (parse_component
                (λ raw, _parse_field fuel2 raw 0 (depth + 1) inner_used)
                inner_used) raws); [reflexivity|].
  intros raw Hraw. apply parse_component_ext.
  rewrite Forall_forall in Hsplit. specialize (Hsplit raw Hraw). simpl in Hsplit.
  apply IH; lia.
Qed.

Lemma parse_field_parse_at fuel s depth used :
  length s < fuel → _parse_field fuel s 0 depth used = parse_at depth used s.
Proof. intros H. unfold parse_at. apply parse_field_fuel; lia. Qed.

(** [_parse_field] on a whole component, without fuel: the head, then the
    loop over the components of the body. *)
Lemma parse_at_unfold depth used s :
  parse_at depth used s
  = ('(name, array_delim, pos, struct) ← parse_head s 0 depth used;
     match struct with
     | None =>
         match array_delim with
         | Some d => Returns (ArrayField name d (SimpleField name), pos)
         | None => Returns (SimpleField name, pos)
         end
     | Some sp =>
         components ←
           (raws ← _bracket_aware_split (sp_body sp) (sp_comp_delim sp);
            for_each (component_outcome (depth + 1) (sp_inner_used sp)) raws);
         let struct_type := StructField name (sp_comp_delim sp) components in
         match array_delim with
         | Some d => Returns (ArrayField name d struct_type, sp_end sp)
         | None => Returns (struct_type, sp_end sp)
         end
     end).
Proof.
  unfold parse_at. simpl.
  destruct (parse_head s 0 depth used)
    as [[[[name array_delim] pos'] [sp|]]| |] eqn:Hhead; simpl; try reflexivity.
  apply parse_head_body in Hhead as [Hbody _].
  destruct sp as [comp_delim body pos'' inner_used]. simpl in *.
  unfold _parse_component_list.
  destruct (_bracket_aware_split body comp_delim) as [raws| |] eqn:Hsplit;
    simpl; try reflexivity.
  apply bracket_aware_split_lengths in Hsplit.
  rewrite (for_each_ext _ (component_outcome (depth + 1) inner_used) raws);
    [reflexivity|].
  intros raw Hraw. apply parse_component_ext.
  rewrite Forall_forall in Hsplit. specialize (Hsplit raw Hraw). simpl in Hsplit.
  apply parse_field_parse_at. lia.
Qed.

Lemma parse_field_parse_at_top header :
  parse_field header
  = ('(field_obj, consumed) ← parse_at 0 ∅ header;
     if bool_decide (consumed ≠ length header) then Raises HeaderParseError
     else Returns field_obj).
Proof. reflexivity. Qed.

Lemma for_each_not_NoReturn {A B} (f : A → outcome B) (l : list A) :
  (∀ x, x ∈ l → f x ≠ NoReturn) → for_each f l ≠ NoReturn.
Proof.
  induction l as [|x l IH]; intros Hf; simpl; [discriminate|].
  destruct (f x) as [y| |] eqn:Hx; simpl; [|discriminate|].
  - destruct (for_each f l) as [ys| |] eqn:Hl; simpl; try discriminate.
    exfalso. apply IH; [|reflexivity].
    intros z Hz. apply Hf. by apply list_elem_of_further.
  - exfalso. apply (Hf x); [apply list_elem_of_here | exact Hx].
Qed.

Lemma read_array_brackets_not_NoReturn s pos depth :
  read_array_brackets s pos depth ≠ NoReturn.
Proof.
  unfold read_array_brackets. repeat (case_match; simpl; try discriminate).
Qed.

Lemma parse_array_part_not_NoReturn s pos depth used :
  parse_array_part s pos depth used ≠ NoReturn.
Proof.
  unfold parse_array_part.
  destruct (read_array_brackets s pos depth) as [[[d|] p]| |] eqn:H; simpl;
    try discriminate.
  - case_match; discriminate.
  - by apply read_array_brackets_not_NoReturn in H.
Qed.

Lemma parse_struct_part_not_NoReturn s pos array_delim used :
  parse_struct_part s pos array_delim used ≠ NoReturn.
Proof.
  unfold parse_struct_part. repeat (case_match; simpl; try discriminate).
Qed.

Lemma parse_head_not_NoReturn s pos depth used :
  parse_head s pos depth used ≠ NoReturn.
Proof.
  unfold parse_head. destruct (NAME_RE_match s pos); [|discriminate].
  destruct (parse_array_part s _ depth used) as [[ad p]| |] eqn:Ha; simpl;
    [|discriminate|by apply parse_array_part_not_NoReturn in Ha].
  destruct (parse_struct_part s p ad used) as [st| |] eqn:Hs; simpl;
    [discriminate|discriminate|by apply parse_struct_part_not_NoReturn in Hs].
Qed.

(** The recursion always has fuel left: a header is parsed or rejected. *)
Lemma parse_at_terminates_below (n : nat) :
  ∀ s depth used, length s < n → parse_at depth used s ≠ NoReturn.
Proof.
  induction n as [|n IH]; intros s depth used Hlen; [lia|].
  rewrite parse_at_unfold.
  destruct (parse_head s 0 depth used)
    as [[[[name array_delim] pos'] [sp|]]| |] eqn:Hhead; simpl;
    [| destruct array_delim; discriminate | discriminate
     | by apply parse_head_not_NoReturn in Hhead].
  apply parse_head_body in Hhead as [Hbody Hdelim].
  destruct (bracket_aware_split_returns (sp_body sp) (sp_comp_delim sp))
    as [raws Hsplit]; [by destruct (sp_comp_delim sp)|].
  rewrite Hsplit. simpl.
  pose proof (bracket_aware_split_lengths _ _ _ Hsplit) as Hlens.
  destruct (for_each _ raws) as [cs| |] eqn:Hloop; simpl;
    [destruct array_delim; discriminate | discriminate |].
  exfalso. revert Hloop. apply for_each_not_NoReturn.
  intros raw Hraw. rewrite Forall_forall in Hlens.
  specialize (Hlens raw Hraw). simpl in Hlens.
  unfold component_outcome, parse_component.
  case_match; [discriminate|].
  destruct (parse_at (depth + 1) (sp_inner_used sp) raw) as [[f c]| |] eqn:Hraw';
    simpl; [repeat case_match; discriminate | discriminate |].
  exfalso. revert Hraw'. apply IH. lia.
Qed.

Lemma parse_at_terminates depth used s : parse_at depth used s ≠ NoReturn.
Proof. apply (parse_at_terminates_below (S (length s))). lia. Qed.

Lemma parse_field_terminates header : parse_field header ≠ NoReturn.
Proof.
  rewrite parse_field_parse_at_top.
  destruct (parse_at 0 ∅ header) as [[f c]| |] eqn:H; simpl;
    [case_match; discriminate | discriminate |].
  by apply parse_at_terminates in H.
Qed.

(** ** The header parser: errors reach the caller *)

Lemma component_outcome_nested depth used outer name array_delim pos sp raws
    n raw e :
  startswith outer (lit "(") = false →
  parse_head outer 0 depth used = Returns (name, array_delim, pos, Some sp) →
  _bracket_aware_split (sp_body sp) (sp_comp_delim sp) = Returns raws →
  raws !! n = Some raw →
  (∀ m raw', m < n → raws !! m = Some raw' →
     ∃ f, component_outcome (depth + 1) (sp_inner_used sp) raw' = Returns f) →
  component_outcome (depth + 1) (sp_inner_used sp) raw = Raises e →
  parse_at depth used outer = Raises e
  ∧ component_outcome depth used outer = Raises e.
Proof.
  intros Hparen Hhead Hsplit Hn Hbefore Hraw.
  assert (Hat : parse_at depth used outer = Raises e).
  { rewrite parse_at_unfold, Hhead. simpl. rewrite Hsplit. simpl.
    assert (Hloop : for_each (component_outcome (depth + 1) (sp_inner_used sp))
                      raws = Raises e).
    { apply for_each_Raises. exists n, raw. auto. }
    rewrite Hloop. reflexivity. }
  split; [exact Hat|].
  unfold component_outcome, parse_component. rewrite Hparen, Hat. reflexivity.
Qed.

Lemma visits_raises header raw depth used e :
  visits header raw depth used →
  component_outcome depth used raw = Raises e →
  parse_field header = Raises e.
Proof.
  induction 1 as
    [name array_delim pos sp raws n raw Hhead Hsplit Hn Hbefore
    |outer depth used name array_delim pos sp raws n raw
       _ IH Hparen Hhead Hsplit Hn Hbefore]; intros Hraw.
  - rewrite parse_field_parse_at_top, parse_at_unfold, Hhead. simpl.
    rewrite Hsplit. simpl.
    assert (Hloop : for_each (component_outcome 1 (sp_inner_used sp))
                      raws = Raises e).
    { apply for_each_Raises. exists n, raw. auto. }
    rewrite Hloop. reflexivity.
  - apply IH.
    by destruct (component_outcome_nested depth used outer name array_delim
                   pos sp raws n raw e Hparen Hhead Hsplit Hn Hbefore Hraw).
Qed.

Lemma visits_depth header raw depth used :
  visits header raw depth used → 0 < depth.
Proof. destruct 1; lia. Qed.

(** ** Names *)

Lemma NAME_RE_match_first s m_end :
  NAME_RE_match s 0 = Some m_end →
  ∃ c rest, s = c :: rest ∧ is_field_char c = true ∧ 0 < m_end.
Proof.
  unfold NAME_RE_match. simpl.
  destruct s as [|c rest]; simpl; [discriminate|].
  destruct (is_field_char c) eqn:Hc; [|discriminate].
  intros [= <-]. exists c, rest. split; [reflexivity|]. split; [exact Hc | lia].
Qed.

Lemma NAME_RE_match_not_paren s m_end :
  NAME_RE_match s 0 = Some m_end → startswith s (lit "(") = false.
Proof.
  intros H. apply NAME_RE_match_first in H as (c & rest & -> & Hc & _).
  unfold startswith. simpl. apply bool_decide_eq_false_2.
  intros [= ->]. discriminate.
Qed.

Lemma name_run_app (name rest : str) :
  Forall (λ c, is_field_char c = true) name →
  name_run (name ++ rest) = length name + name_run rest.
Proof.
  induction 1 as [|c name Hc _ IH]; simpl; [reflexivity|].
  rewrite Hc, IH. reflexivity.
Qed.

Lemma NAME_RE_match_app (name rest : str) (c : ascii) :
  name ≠ [] → Forall (λ c, is_field_char c = true) name →
  is_field_char c = false →
  NAME_RE_match (name ++ c :: rest) 0 = Some (length name).
Proof.
  intros Hne Hname Hc. unfold NAME_RE_match. simpl.
  rewrite name_run_app by exact Hname. simpl. rewrite Hc, Nat.add_0_r.
  destruct name; [done | reflexivity].
Qed.

Lemma NAME_RE_match_all (name : str) :
  name ≠ [] → Forall (λ c, is_field_char c = true) name →
  NAME_RE_match name 0 = Some (length name).
Proof.
  intros Hne Hname. unfold NAME_RE_match. simpl.
  rewrite <- (app_nil_r name) at 1. rewrite name_run_app by exact Hname.
  simpl. rewrite Nat.add_0_r. destruct name; [done | reflexivity].
Qed.

(** ** Delimiter conflicts *)

Lemma parse_head_array_conflict s depth used m_end d pos :
  NAME_RE_match s 0 = Some m_end →
  read_array_brackets s m_end depth = Returns (Some d, pos) →
  d ∈ used →
  parse_head s 0 depth used = Raises DelimiterConflictError.
Proof.
  intros Hname Hread Hd. unfold parse_head, parse_array_part.
  rewrite Hname, Hread. simpl.
  rewrite bool_decide_eq_true_2 by exact Hd. reflexivity.
Qed.

Lemma parse_head_component_conflict s depth used m_end array_delim pos c pos' :
  NAME_RE_match s 0 = Some m_end →
  parse_array_part s m_end depth used = Returns (array_delim, pos) →
  struct_opener s pos = Some (c, pos') →
  c ∈ used ∨ array_delim = Some c →
  parse_head s 0 depth used = Raises DelimiterConflictError.
Proof.
  intros Hname Harr Hop Hc. unfold parse_head. rewrite Hname, Harr. simpl.
  unfold parse_struct_part. rewrite Hop.
  apply struct_opener_spec in Hop as (Hparen & _ & _).
  rewrite bool_decide_eq_false_2 by (intros Hne; by apply Hne).
  destruct (bool_decide (c ∈ used)) eqn:Hin; [reflexivity|].
  destruct Hc as [Hc | ->].
  - apply bool_decide_eq_false in Hin. contradiction.
  - rewrite bool_decide_eq_true_2 by reflexivity. reflexivity.
Qed.

(** The delimiters in scope inside a struct body are those in scope
    around the field, its component delimiter and its array delimiter. *)
Lemma parse_head_scope s pos depth used name array_delim pos' sp :
  parse_head s pos depth used = Returns (name, array_delim, pos', Some sp) →
  sp_inner_used sp
  = used ∪ {[sp_comp_delim sp]}
    ∪ match array_delim with Some d => {[d]} | None => ∅ end.
Proof.
  unfold parse_head.
  destruct (NAME_RE_match s pos) as [m_end|]; [|discriminate].
  intros H. apply bind_eq_Returns in H as ([ad p] & _ & H).
  apply bind_eq_Returns in H as (struct & Hstruct & [= _ <- _ ->]).
  unfold parse_struct_part in Hstruct.
  destruct (struct_opener s p) as [[c p']|]; [|discriminate].
  destruct (paren_loop _ _ _) as [p'' dc].
  repeat case_match; try discriminate;
    injection Hstruct as <-; simpl;
    first [reflexivity | by rewrite (right_id_L ∅ (∪))].
Qed.

Lemma parse_at_head_raises depth used s e :
  parse_head s 0 depth used = Raises e → parse_at depth used s = Raises e.
Proof. intros H. rewrite parse_at_unfold, H. reflexivity. Qed.

Lemma component_outcome_raises depth used raw e :
  startswith raw (lit "(") = false →
  parse_at depth used raw = Raises e →
  component_outcome depth used raw = Raises e.
Proof.
  intros Hparen Hat. unfold component_outcome, parse_component.
  rewrite Hparen, Hat. reflexivity.
Qed.

Lemma delimiter_reused_raises used depth raw :
  delimiter_reused used depth raw →
  component_outcome depth used raw = Raises DelimiterConflictError.
Proof.
  intros [Hparen
         |m_end d pos Hname Hread Hd
         |m_end array_delim pos c pos' Hname Harr Hop Hc
         |f consumed d Hparen Hat Hne Hd Hstart].
  - unfold component_outcome, parse_component. rewrite Hparen. reflexivity.
  - apply component_outcome_raises; [by eapply NAME_RE_match_not_paren|].
    apply parse_at_head_raises. by eapply parse_head_array_conflict.
  - apply component_outcome_raises; [by eapply NAME_RE_match_not_paren|].
    apply parse_at_head_raises. by eapply parse_head_component_conflict.
  - unfold component_outcome, parse_component. rewrite Hparen, Hat. simpl.
    rewrite bool_decide_eq_true_2 by exact Hne.
    assert (Hex : existsb (startswith (drop consumed raw)) (elements used) = true).
    { apply existsb_exists. exists d. split; [|exact Hstart].
      apply list_elem_of_In, elem_of_elements, Hd. }
    rewrite Hex. reflexivity.
Qed.

Lemma own_delimiters_equal header m_end c pos pos' :
  NAME_RE_match header 0 = Some m_end →
  read_array_brackets header m_end 0 = Returns (Some c, pos) →
  struct_opener header pos = Some (c, pos') →
  parse_field header = Raises DelimiterConflictError.
Proof.
  intros Hname Hread Hop.
  rewrite parse_field_parse_at_top.
  rewrite (parse_at_head_raises 0 ∅ header DelimiterConflictError);
    [reflexivity|].
  apply (parse_head_component_conflict header 0 ∅ m_end (Some c) pos c pos');
    auto.
  unfold parse_array_part. rewrite Hread. simpl.
  rewrite bool_decide_eq_false_2 by set_solver. reflexivity.
Qed.

(** C1. A delimiter that is already in scope along the nesting path.
    Whenever the parse of [header] comes to a component that shows a
    delimiter of an enclosing level again -- as its array delimiter, as
    its component delimiter, as the ["("] left over when a nested struct
    reuses the enclosing component delimiter, or in front of what is left
    after its field -- and whenever the array delimiter and the component
    delimiter of the header itself are equal, [parse_field] raises
    [DelimiterConflictError]; so it does on [address[~]^(street~city)]. *)
Theorem delimiter_conflict :
  (∀ header raw depth used,
     visits header raw depth used →
     delimiter_reused used depth raw →
     parse_field header = Raises DelimiterConflictError)
  ∧ (∀ header m_end c pos pos',
       NAME_RE_match header 0 = Some m_end →
       read_array_brackets header m_end 0 = Returns (Some c, pos) →
       struct_opener header pos = Some (c, pos') →
       parse_field header = Raises DelimiterConflictError)
  ∧ (∀ s depth used name array_delim pos sp,
       parse_head s 0 depth used = Returns (name, array_delim, pos, Some sp) →
       sp_inner_used sp
       = used ∪ {[sp_comp_delim sp]}
         ∪ match array_delim with Some d => {[d]} | None => ∅ end)
  ∧ parse_field (lit "address[~]^(street~city)") = Raises DelimiterConflictError
  ∧ parse_field (lit "location^(name^coords^(lat^lon))")
    = Raises DelimiterConflictError
  ∧ parse_field (lit "tags[^]^(a^b)") = Raises DelimiterConflictError
  ∧ parse_field (lit "a^(b;(c:(d[;])))") = Raises DelimiterConflictError.
Proof.
  split.
  { intros header raw depth used Hvisit Hreused.
    apply (visits_raises header raw depth used _ Hvisit).
    by apply delimiter_reused_raises. }
  split; [exact own_delimiters_equal|].
  split; [intros s depth used; apply parse_head_scope|].
  repeat split; vm_compute; reflexivity.
Qed.

Lemma delimiter_conflict_witness :
  parse_field (lit "address[~]^(street~city)") = Raises DelimiterConflictError.
Proof.
  pose (sp := StructPart (lit "^") (lit "street~city") 24
                (∅ ∪ {[lit "^"]} ∪ {[lit "~"]})).
  apply (proj1 delimiter_conflict (lit "address[~]^(street~city)")
           (lit "street~city") 1 (sp_inner_used sp)).
  - apply (visits_top _ (lit "address") (Some (lit "~")) 10 sp
             [lit "street~city"] 0 (lit "street~city")).
    + vm_compute. reflexivity.
    + vm_compute. reflexivity.
    + reflexivity.
    + intros m raw' Hm. lia.
  - apply (reused_after_field _ _ _ (SimpleField (lit "street")) 6 (lit "~")).
    + vm_compute. reflexivity.
    + vm_compute. reflexivity.
    + simpl. lia.
    + simpl. set_solver.
    + vm_compute. reflexivity.
Defined.

(** ** Empty array brackets *)

Lemma empty_brackets_name (name rest : str) :
  name ≠ [] → Forall (λ c, is_field_char c = true) name →
  NAME_RE_match (name ++ lit "[]" ++ rest) 0 = Some (length name).
Proof. intros Hne Hname. by apply NAME_RE_match_app. Qed.

Lemma empty_brackets_read (name rest : str) (depth : nat) :
  read_array_brackets (name ++ lit "[]" ++ rest) (length name) depth
  = if bool_decide (0 < depth) then Raises HeaderParseError
    else Returns (Some DEFAULT_ARRAY_DELIM, length name + 2).
Proof.
  unfold read_array_brackets.
  rewrite bool_decide_eq_true_2 by (by apply list_lookup_middle).
  unfold find. rewrite drop_app_add. simpl.
  unfold slice. rewrite Nat.sub_diag. simpl.
  destruct (bool_decide (0 < depth)); [reflexivity|].
  simpl. replace (length name + 1 + 1) with (length name + 2) by lia.
  reflexivity.
Qed.

Lemma empty_brackets_nested (name rest : str) (depth : nat) (used : gset str) :
  name ≠ [] → Forall (λ c, is_field_char c = true) name → 0 < depth →
  parse_head (name ++ lit "[]" ++ rest) 0 depth used = Raises HeaderParseError.
Proof.
  intros Hne Hname Hdepth. unfold parse_head, parse_array_part.
  rewrite (empty_brackets_name name rest Hne Hname), empty_brackets_read.
  rewrite bool_decide_eq_true_2 by exact Hdepth. reflexivity.
Qed.

Lemma parse_field_head_raises fuel s depth used e :
  parse_head s 0 depth used = Raises e →
  _parse_field (S fuel) s 0 depth used = Raises e.
Proof. intros H. simpl. rewrite H. reflexivity. Qed.

Lemma empty_brackets_component raw depth used :
  empty_brackets raw → 0 < depth →
  component_outcome depth used raw = Raises HeaderParseError.
Proof.
  intros (name & rest & Hne & Hname & ->) Hdepth.
  apply component_outcome_raises.
  - eapply NAME_RE_match_not_paren. by apply empty_brackets_name.
  - apply parse_at_head_raises. by apply empty_brackets_nested.
Qed.

Lemma empty_brackets_top_head (name rest : str) :
  name ≠ [] → Forall (λ c, is_field_char c = true) name →
  parse_head (name ++ lit "[]" ++ rest) 0 0 ∅
  = (struct ← parse_struct_part (name ++ lit "[]" ++ rest) (length name + 2)
                (Some DEFAULT_ARRAY_DELIM) ∅;
     Returns (name, Some DEFAULT_ARRAY_DELIM, length name + 2, struct)).
Proof.
  intros Hne Hname. unfold parse_head, parse_array_part.
  rewrite (empty_brackets_name name rest Hne Hname), empty_brackets_read.
  rewrite (bool_decide_eq_false_2 (0 < 0)) by lia.
  cbn [mbind outcome_bind bind].
  rewrite (bool_decide_eq_false_2 (DEFAULT_ARRAY_DELIM ∈ _)) by set_solver.
  cbn [mbind outcome_bind bind].
  unfold slice. rewrite Nat.sub_0_r, drop_0, take_app_length. reflexivity.
Qed.

Lemma empty_brackets_top_delimiter (name rest : str) (f : Field) :
  name ≠ [] → Forall (λ c, is_field_char c = true) name →
  parse_field (name ++ lit "[]" ++ rest) = Returns f →
  ∃ element, f = ArrayField name DEFAULT_ARRAY_DELIM element.
Proof.
  intros Hne Hname. rewrite parse_field_parse_at_top, parse_at_unfold.
  rewrite (empty_brackets_top_head name rest Hne Hname).
  destruct (parse_struct_part _ _ _ _) as [[sp|]| |]; simpl; try discriminate.
  - destruct (_bracket_aware_split _ _) as [raws| |]; simpl; try discriminate.
    destruct (for_each _ raws) as [cs| |]; simpl; try discriminate.
    case_match; [discriminate|]. intros [= <-]. eauto.
  - case_match; [discriminate|]. intros [= <-]. eauto.
Qed.

Lemma empty_brackets_top_legal (name : str) :
  name ≠ [] → Forall (λ c, is_field_char c = true) name →
  parse_field (name ++ lit "[]")
  = Returns (ArrayField name DEFAULT_ARRAY_DELIM (SimpleField name)).
Proof.
  intros Hne Hname. rewrite parse_field_parse_at_top, parse_at_unfold.
  rewrite <- (app_nil_r (lit "[]")).
  rewrite (empty_brackets_top_head name [] Hne Hname).
  unfold parse_struct_part, struct_opener.
  rewrite !bool_decide_eq_false_2.
  - simpl. rewrite bool_decide_eq_false_2; [reflexivity|].
    intros Hlen. apply Hlen. rewrite length_app. simpl. lia.
  - rewrite lookup_ge_None_2; [discriminate|]. rewrite length_app. simpl. lia.
  - rewrite lookup_ge_None_2; [discriminate|]. rewrite length_app. simpl. lia.
Qed.

(** C6. Empty array brackets.  At a nesting depth above 0 [_parse_field]
    rejects a field whose array part is [[]] with [HeaderParseError],
    whatever delimiters are in scope and whatever follows; so [parse_field]
    raises [HeaderParseError] whenever the parse of the header comes to
    such a component inside a struct body.  At depth 0 the empty brackets
    are legal: [name[]] is the array of [name] with the default delimiter
    [~], and any header [name[]...] that is accepted is an array with the
    delimiter [~]. *)
Theorem nested_empty_brackets :
  (∀ fuel raw depth used,
     empty_brackets raw → 0 < depth →
     _parse_field (S fuel) raw 0 depth used = Raises HeaderParseError)
  ∧ (∀ header raw depth used,
       visits header raw depth used → empty_brackets raw →
       0 < depth ∧ parse_field header = Raises HeaderParseError)
  ∧ (∀ name, name ≠ [] → Forall (λ c, is_field_char c = true) name →
       parse_field (name ++ lit "[]")
       = Returns (ArrayField name (lit "~") (SimpleField name)))
  ∧ (∀ name rest f,
       name ≠ [] → Forall (λ c, is_field_char c = true) name →
       parse_field (name ++ lit "[]" ++ rest) = Returns f →
       ∃ element, f = ArrayField name (lit "~") element)
  ∧ parse_field (lit "address[~]^(lines[]^city)") = Raises HeaderParseError
  ∧ parse_field (lit "a^(b;(c;d[]))") = Raises HeaderParseError
  ∧ parse_field (lit "phone[]")
    = Returns (ArrayField (lit "phone") (lit "~") (SimpleField (lit "phone")))
  ∧ parse_field (lit "address[]^(street^city)")
    = Returns (ArrayField (lit "address") (lit "~")
                 (StructField (lit "address") (lit "^")
                    [SimpleField (lit "street"); SimpleField (lit "city")])).
Proof.
  split.
  { intros fuel raw depth used (name & rest & Hne & Hname & ->) Hdepth.
    apply parse_field_head_raises. by apply empty_brackets_nested. }
  split.
  { intros header raw depth used Hvisit Hraw.
    pose proof (visits_depth _ _ _ _ Hvisit) as Hdepth.
    split; [exact Hdepth|].
    apply (visits_raises header raw depth used _ Hvisit).
    by apply empty_brackets_component. }
  split; [exact empty_brackets_top_legal|].
  split; [exact empty_brackets_top_delimiter|].
  repeat split; vm_compute; reflexivity.
Qed.

Lemma nested_empty_brackets_witness :
  parse_field (lit "address[~]^(lines[]^city)") = Raises HeaderParseError.
Proof.
  pose (sp := StructPart (lit "^") (lit "lines[]^city") 25
                (∅ ∪ {[lit "^"]} ∪ {[lit "~"]})).
  apply (proj1 (proj2 nested_empty_brackets) (lit "address[~]^(lines[]^city)")
           (lit "lines[]") 1 (sp_inner_used sp)).
  - apply (visits_top _ (lit "address") (Some (lit "~")) 10 sp
             [lit "lines[]"; lit "city"] 0 (lit "lines[]")).
    + vm_compute. reflexivity.
    + vm_compute. reflexivity.
    + reflexivity.
    + intros m raw' Hm. lia.
  - exists (lit "lines"), []. split; [discriminate|].
    split; [|reflexivity].
    repeat constructor.
Defined.

(** The first error met in scanning order is the one raised: a conflict of
    the enclosing field comes before the empty brackets of a component, and
    the empty brackets of a component before the conflict of a later one. *)
Example first_error_wins :
  parse_field (lit "a[~]~(b[])") = Raises DelimiterConflictError
  ∧ parse_field (lit "a^(b[]^c[^])") = Raises HeaderParseError
  ∧ parse_value (lit "1^2^3~" ++ quoted (lit "4"))
      (ArrayField (lit "x") (lit "~")
         (StructField (lit "x") (lit "^")
            [SimpleField (lit "a"); SimpleField (lit "b")])) false
    = Raises ValueParseError.
Proof. repeat split; vm_compute; reflexivity. Qed.

(** ** Decoding does not write to the schema *)

Lemma frames_lift {A} (m : outcome A) : frames (Heap.lift m).
Proof. intros h. reflexivity. Qed.

Lemma frames_load r : frames (Heap.load r).
Proof. intros h. reflexivity. Qed.

Lemma frames_bind {A B} (m : Heap.run A) (k : A → Heap.run B) :
  frames m → (∀ a, frames (k a)) → frames (m ≫= k).
Proof.
  intros Hm Hk h. unfold mbind, Heap.run_bind, Heap.run_bind_def.
  specialize (Hm h). destruct (m h) as [h' [a|e|]]; simpl in *; subst h'.
  - apply Hk.
  - reflexivity.
  - reflexivity.
Qed.

Lemma frames_array_loop decode element_type elements :
  (∀ elem r q, frames (decode elem r q)) →
  frames (Heap.array_loop decode element_type elements).
Proof.
  intros Hdecode. induction elements as [|[elem q] rest IH]; simpl.
  - apply frames_lift.
  - apply frames_bind; [apply frames_load|]. intros o.
    destruct (q && negb (Heap.is_SimpleObject o)); [apply frames_lift|].
    apply frames_bind; [apply Hdecode|]. intros v.
    apply frames_bind; [exact IH|]. intros vs. apply frames_lift.
Qed.

Lemma frames_struct_loop decode comps elements :
  (∀ elem r q, frames (decode elem r q)) →
  ∀ i result, frames (Heap.struct_loop decode comps i elements result).
Proof.
  intros Hdecode. induction comps as [|c rest IH]; intros i result; simpl.
  - apply frames_lift.
  - apply frames_bind; [apply frames_load|]. intros o.
    destruct (elements !! i) as [[elem q]|]; [|apply IH].
    destruct (q && negb (Heap.is_SimpleObject o)); [apply frames_lift|].
    apply frames_bind; [apply Hdecode|]. intros v. apply IH.
Qed.

Lemma frames_parse_value fuel :
  ∀ raw schema was_quoted, frames (Heap.parse_value fuel raw schema was_quoted).
Proof.
  induction fuel as [|fuel IH]; intros raw schema was_quoted; simpl.
  - apply frames_lift.
  - apply frames_bind; [apply frames_load|]. intros [name|name d e|name cd cs].
    + apply frames_lift.
    + destruct was_quoted; [apply frames_lift|].
      destruct (bool_decide (raw = [])); [apply frames_lift|].
      apply frames_bind; [apply frames_lift|]. intros elements.
      apply frames_bind; [by apply frames_array_loop|]. intros vs.
      apply frames_lift.
    + destruct was_quoted; [apply frames_lift|].
      destruct (bool_decide (cs = [])); [apply frames_lift|].
      apply frames_bind; [apply frames_lift|]. intros elements.
      destruct (bool_decide (length cs < length elements)); [apply frames_lift|].
      apply frames_bind; [by apply frames_struct_loop|]. intros vs.
      apply frames_lift.
Qed.

(** ** The heap decoder computes [parse_value] of the schema tree *)

Lemma run_bind_eq {A B} (m : Heap.run A) (k : A → Heap.run B) h h' r :
  m h = (h', r) →
  (m ≫= k) h = match r with
               | Returns a => k a h'
               | Raises e => (h', Raises e)
               | NoReturn => (h', NoReturn)
               end.
Proof.
  intros H. unfold mbind, Heap.run_bind, Heap.run_bind_def. rewrite H.
  reflexivity.
Qed.

Lemma load_eq h r o : h !! r = Some o → Heap.load r h = (h, Returns o).
Proof. unfold Heap.load. intros ->. reflexivity. Qed.

Lemma represents_object h r schema :
  Heap.represents h r schema →
  ∃ o, h !! r = Some o
       ∧ Heap.is_SimpleObject o = is_SimpleField schema
       ∧ Heap.object_name o = field_name schema.
Proof. destruct 1; eexists; eauto. Qed.

Lemma array_loop_refines h decode e o element pure_decode elements :
  h !! e = Some o →
  Heap.is_SimpleObject o = is_SimpleField element →
  (∀ elem, decode elem e false h = (h, pure_decode elem)) →
  Heap.array_loop decode e elements h
  = (h, array_loop pure_decode (is_SimpleField element) elements).
Proof.
  intros He Hleaf Hdecode.
  induction elements as [|[elem q] rest IH]; simpl; [reflexivity|].
  rewrite (run_bind_eq _ _ h h (Returns o)) by (by apply load_eq).
  rewrite Hleaf.
  destruct (q && negb (is_SimpleField element)); [reflexivity|].
  rewrite (run_bind_eq _ _ h h (pure_decode elem)) by apply Hdecode.
  destruct (pure_decode elem) as [v| |]; simpl; try reflexivity.
  rewrite (run_bind_eq _ _ h h _ IH).
  destruct (array_loop pure_decode _ rest); reflexivity.
Qed.

Lemma struct_loop_refines h decode cs components elements :
  Forall2 (λ c comp,
     ∃ o, h !! c = Some o
          ∧ Heap.is_SimpleObject o = is_SimpleField comp
          ∧ Heap.object_name o = field_name comp
          ∧ ∀ elem, decode elem c false h = (h, parse_value elem comp false))
    cs components →
  ∀ i result,
    Heap.struct_loop decode cs i elements result h
    = (h, struct_loop (λ comp elem, parse_value elem comp false)
            components i elements result).
Proof.
  induction 1 as [|c comp cs components (o & Hc & Hleaf & Hname & Hdecode) _ IH];
    intros i result; simpl; [reflexivity|].
  rewrite (run_bind_eq _ _ h h (Returns o)) by (by apply load_eq).
  rewrite Hleaf, Hname.
  destruct (elements !! i) as [[elem q]|]; [|apply IH].
  destruct (q && negb (is_SimpleField comp)); [reflexivity|].
  rewrite (run_bind_eq _ _ h h (parse_value elem comp false)) by apply Hdecode.
  destruct (parse_value elem comp false) as [v| |]; simpl; try reflexivity.
  apply IH.
Qed.

Lemma max_list_Forall (l : list nat) (n : nat) :
  max_list l ≤ n → Forall (λ x, x ≤ n) l.
Proof.
  induction l as [|x l IH]; simpl; intros H; constructor; [lia|].
  apply IH. lia.
Qed.

Lemma parse_value_refines schema :
  ∀ h r raw was_quoted fuel,
    Heap.represents h r schema → height schema ≤ fuel →
    Heap.parse_value fuel raw r was_quoted h
    = (h, parse_value raw schema was_quoted).
Proof.
  induction schema as [name | name delimiter element IH
                      | name cd components IH] using Field_nested_ind;
    intros h r raw was_quoted fuel Hrep Hfuel;
    inversion Hrep as [? ? Hr | ? ? ? e ? Hr He | ? ? ? cs ? Hr Hcs]; subst;
    (destruct fuel as [|fuel]; [simpl in Hfuel; lia|]);
    cbn [Heap.parse_value];
    rewrite (run_bind_eq _ _ h h _ (load_eq h r _ Hr)).
  - reflexivity.
  - cbn [parse_value]. destruct was_quoted; [reflexivity|].
    destruct (bool_decide (raw = [])); [reflexivity|].
    rewrite (run_bind_eq _ _ h h (quote_aware_split raw delimiter))
      by reflexivity.
    destruct (quote_aware_split raw delimiter) as [elements| |]; simpl;
      try reflexivity.
    destruct (represents_object h e element He) as (o & Ho & Hleaf & _).
    rewrite (run_bind_eq _ _ h h _
               (array_loop_refines h _ e o element
                  (λ elem, parse_value elem element false) elements Ho Hleaf
                  (λ elem, IH h e elem false fuel He
                             ltac:(simpl in Hfuel; lia)))).
    destruct (array_loop _ _ elements); reflexivity.
  - cbn [parse_value]. destruct was_quoted; [reflexivity|].
    pose proof (Forall2_length _ _ _ Hcs) as Hlen.
    assert (Hnil : bool_decide (cs = []) = bool_decide (components = [])).
    { destruct cs, components; try discriminate; reflexivity. }
    rewrite Hnil. destruct (bool_decide (components = [])); [reflexivity|].
    rewrite (run_bind_eq _ _ h h (quote_aware_split raw cd)) by reflexivity.
    destruct (quote_aware_split raw cd) as [elements| |]; simpl;
      try reflexivity.
    rewrite Hlen.
    destruct (bool_decide (length components < length elements));
      [reflexivity|].
    assert (Hheights : Forall (λ comp, height comp ≤ fuel) components).
    { assert (Hmax : max_list (height <$> components) ≤ fuel)
        by (simpl in Hfuel; lia).
      apply max_list_Forall in Hmax. apply Forall_fmap in Hmax. exact Hmax. }
    assert (Hall : Forall2 (λ c comp,
              ∃ o, h !! c = Some o
                   ∧ Heap.is_SimpleObject o = is_SimpleField comp
                   ∧ Heap.object_name o = field_name comp
                   ∧ ∀ elem, Heap.parse_value fuel elem c false h
                             = (h, parse_value elem comp false))
              cs components).
    { clear Hr Hrep Hnil Hlen Hfuel.
      induction Hcs as [|c comp cs components Hc _ IHcs]; constructor.
      - apply Forall_cons in IH as [IHc _].
        apply Forall_cons in Hheights as [Hh _].
        destruct (represents_object h c comp Hc) as (o & Ho & Hleaf & Hn).
        exists o. split; [exact Ho|]. split; [exact Hleaf|].
        split; [exact Hn|]. intros elem. by apply IHc.
      - apply Forall_cons in IH as [_ IH].
        apply Forall_cons in Hheights as [_ Hheights].
        by apply IHcs. }
    rewrite (run_bind_eq _ _ h h _
               (struct_loop_refines h _ cs components elements Hall 0 [])).
    destruct (struct_loop _ components 0 elements []); reflexivity.
Qed.

(** C9. Decoding leaves the schema as it is.  Run against the heap that
    holds the schema objects, the decoder returns the heap it was given,
    whatever the heap and the inputs; for a reference that is the root of
    a schema tree, the outcome is [parse_value] of the raw string, the
    quoted flag and that tree, and of nothing else; so the tree behind the
    reference is the same after a call, and a second call with another raw
    string gives what it gives on its own. *)
Theorem decoding_frames_schema :
  (∀ fuel raw r was_quoted h,
     (Heap.parse_value fuel raw r was_quoted h).1 = h)
  ∧ (∀ h r schema raw was_quoted fuel,
       Heap.represents h r schema → height schema ≤ fuel →
       Heap.parse_value fuel raw r was_quoted h
       = (h, parse_value raw schema was_quoted))
  ∧ (∀ h r schema raw1 quoted1 raw2 quoted2 fuel,
       Heap.represents h r schema → height schema ≤ fuel →
       ∃ h1 h2,
         Heap.parse_value fuel raw1 r quoted1 h
         = (h1, parse_value raw1 schema quoted1)
         ∧ Heap.parse_value fuel raw2 r quoted2 h1
           = (h2, parse_value raw2 schema quoted2)
         ∧ h2 = h ∧ Heap.represents h2 r schema).
Proof.
  split; [intros fuel raw r q h; apply frames_parse_value|].
  split; [intros h r schema raw q fuel; apply parse_value_refines|].
  intros h r schema raw1 q1 raw2 q2 fuel Hrep Hfuel.
  exists h, h. split; [by apply parse_value_refines|].
  split; [by apply parse_value_refines|]. auto.
Qed.

Lemma decoding_frames_schema_witness :
  Heap.parse_value 2 (lit "urgent||priority") 0 false tags_heap
  = (tags_heap,
     parse_value (lit "urgent||priority")
       (ArrayField (lit "tags") (lit "|") (SimpleField (lit "tags"))) false).
Proof.
  apply (proj1 (proj2 decoding_frames_schema) tags_heap 0
           (ArrayField (lit "tags") (lit "|") (SimpleField (lit "tags")))).
  - apply (Heap.represents_array tags_heap 0 (lit "tags") (lit "|") 1).
    + vm_compute. reflexivity.
    + apply Heap.represents_simple. vm_compute. reflexivity.
  - simpl. lia.
Defined.

(** ** Documents *)

Lemma for_each_Raises_elem {A B} (f : A → outcome B) (l : list A) (e : Error) :
  for_each f l = Raises e → ∃ x, x ∈ l ∧ f x = Raises e.
Proof.
  intros H. apply for_each_Raises in H as (n & x & Hn & Hx & _).
  exists x. split; [by eapply list_elem_of_lookup_2 | exact Hx].
Qed.

Lemma parse_value_raises schema :
  ∀ raw was_quoted e,
    parse_value raw schema was_quoted = Raises e →
    e = InvalidQuotingError ∨ e = ValueParseError.
Proof.
  induction schema as [name | name delimiter element IH
                      | name cd components IH] using Field_nested_ind;
    intros raw was_quoted e Hraise.
  - discriminate.
  - destruct was_quoted; [injection Hraise as <-; auto|].
    rewrite parse_value_array in Hraise. unfold decode_array in Hraise.
    destruct (bool_decide (raw = [])); [discriminate|].
    destruct (quote_aware_split raw delimiter) as [tokens|e'|] eqn:Hsplit;
      simpl in Hraise; [| by apply quote_aware_split_not_Raises in Hsplit
                        | discriminate].
    destruct (for_each _ tokens) as [vs|e'|] eqn:Hloop; simpl in Hraise;
      try discriminate.
    injection Hraise as ->.
    apply for_each_Raises_elem in Hloop as ([token quoted] & _ & Htoken).
    by eapply IH.
  - destruct was_quoted; [injection Hraise as <-; auto|].
    destruct (decide (components = [])) as [->|Hne]; [discriminate|].
    destruct (quote_aware_split raw cd) as [tokens|e'|] eqn:Hsplit.
    2: { by apply quote_aware_split_not_Raises in Hsplit. }
    2: { simpl in Hraise.
         rewrite bool_decide_eq_false_2 in Hraise by exact Hne.
         rewrite Hsplit in Hraise. discriminate. }
    rewrite (parse_value_struct _ _ _ _ _ Hne Hsplit) in Hraise.
    destruct (bool_decide (length components < length tokens));
      [injection Hraise as <-; auto|].
    destruct (component_bindings components tokens) as [bs|e'|] eqn:Hloop;
      simpl in Hraise; try discriminate.
    injection Hraise as ->.
    apply for_each_Raises_elem in Hloop as ([n comp] & Hin & Hcomp).
    apply list_elem_of_lookup in Hin as [m Hm].
    rewrite enumerate_from_lookup in Hm.
    destruct (components !! m) as [c|] eqn:Hc; [|discriminate].
    injection Hm as <- <-.
    unfold component_binding in Hcomp. simpl in Hcomp.
    destruct (tokens !! m) as [[token quoted]|]; [|discriminate].
    destruct (parse_value token c quoted) as [v|e'|] eqn:Hv; simpl in Hcomp;
      try discriminate.
    injection Hcomp as ->.
    rewrite Forall_lookup in IH. by eapply (IH m c Hc).
Qed.

Lemma parse_record_raises schemas row e :
  parse_record schemas row = Raises e →
  e = InvalidQuotingError ∨ e = ValueParseError.
Proof.
  unfold parse_record. rewrite record_loop_bindings. intros H.
  destruct (for_each _ _) as [bs|e'|] eqn:Hloop; simpl in H; try discriminate.
  injection H as ->.
  apply for_each_Raises_elem in Hloop as ([n schema] & _ & Hcol).
  unfold column_binding in Hcol. simpl in Hcol.
  destruct (parse_value _ schema _) as [v|e'|] eqn:Hv; simpl in Hcol;
    try discriminate.
  injection Hcol as ->. by eapply parse_value_raises.
Qed.

Lemma parse_head_raises s pos depth used e :
  parse_head s pos depth used = Raises e →
  e = HeaderParseError ∨ e = DelimiterConflictError.
Proof.
  unfold parse_head, parse_array_part, read_array_brackets, parse_struct_part.
  repeat (case_match; simpl; try discriminate);
    intros [= <-]; auto.
Qed.

Lemma parse_at_raises_below (n : nat) :
  ∀ s depth used e,
    length s < n → parse_at depth used s = Raises e →
    e = HeaderParseError ∨ e = DelimiterConflictError.
Proof.
  induction n as [|n IH]; intros s depth used e Hlen; [lia|].
  rewrite parse_at_unfold.
  destruct (parse_head s 0 depth used)
    as [[[[name array_delim] pos'] [sp|]]|e'|] eqn:Hhead; simpl;
    [| destruct array_delim; discriminate
     | intros [= <-]; by eapply parse_head_raises
     | discriminate].
  apply parse_head_body in Hhead as [Hbody _].
  destruct (_bracket_aware_split _ _) as [raws|e'|] eqn:Hsplit; simpl;
    [| by apply bracket_aware_split_not_Raises in Hsplit | discriminate].
  pose proof (bracket_aware_split_lengths _ _ _ Hsplit) as Hlens.
  destruct (for_each _ raws) as [cs|e'|] eqn:Hloop; simpl;
    [destruct array_delim; discriminate | | discriminate].
  intros [= <-].
  apply for_each_Raises_elem in Hloop as (raw & Hraw & Hcomp).
  rewrite Forall_forall in Hlens. specialize (Hlens raw Hraw). simpl in Hlens.
  unfold component_outcome, parse_component in Hcomp.
  destruct (startswith raw (lit "(")); [injection Hcomp as <-; auto|].
  destruct (parse_at (depth + 1) (sp_inner_used sp) raw) as [[f c]|e2|] eqn:Hat;
    simpl in Hcomp; try discriminate.
  - repeat case_match; try discriminate; injection Hcomp as <-; auto.
  - injection Hcomp as <-. eapply IH; [|exact Hat]. lia.
Qed.

Lemma parse_field_raises header e :
  parse_field header = Raises e →
  e = HeaderParseError ∨ e = DelimiterConflictError.
Proof.
  rewrite parse_field_parse_at_top.
  destruct (parse_at 0 ∅ header) as [[f c]|e'|] eqn:Hat; simpl;
    try discriminate.
  - case_match; [|discriminate]. intros [= <-]. auto.
  - intros [= <-]. eapply (parse_at_raises_below (S (length header))); [|exact Hat].
    lia.
Qed.

Lemma iter_rows_not_Raises text field_sep e :
  _iter_rows_with_quoting text field_sep ≠ Raises e.
Proof.
  unfold _iter_rows_with_quoting. intros H.
  apply for_each_Raises_elem in H as (line & _ & Hline).
  unfold _parse_csv_row in Hline.
  destruct (scan_loop _ _ _ _) as [st| |] eqn:Hst; simpl in Hline;
    try discriminate.
  by apply scan_loop_not_Raises in Hst.
Qed.

Lemma parse_csv_row_step_flags line field_sep st c :
  length (values st) = length (quoted_flags st) →
  length (values (parse_csv_row_step line field_sep st c))
  = length (quoted_flags (parse_csv_row_step line field_sep st c)).
Proof.
  destruct st as [vs fs cur tq inq n]. unfold parse_csv_row_step.
  repeat case_match; simpl; rewrite ?length_app; simpl; lia.
Qed.

Lemma parse_csv_row_cells (line field_sep : str) :
  ∃ cells, _parse_csv_row line field_sep = Returns cells ∧ 0 < length cells.
Proof.
  unfold _parse_csv_row.
  destruct (scan_loop_returns line (parse_csv_row_step line field_sep)
              (λ st c _, parse_csv_row_step_advances line field_sep st c)
              (length line) scan_init) as [st Hst]; [simpl; lia|].
  rewrite Hst. simpl. eexists. split; [reflexivity|].
  rewrite scan_result_length; [lia|].
  apply (scan_loop_invariant
           (λ st, length (values st) = length (quoted_flags st)) line
           (parse_csv_row_step line field_sep)
           (λ st c _, parse_csv_row_step_flags line field_sep st c)
           (length line) scan_init st); [reflexivity | exact Hst].
Qed.

Lemma filter_all {A} (P : A → Prop) `{∀ x, Decision (P x)} (l : list A) :
  Forall P l → filter P l = l.
Proof.
  induction 1 as [|x l Hx _ IH]; [reflexivity|].
  rewrite filter_cons_True by exact Hx. by rewrite IH.
Qed.

Lemma for_each_then {A B C} (f : A → outcome B) (g : B → outcome C)
    (P : B → Prop) `{∀ y, Decision (P y)} (l : list A) :
  (∀ x, x ∈ l → ∃ y, f x = Returns y ∧ P y) →
  (rows ← for_each f l; for_each g (filter P rows))
  = for_each (λ x, y ← f x; g y) l.
Proof.
  induction l as [|x l IH]; intros Hf; [reflexivity|].
  destruct (Hf x ltac:(left)) as (y & Hy & HP).
  assert (Hl : ∀ x', x' ∈ l → ∃ y', f x' = Returns y' ∧ P y')
    by (intros x' Hx'; apply Hf; by right).
  specialize (IH Hl). cbn [for_each]. rewrite Hy, !bind_Returns.
  destruct (for_each f l) as [ys|e|] eqn:Hys.
  - rewrite !bind_Returns in *. rewrite filter_cons_True by exact HP.
    cbn [for_each]. by rewrite IH.
  - exfalso. apply for_each_Raises_elem in Hys as (x' & Hx' & He).
    destruct (Hl x' Hx') as (y' & Hy' & _). congruence.
  - exfalso. revert Hys. apply for_each_not_NoReturn.
    intros x' Hx'. destruct (Hl x' Hx') as (y' & -> & _). discriminate.
Qed.

(** The second phase of [parse]: the rows are the cells of the logical
    lines after the first that are not blank. *)
Lemma parse_rows (schemas : list Field) (text field_sep : str) :
  (rows ← _iter_rows_with_quoting text field_sep;
   for_each (parse_record schemas) (filter (λ raw_row, length raw_row ≠ 0) rows))
  = for_each (λ line, cells ← _parse_csv_row line field_sep;
                      parse_record schemas cells)
      (filter (λ line, strip line ≠ []) (drop 1 (_split_csv_lines text))).
Proof.
  unfold _iter_rows_with_quoting.
  apply (for_each_then (λ line, _parse_csv_row line field_sep)
           (parse_record schemas) (λ raw_row, length raw_row ≠ 0)).
  intros line _.
  destruct (parse_csv_row_cells line field_sep) as (cells & Hcells & Hlen).
  exists cells. split; [exact Hcells | lia].
Qed.

(** C7, as the code has it.  [parse] hands the separator to the standard
    reader first, and that reader takes a delimiter of one character only:
    with a separator of any other length [parse] raises the reader's
    [TypeError] and splits nothing.  With a separator of one character,
    and a header row that parses, the records are the decodings of the
    logical lines after the first that are not blank, each split as the
    quote-aware splitter splits it on that character.  The row scanner
    compares the one character at the scan position with the whole
    separator: called on its own with a separator of another length it
    never splits. *)
Theorem row_separator (csv_reader_next : str → str → reader_result) :
  (∀ text field_sep,
     length field_sep ≠ 1 → csv_reader_next text field_sep = ReaderTypeError) →
  (∀ text field_sep,
     length field_sep ≠ 1 →
     parse csv_reader_next text field_sep = Raises TypeError)
  ∧ (∀ text (sep : ascii) raw_headers schemas,
       csv_reader_next text [sep] = FirstRecord raw_headers →
       parse_header_row raw_headers = Returns schemas →
       parse csv_reader_next text [sep]
       = for_each (λ line, cells ← quote_aware_split line [sep];
                           parse_record schemas cells)
           (filter (λ line, strip line ≠ []) (drop 1 (_split_csv_lines text))))
  ∧ (∀ (sep : ascii) line,
       _parse_csv_row line [sep] = quote_aware_split line [sep])
  ∧ (∀ field_sep line,
       length field_sep ≠ 1 →
       ∃ cell quoted, _parse_csv_row line field_sep = Returns [(cell, quoted)]).
Proof.
  intros Hreader. split; [|split; [|split]].
  - intros text field_sep Hlen. unfold parse.
    by rewrite (Hreader text field_sep Hlen).
  - intros text sep raw_headers schemas Hrecord Hheader. unfold parse.
    rewrite Hrecord, Hheader, bind_Returns, parse_rows.
    apply for_each_ext. intros line _. by rewrite parse_csv_row_single.
  - intros sep line. apply parse_csv_row_single.
  - intros field_sep line. apply parse_csv_row_never_splits.
Qed.

Lemma first_line_reader_delimiter (text field_sep : str) :
  length field_sep ≠ 1 → first_line_reader text field_sep = ReaderTypeError.
Proof. by destruct field_sep as [|c [|c' rest]]. Qed.

Lemma row_separator_witness :
  parse first_line_reader (lit "a||b" ++ [LF] ++ lit "1||2") (lit "||")
  = Raises TypeError.
Proof.
  apply (proj1 (row_separator first_line_reader first_line_reader_delimiter)).
  simpl. lia.
Defined.

(** C7 as stated fails: with the separator ["||"] neither the header line
    nor the data line ["1||2"] is split on the separator, [parse] raises
    [TypeError]; and the row scanner, given that line and that separator,
    returns the line as one cell, where splitting on each occurrence of the
    separator string gives the two cells ["1"] and ["2"]. *)
Lemma row_separator_counterexample :
  parse first_line_reader (lit "a||b" ++ [LF] ++ lit "1||2") (lit "||")
  = Raises TypeError
  ∧ _parse_csv_row (lit "1||2") (lit "||") = Returns [(lit "1||2", false)]
  ∧ quote_aware_split (lit "1||2") (lit "||")
    = Returns [(lit "1", false); (lit "2", false)].
Proof.
  split; [vm_compute; reflexivity|].
  split; vm_compute; reflexivity.
Qed.

(** C8. A text of which the reader finds no first record has no header
    line, and [parse] raises the error of the empty document, [CSVPPError]
    itself, whatever the separator; no other failure of [parse] is this
    error. *)
Theorem empty_document
    (csv_reader_next : str → str → reader_result) (text field_sep : str) :
  (csv_reader_next text field_sep = StopIteration →
   parse csv_reader_next text field_sep = Raises CSVPPError)
  ∧ (parse csv_reader_next text field_sep = Raises CSVPPError →
     csv_reader_next text field_sep = StopIteration).
Proof.
  unfold parse. split; [intros ->; reflexivity|].
  destruct (csv_reader_next text field_sep) as [raw_headers| | |];
    [|reflexivity|discriminate|discriminate].
  intros H. exfalso.
  destruct (parse_header_row raw_headers) as [schemas|e|] eqn:Hh; simpl in H;
    try discriminate.
  - destruct (_iter_rows_with_quoting text field_sep) as [rows|e|] eqn:Hr;
      simpl in H; try discriminate.
    + apply for_each_Raises_elem in H as (row & _ & Hrow).
      apply parse_record_raises in Hrow as [?|?]; discriminate.
    + by apply iter_rows_not_Raises in Hr.
  - injection H as ->. unfold parse_header_row in Hh.
    apply for_each_Raises_elem in Hh as (h & _ & Hfield).
    apply parse_field_raises in Hfield as [?|?]; discriminate.
Qed.

Lemma empty_document_witness :
  parse first_line_reader [] (lit ",") = Raises CSVPPError.
Proof.
  apply (proj1 (empty_document first_line_reader [] (lit ","))). reflexivity.
Defined.

Example parse_two_rows :
  parse first_line_reader (lit "id,name" ++ [LF] ++ lit "1,Alice" ++ [LF]
                           ++ lit "2,Bob" ++ [LF]) (lit ",")
  = Returns [[(lit "id", VStr (lit "1")); (lit "name", VStr (lit "Alice"))];
             [(lit "id", VStr (lit "2")); (lit "name", VStr (lit "Bob"))]].
Proof. vm_compute. reflexivity. Qed.

Example parse_quoted_array_cell :
  parse first_line_reader
    (lit "id,notes[|]" ++ [LF] ++ lit "1," ++ quoted (lit "First note|Second note") ++ [LF])
    (lit ",")
  = Raises InvalidQuotingError.
Proof. vm_compute. reflexivity. Qed.

(** * Further properties of the package *)

(** ** The exceptions a caller can see *)

(** X1. Parsing a header raises nothing but [HeaderParseError] and
    [DelimiterConflictError]; so does parsing a header row. *)
Theorem header_error_kinds :
  (∀ header e,
     parse_field header = Raises e →
     e = HeaderParseError ∨ e = DelimiterConflictError)
  ∧ (∀ headers e,
       parse_header_row headers = Raises e →
       e = HeaderParseError ∨ e = DelimiterConflictError).
Proof.
  split; [exact parse_field_raises|].
  intros headers e H. unfold parse_header_row in H.
  apply for_each_Raises_elem in H as (h & _ & Hfield).
  by eapply parse_field_raises.
Qed.

Lemma header_error_kinds_witness :
  HeaderParseError = HeaderParseError
  ∨ HeaderParseError = DelimiterConflictError.
Proof.
  apply (proj1 header_error_kinds (lit "phone[|")). vm_compute. reflexivity.
Defined.

(** X2. Decoding a value raises nothing but [InvalidQuotingError] and
    [ValueParseError], for a cell and for a whole record. *)
Theorem decode_error_kinds :
  (∀ raw schema was_quoted e,
     parse_value raw schema was_quoted = Raises e →
     e = InvalidQuotingError ∨ e = ValueParseError)
  ∧ (∀ schemas row e,
       parse_record schemas row = Raises e →
       e = InvalidQuotingError ∨ e = ValueParseError).
Proof.
  split; [intros raw schema; apply parse_value_raises|].
  exact parse_record_raises.
Qed.

Lemma decode_error_kinds_witness :
  ValueParseError = InvalidQuotingError ∨ ValueParseError = ValueParseError.
Proof.
  apply (proj1 decode_error_kinds (lit "1^2^3")
           (StructField (lit "geo") (lit "^")
              [SimpleField (lit "lat"); SimpleField (lit "lon")]) false).
  vm_compute. reflexivity.
Defined.

(** ** Rows that are shorter or longer than the header *)

Lemma cell_resize (row : list (str * bool)) (n k : nat) :
  k < n → cell (resize n ([], false) row) k = cell row k.
Proof.
  intros Hk. unfold cell.
  destruct (decide (k < length row)) as [Hlt|Hge].
  - by rewrite lookup_resize.
  - rewrite lookup_resize_new by lia.
    rewrite (lookup_ge_None_2 row k) by lia. reflexivity.
Qed.

Lemma parse_record_cells schemas row row' :
  (∀ k, k < length schemas → cell row' k = cell row k) →
  parse_record schemas row' = parse_record schemas row.
Proof.
  intros Hcells. unfold parse_record. rewrite !record_loop_bindings.
  rewrite (for_each_ext (column_binding row') (column_binding row));
    [reflexivity|].
  intros [k schema] Hin. apply list_elem_of_lookup in Hin as [m Hm].
  rewrite enumerate_from_lookup in Hm.
  destruct (schemas !! m) as [s|] eqn:Hs; [|discriminate].
  injection Hm as <- <-. apply lookup_lt_Some in Hs.
  unfold column_binding. simpl. rewrite (Hcells m Hs). reflexivity.
Qed.

(** X3. A record depends on the row only through its first
    [len(schemas)] cells, a missing cell counting as the empty unquoted
    cell: cells beyond the last column are ignored, and a short row
    decodes as if it were filled up with empty unquoted cells. *)
Theorem record_row_length :
  (∀ schemas row,
     parse_record schemas row
     = parse_record schemas (resize (length schemas) ([], false) row))
  ∧ (∀ schemas row extra,
       length schemas ≤ length row →
       parse_record schemas (row ++ extra) = parse_record schemas row)
  ∧ (∀ schemas row k,
       parse_record schemas (row ++ replicate k ([], false))
       = parse_record schemas row).
Proof.
  split; [|split].
  - intros schemas row. symmetry. apply parse_record_cells.
    intros k Hk. by apply cell_resize.
  - intros schemas row extra Hlen. apply parse_record_cells.
    intros k Hk. unfold cell. rewrite lookup_app_l by lia. reflexivity.
  - intros schemas row k. apply parse_record_cells.
    intros n _. unfold cell.
    destruct (decide (n < length row)) as [Hlt|Hge].
    + rewrite lookup_app_l by lia. reflexivity.
    + rewrite lookup_app_r by lia.
      rewrite (lookup_ge_None_2 row n) by lia.
      destruct (replicate k ([], false) !! (n - length row)) as [c|] eqn:Hc;
        [|reflexivity].
      apply lookup_replicate in Hc as [-> _]. reflexivity.
Qed.

Lemma record_row_length_witness :
  parse_record [SimpleField (lit "id")]
    ([(lit "1", false)] ++ [(lit "junk", true)])
  = parse_record [SimpleField (lit "id")] [(lit "1", false)].
Proof.
  apply (proj1 (proj2 record_row_length)). simpl. lia.
Defined.

(** ** Records of columns with distinct names, and of scalar columns *)

Lemma for_each_length {A B} (f : A → outcome B) (l : list A) (ys : list B) :
  for_each f l = Returns ys → length ys = length l.
Proof.
  intros H. apply for_each_Returns in H. symmetry. by eapply Forall2_length.
Qed.

Lemma column_bindings_names schemas row bs :
  for_each (column_binding row) (enumerate_from 0 schemas) = Returns bs →
  bs.*1 = field_name <$> schemas.
Proof.
  generalize 0. revert bs.
  induction schemas as [|schema rest IH]; intros bs n H.
  - injection H as <-. reflexivity.
  - rewrite enumerate_from_cons in H. simpl in H.
    apply bind_eq_Returns in H as ([k v] & Hb & H).
    apply bind_eq_Returns in H as (bs' & Hbs & [= <-]).
    simpl. f_equal; [|by eapply IH].
    unfold column_binding in Hb. simpl in Hb.
    apply bind_eq_Returns in Hb as (? & _ & [= <- _]). reflexivity.
Qed.

(** X4. When the columns have pairwise distinct names, the record lists
    the columns in header order: entry [n] is the name of column [n] with
    the value decoded from cell [n]. *)
Theorem record_in_header_order schemas row record :
  NoDup (field_name <$> schemas) →
  parse_record schemas row = Returns record →
  dict_keys record = field_name <$> schemas
  ∧ ∀ n schema, schemas !! n = Some schema →
      ∃ v, parse_value (cell row n).1 schema (cell row n).2 = Returns v
           ∧ record !! n = Some (field_name schema, v).
Proof.
  intros Hnd. unfold parse_record. rewrite record_loop_bindings. intros H.
  apply bind_eq_Returns in H as (bs & Hbs & [= <-]).
  pose proof (column_bindings_names _ _ _ Hbs) as Hnames.
  rewrite dict_of_distinct by (simpl; by rewrite Hnames). simpl.
  split; [exact Hnames|].
  intros n schema Hn. apply for_each_Returns in Hbs.
  assert (Hen : enumerate_from 0 schemas !! n = Some (n, schema))
    by (rewrite enumerate_from_lookup, Hn; reflexivity).
  destruct (Forall2_lookup_l _ _ _ _ _ Hbs Hen) as (b & Hb & Hf).
  unfold column_binding in Hf. simpl in Hf.
  apply bind_eq_Returns in Hf as (v & Hv & [= <-]). eauto.
Qed.

Lemma record_in_header_order_witness :
  dict_keys [(lit "id", VStr (lit "1")); (lit "name", VStr (lit "Alice"))]
  = field_name <$> [SimpleField (lit "id"); SimpleField (lit "name")].
Proof.
  apply (record_in_header_order
           [SimpleField (lit "id"); SimpleField (lit "name")]
           [(lit "1", false); (lit "Alice", true)]).
  - apply (bool_decide_unpack _). vm_compute. exact I.
  - vm_compute. reflexivity.
Defined.

(** X5. Plain CSV: when every column is a [SimpleField] no row is
    rejected, and each name is bound to the text of its cell, quoted or
    not (the empty string when the row is too short). *)
Theorem scalar_columns schemas row :
  Forall (λ s, is_SimpleField s = true) schemas →
  parse_record schemas row
  = Returns (dict_of []
               (imap (λ n s, (field_name s, VStr (cell row n).1)) schemas)).
Proof.
  intros Hall. unfold parse_record. rewrite record_loop_bindings.
  assert (Hloop : ∀ start,
    for_each (column_binding row) (enumerate_from start schemas)
    = Returns (imap (λ n s, (field_name s, VStr (cell row (start + n)).1))
                 schemas)).
  { induction Hall as [|schema rest Hs _ IH]; intros start; [reflexivity|].
    rewrite enumerate_from_cons. cbn [for_each].
    destruct schema; try discriminate.
    unfold column_binding at 1. simpl. rewrite IH. simpl.
    rewrite Nat.add_0_r. do 2 f_equal.
    apply imap_ext. intros n s _. simpl. by rewrite Nat.add_succ_r. }
  rewrite (Hloop 0). reflexivity.
Qed.

Lemma scalar_columns_witness :
  parse_record [SimpleField (lit "id"); SimpleField (lit "name")]
    [(lit "1", false)]
  = Returns (dict_of []
               (imap (λ n s, (field_name s,
                              VStr (cell [(lit "1", false)] n).1))
                  [SimpleField (lit "id"); SimpleField (lit "name")])).
Proof.
  apply (scalar_columns [SimpleField (lit "id"); SimpleField (lit "name")]).
  repeat constructor.
Defined.

(** ** The schemas the header parser returns *)

Lemma name_run_le (s : str) : name_run s ≤ length s.
Proof. induction s as [|c s IH]; simpl; [lia|]. destruct (is_field_char c); simpl; lia. Qed.

Lemma name_run_take (s : str) :
  Forall (λ c, is_field_char c = true) (take (name_run s) s).
Proof.
  induction s as [|c s IH]; simpl; [constructor|].
  destruct (is_field_char c) eqn:Hc; simpl; [|constructor].
  constructor; [exact Hc | exact IH].
Qed.

Lemma NAME_RE_match_name s m_end :
  NAME_RE_match s 0 = Some m_end →
  m_end = name_run s ∧ slice s 0 m_end = take (name_run s) s
  ∧ valid_name (take (name_run s) s).
Proof.
  unfold NAME_RE_match. simpl.
  destruct (name_run s) as [|n] eqn:Hn; [discriminate|].
  intros [= <-]. split; [reflexivity|].
  split; [unfold slice; by rewrite Nat.sub_0_r, drop_0|].
  split; [|rewrite <- Hn; apply name_run_take].
  destruct s; [discriminate|]. discriminate.
Qed.

Lemma read_array_brackets_delimiter s pos depth d pos' :
  read_array_brackets s pos depth = Returns (Some d, pos') → length d = 1.
Proof.
  unfold read_array_brackets.
  repeat (case_match; simpl; try discriminate); intros [= <- _];
    try reflexivity.
  match goal with H : bool_decide (_ ≠ 1) = false |- _ =>
    apply bool_decide_eq_false in H end.
  by destruct (decide (length (slice s (pos + 1) n) = 1)).
Qed.

Lemma parse_array_part_delimiter s pos depth used d pos' :
  parse_array_part s pos depth used = Returns (Some d, pos') →
  length d = 1 ∧ d ∉ used.
Proof.
  unfold parse_array_part. intros H.
  apply bind_eq_Returns in H as ([[d'|] p] & Hread & H); [|discriminate].
  destruct (bool_decide (d' ∈ used)) eqn:Hin; [discriminate|].
  injection H as -> _. apply bool_decide_eq_false in Hin.
  split; [by eapply read_array_brackets_delimiter | exact Hin].
Qed.

Lemma parse_struct_part_delimiter s pos array_delim used sp :
  parse_struct_part s pos array_delim used = Returns (Some sp) →
  (sp_comp_delim sp ∉ used) ∧ array_delim ≠ Some (sp_comp_delim sp).
Proof.
  unfold parse_struct_part.
  destruct (struct_opener s pos) as [[c pos']|]; [|discriminate].
  destruct (paren_loop _ _ _) as [p dc].
  destruct (bool_decide (s !! pos' ≠ Some (ch "("))); [discriminate|].
  destruct (bool_decide (c ∈ used)) eqn:Hin; [discriminate|].
  destruct (bool_decide (array_delim = Some c)) eqn:Heq; [discriminate|].
  destruct (bool_decide (dc ≠ 0)); [discriminate|].
  intros [= <-]. simpl.
  apply bool_decide_eq_false in Hin. apply bool_decide_eq_false in Heq. auto.
Qed.

Lemma parse_head_facts s depth used name array_delim pos struct :
  parse_head s 0 depth used = Returns (name, array_delim, pos, struct) →
  name = take (name_run s) s ∧ valid_name name
  ∧ (∀ d, array_delim = Some d → length d = 1 ∧ d ∉ used)
  ∧ (∀ sp, struct = Some sp →
       length (sp_body sp) < length s
       ∧ length (sp_comp_delim sp) = 1
       ∧ (sp_comp_delim sp ∉ used)
       ∧ array_delim ≠ Some (sp_comp_delim sp)
       ∧ sp_inner_used sp
         = used ∪ {[sp_comp_delim sp]}
           ∪ match array_delim with Some d => {[d]} | None => ∅ end).
Proof.
  intros Hhead. pose proof Hhead as Hhead'. unfold parse_head in Hhead.
  destruct (NAME_RE_match s 0) as [m_end|] eqn:Hname; [|discriminate].
  apply NAME_RE_match_name in Hname as (-> & Hslice & Hvalid).
  apply bind_eq_Returns in Hhead as ([ad p] & Harr & Hhead).
  apply bind_eq_Returns in Hhead as (st & Hstruct & [= <- <- <- <-]).
  split; [exact Hslice|]. split; [by rewrite Hslice|].
  split.
  - intros d ->. by eapply parse_array_part_delimiter.
  - intros sp ->.
    destruct (parse_head_body _ _ _ _ _ _ _ _ Hhead') as [Hbody Hlen].
    destruct (parse_struct_part_delimiter _ _ _ _ _ Hstruct) as [Hin Hne].
    pose proof (parse_head_scope _ _ _ _ _ _ _ _ Hhead') as Hscope.
    auto.
Qed.

Lemma bracket_aware_split_nonempty s delimiter raws :
  _bracket_aware_split s delimiter = Returns raws → raws ≠ [].
Proof.
  unfold _bracket_aware_split. intros H.
  apply bind_eq_Returns in H as (st & _ & [= <-]).
  by destruct (b_parts st).
Qed.

Lemma component_outcome_Returns depth used raw f :
  component_outcome depth used raw = Returns f →
  ∃ consumed, parse_at depth used raw = Returns (f, consumed).
Proof.
  unfold component_outcome, parse_component.
  destruct (startswith raw (lit "(")); [discriminate|].
  destruct (parse_at depth used raw) as [[f' c]| |]; simpl; try discriminate.
  repeat case_match; try discriminate. intros [= <-]. eauto.
Qed.

Lemma parse_at_well_formed (n : nat) :
  ∀ s depth used f consumed,
    length s < n →
    parse_at depth used s = Returns (f, consumed) →
    well_formed used f ∧ field_name f = take (name_run s) s.
Proof.
  induction n as [|n IH]; intros s depth used f consumed Hlen; [lia|].
  rewrite parse_at_unfold.
  destruct (parse_head s 0 depth used)
    as [[[[name array_delim] pos] struct]| |] eqn:Hhead; simpl;
    try discriminate.
  destruct (parse_head_facts _ _ _ _ _ _ _ Hhead)
    as (Hname & Hvalid & Harr & Hstruct).
  destruct struct as [sp|].
  - destruct (Hstruct sp eq_refl) as (Hbody & Hc & Hcin & Hcne & Hscope).
    destruct (_bracket_aware_split _ _) as [raws| |] eqn:Hsplit; simpl;
      try discriminate.
    destruct (for_each _ raws) as [components| |] eqn:Hloop; simpl;
      try discriminate.
    assert (Hne : components ≠ []).
    { apply for_each_length in Hloop.
      apply bracket_aware_split_nonempty in Hsplit.
      destruct components, raws; simpl in *; congruence. }
    assert (Hall : Forall (well_formed (sp_inner_used sp)) components).
    { pose proof (bracket_aware_split_lengths _ _ _ Hsplit) as Hlens.
      apply for_each_Returns in Hloop.
      clear Hne Hsplit. induction Hloop as [|raw comp raws comps Hraw _ IHl];
        constructor.
      - apply Forall_cons in Hlens as [Hl _]. simpl in Hl.
        apply component_outcome_Returns in Hraw as [k Hraw].
        apply (IH raw (depth + 1) (sp_inner_used sp) comp k); [lia | exact Hraw].
      - apply Forall_cons in Hlens as [_ Hlens]. by apply IHl. }
    rewrite Hscope in Hall.
    destruct array_delim as [d|]; intros [= <- _]; simpl.
    + destruct (Harr d eq_refl) as [Hd Hdin].
      split; [|exact Hname].
      apply wf_array_struct; auto. congruence.
    + split; [|exact Hname].
      rewrite (right_id_L ∅ (∪)) in Hall. by apply wf_struct.
  - destruct array_delim as [d|]; intros [= <- _]; simpl.
    + destruct (Harr d eq_refl) as [Hd Hdin].
      split; [by apply wf_array | exact Hname].
    + split; [by apply wf_simple | exact Hname].
Qed.

Lemma parsed_schema_well_formed_aux header schema :
  parse_field header = Returns schema → well_formed ∅ schema.
Proof.
  rewrite parse_field_parse_at_top. intros H.
  apply bind_eq_Returns in H as ([f consumed] & Hat & H).
  destruct (bool_decide (consumed ≠ length header)); [discriminate|].
  injection H as <-.
  apply (parse_at_well_formed (S (length header)) header 0 ∅ f consumed);
    [lia | exact Hat].
Qed.

(** X6. Every schema [parse_field] returns is a schema of the data model:
    names are non-empty runs of name characters, every delimiter is one
    character and no delimiter is used twice along a nesting path, the
    element of an array is a scalar or a struct of the array's own name,
    and a struct has at least one component.  Its name -- the key of the
    column in a record -- is the leading run of name characters of the
    header. *)
Theorem parsed_schema_well_formed header schema :
  parse_field header = Returns schema →
  well_formed ∅ schema
  ∧ field_name schema = take (name_run header) header.
Proof.
  rewrite parse_field_parse_at_top. intros H.
  apply bind_eq_Returns in H as ([f consumed] & Hat & H).
  destruct (bool_decide (consumed ≠ length header)); [discriminate|].
  injection H as <-.
  apply (parse_at_well_formed (S (length header)) header 0 ∅ f consumed);
    [lia | exact Hat].
Qed.

Lemma parsed_schema_well_formed_witness :
  well_formed ∅
    (ArrayField (lit "address") (lit "~")
       (StructField (lit "address") (lit "^")
          [SimpleField (lit "street");
           ArrayField (lit "lines") (lit ";") (SimpleField (lit "lines"))]))
  ∧ lit "address" = take (name_run (lit "address[~]^(street^lines[;])"))
                      (lit "address[~]^(street^lines[;])").
Proof.
  apply (parsed_schema_well_formed (lit "address[~]^(street^lines[;])")).
  vm_compute. reflexivity.
Defined.

(** ** Decoding against a schema the header parser returned *)

Lemma well_formed_array_element used name d element :
  well_formed used (ArrayField name d element) →
  well_formed (used ∪ {[d]}) element.
Proof.
  inversion 1 as [| ? ? ? Hname | | ? ? ? c components Hname Hd Hc Hdin Hcin
                                      Hne Hcomps Hall]; subst.
  - by apply wf_simple.
  - apply wf_struct; auto.
    + rewrite not_elem_of_union, not_elem_of_singleton. auto.
    + rewrite <- (assoc_L (∪)), (comm_L (∪) {[d]}), (assoc_L (∪)).
      exact Hall.
Qed.

Lemma well_formed_array_delimiter used name d element :
  well_formed used (ArrayField name d element) → d ≠ [].
Proof. inversion 1; subst; by destruct d. Qed.

Lemma well_formed_struct used name c components :
  well_formed used (StructField name c components) →
  c ≠ [] ∧ components ≠ [] ∧ Forall (well_formed (used ∪ {[c]})) components.
Proof. inversion 1; subst. split; [by destruct c | auto]. Qed.

Lemma well_formed_decode_terminates schema :
  ∀ used, well_formed used schema →
  ∀ raw was_quoted, parse_value raw schema was_quoted ≠ NoReturn.
Proof.
  induction schema as [name | name d element IH | name c components IH]
    using Field_nested_ind; intros used Hwf raw was_quoted.
  - discriminate.
  - destruct was_quoted; [discriminate|].
    rewrite parse_value_array. unfold decode_array.
    destruct (bool_decide (raw = [])); [discriminate|].
    destruct (quote_aware_split_returns raw d) as (tokens & -> & _);
      [by eapply well_formed_array_delimiter|].
    simpl.
    destruct (for_each _ tokens) as [vs| |] eqn:Hloop; simpl; try discriminate.
    exfalso. revert Hloop. apply for_each_not_NoReturn.
    intros [token quoted] _.
    eapply IH. by eapply well_formed_array_element.
  - destruct was_quoted; [discriminate|].
    apply well_formed_struct in Hwf as (Hc & Hne & Hall).
    destruct (quote_aware_split_returns raw c Hc) as (tokens & Hsplit & _).
    rewrite (parse_value_struct _ _ _ _ _ Hne Hsplit).
    destruct (bool_decide (length components < length tokens)); [discriminate|].
    destruct (component_bindings components tokens) as [bs| |] eqn:Hloop;
      simpl; try discriminate.
    exfalso. revert Hloop. apply for_each_not_NoReturn.
    intros [n comp] Hin. apply list_elem_of_lookup in Hin as [m Hm].
    rewrite enumerate_from_lookup in Hm.
    destruct (components !! m) as [c'|] eqn:Hc'; [|discriminate].
    injection Hm as <- <-.
    unfold component_binding. simpl.
    destruct (tokens !! m) as [[token quoted]|]; [|discriminate].
    destruct (parse_value token c' quoted) as [v| |] eqn:Hv; simpl;
      try discriminate.
    exfalso. revert Hv.
    rewrite Forall_lookup in IH. eapply (IH m c' Hc').
    rewrite Forall_lookup in Hall. by eapply Hall.
Qed.

(** X7. Against a schema that [parse_field] returned, decoding any raw
    string always comes to an end: it returns a value or raises
    [InvalidQuotingError] or [ValueParseError]. *)
Theorem parsed_schema_decodes header schema raw was_quoted :
  parse_field header = Returns schema →
  (∃ v, parse_value raw schema was_quoted = Returns v)
  ∨ parse_value raw schema was_quoted = Raises InvalidQuotingError
  ∨ parse_value raw schema was_quoted = Raises ValueParseError.
Proof.
  intros Hparse. apply parsed_schema_well_formed_aux in Hparse.
  destruct (parse_value raw schema was_quoted) as [v|e|] eqn:Hv.
  - left. eauto.
  - right. destruct (parse_value_raises _ _ _ _ Hv) as [-> | ->]; auto.
  - by apply (well_formed_decode_terminates schema ∅ Hparse) in Hv.
Qed.

Lemma parsed_schema_decodes_witness :
  (∃ v, parse_value (lit "a~b") 
          (ArrayField (lit "tags") (lit "~") (SimpleField (lit "tags"))) false
        = Returns v)
  ∨ parse_value (lit "a~b")
      (ArrayField (lit "tags") (lit "~") (SimpleField (lit "tags"))) false
    = Raises InvalidQuotingError
  ∨ parse_value (lit "a~b")
      (ArrayField (lit "tags") (lit "~") (SimpleField (lit "tags"))) false
    = Raises ValueParseError.
Proof.
  apply (parsed_schema_decodes (lit "tags[]")). vm_compute. reflexivity.
Defined.

(** ** Splitting and joining *)

Lemma join_last_app (sep : str) (parts : list str) (p q : str) :
  join sep (parts ++ [p ++ q]) = join sep (parts ++ [p]) ++ q.
Proof.
  induction parts as [|x parts IH]; [reflexivity|].
  destruct parts as [|y parts].
  - simpl. by rewrite <- !app_assoc.
  - change (join sep ((x :: y :: parts) ++ [p ++ q]))
      with (x ++ sep ++ join sep ((y :: parts) ++ [p ++ q])).
    change (join sep ((x :: y :: parts) ++ [p]))
      with (x ++ sep ++ join sep ((y :: parts) ++ [p])).
    rewrite IH. by rewrite <- !app_assoc.
Qed.

Lemma join_snoc (sep : str) (parts : list str) (p : str) :
  parts ≠ [] → join sep (parts ++ [p]) = join sep parts ++ sep ++ p.
Proof.
  induction parts as [|x parts IH]; [done|]. intros _.
  destruct parts as [|y parts]; [reflexivity|].
  change (join sep ((x :: y :: parts) ++ [p]))
    with (x ++ sep ++ join sep ((y :: parts) ++ [p])).
  rewrite IH by done.
  change (join sep (x :: y :: parts)) with (x ++ sep ++ join sep (y :: parts)).
  by rewrite <- !app_assoc.
Qed.

Lemma take_slice (s d : str) (n : nat) :
  slice s n (n + length d) = d → take (n + length d) s = take n s ++ d.
Proof.
  unfold slice. replace (n + length d - n) with (length d) by lia.
  intros H. rewrite <- take_take_drop, H. reflexivity.
Qed.

Lemma take_next (s : str) (n : nat) (c : ascii) :
  s !! n = Some c → take (n + 1) s = take n s ++ [c].
Proof. intros H. rewrite Nat.add_1_r. by apply take_S_r. Qed.

Lemma bracket_loop_end fuel s delimiter :
  ∀ st st', bracket_aware_split_loop fuel s delimiter st = Returns st' →
            s !! b_i st' = None.
Proof.
  induction fuel as [|fuel IH]; intros st st'; simpl.
  - destruct (s !! b_i st) eqn:E; [discriminate|]. by intros [= <-].
  - destruct (s !! b_i st) eqn:E; [apply IH|]. by intros [= <-].
Qed.

Lemma bracket_aware_split_join (s delimiter : str) (parts : list str) :
  _bracket_aware_split s delimiter = Returns parts →
  join delimiter parts = s.
Proof.
  unfold _bracket_aware_split. intros H.
  apply bind_eq_Returns in H as (st & Hst & [= <-]).
  pose (P := λ st : bscan,
          join delimiter (b_parts st ++ [b_current st]) = take (b_i st) s).
  assert (HP : P st).
  { apply (bracket_loop_invariant P s delimiter) with (length s) (BScan [] [] 0%Z 0);
      [| reflexivity | exact Hst].
    clear. intros [parts cur depth n] c Hc HP. unfold P in *. simpl in *.
    unfold bracket_aware_split_step.
    repeat case_match; simpl;
      try (rewrite join_last_app, HP; symmetry; by apply take_next).
    match goal with
    | H : _ && _ = true |- _ => apply andb_true_iff in H as [_ Hs]
    end.
    apply bool_decide_eq_true in Hs.
    rewrite join_snoc by (by destruct parts).
    rewrite HP, app_nil_r. symmetry. by apply take_slice. }
  unfold P in HP. rewrite HP.
  apply bracket_loop_end in Hst. apply lookup_ge_None in Hst.
  by apply take_ge.
Qed.

(** X8. [_bracket_aware_split] loses nothing: it returns for every
    non-empty delimiter, with at least one part, and joining the parts with
    the delimiter gives the string back. *)
Theorem bracket_split_join :
  (∀ s delimiter, delimiter ≠ [] →
     ∃ parts, _bracket_aware_split s delimiter = Returns parts)
  ∧ (∀ s delimiter parts,
       _bracket_aware_split s delimiter = Returns parts →
       parts ≠ [] ∧ join delimiter parts = s).
Proof.
  split; [exact bracket_aware_split_returns|].
  intros s delimiter parts H. split.
  - by eapply bracket_aware_split_nonempty.
  - by apply bracket_aware_split_join.
Qed.

Lemma bracket_split_join_witness :
  [lit "sku"; lit "opts[^]:(k:v)"] ≠ []
  ∧ join (lit "^") [lit "sku"; lit "opts[^]:(k:v)"] = lit "sku^opts[^]:(k:v)".
Proof.
  apply (proj2 bracket_split_join (lit "sku^opts[^]:(k:v)") (lit "^")).
  vm_compute. reflexivity.
Defined.

Lemma scan_loop_end fuel s step :
  ∀ st st', scan_loop fuel s step st = Returns st' → s !! i st' = None.
Proof.
  induction fuel as [|fuel IH]; intros st st'; simpl.
  - destruct (s !! i st) eqn:E; [discriminate|]. by intros [= <-].
  - destruct (s !! i st) eqn:E; [apply IH|]. by intros [= <-].
Qed.

Lemma quote_free_split (s delimiter : str) (tokens : list (str * bool)) :
  dquote ∉ s →
  quote_aware_split s delimiter = Returns tokens →
  join delimiter tokens.*1 = s ∧ Forall (λ t, t.2 = false) tokens.
Proof.
  intros Hfree H. unfold quote_aware_split in H.
  apply bind_eq_Returns in H as (st & Hst & [= <-]).
  pose (P := λ st : scan,
          in_quotes st = false ∧ this_quoted st = false
          ∧ Forall (λ q, q = false) (quoted_flags st)
          ∧ length (values st) = length (quoted_flags st)
          ∧ join delimiter (values st ++ [current st]) = take (i st) s).
  assert (HP : P st).
  { apply (scan_loop_invariant P s (quote_aware_split_step s delimiter))
      with (length s) scan_init; [| by repeat split; simpl; auto | exact Hst].
    clear -Hfree. intros [vs fs cur tq inq n] c Hc (Hinq & Htq & Hfs & Hlen & Hj).
    simpl in *. subst inq tq.
    assert (Hne : c ≠ dquote).
    { intros ->. apply Hfree. by eapply list_elem_of_lookup_2. }
    unfold quote_aware_split_step, P.
    rewrite (bool_decide_eq_false_2 (c = dquote)) by exact Hne. simpl.
    destruct (bool_decide (slice s n (n + length delimiter) = delimiter)) eqn:Hs;
      simpl.
    - apply bool_decide_eq_true in Hs.
      split; [reflexivity|]. split; [reflexivity|].
      split; [apply Forall_app; split; [exact Hfs | by apply Forall_singleton]|].
      split; [rewrite !length_app; simpl; lia|].
      rewrite join_snoc by (by destruct vs).
      rewrite Hj, app_nil_r. symmetry. by apply take_slice.
    - split; [reflexivity|]. split; [reflexivity|].
      split; [exact Hfs|]. split; [exact Hlen|].
      rewrite join_last_app, Hj. symmetry. by apply take_next. }
  destruct HP as (_ & Htq & Hfs & Hlen & Hj).
  apply scan_loop_end in Hst. apply lookup_ge_None in Hst.
  unfold scan_result. split.
  - rewrite fst_zip by (rewrite !length_app; simpl; lia).
    rewrite Hj. by apply take_ge.
  - apply Forall_forall. intros [token q] Hin. simpl.
    apply (list_elem_of_fmap_2 snd) in Hin. simpl in Hin.
    rewrite snd_zip in Hin by (rewrite !length_app; simpl; lia).
    apply elem_of_app in Hin as [Hin|Hin].
    + rewrite Forall_forall in Hfs. by apply Hfs.
    + apply list_elem_of_singleton in Hin. congruence.
Qed.

(** X9. On a string without double quotes the quote-aware splitter, given
    a delimiter that is not empty, returns and is a plain split: no token
    is flagged as quoted, and joining the tokens with the delimiter gives
    the string back.  The row scanner does the same with a separator of
    one character. *)
Theorem split_without_quotes :
  (∀ s delimiter,
     delimiter ≠ [] → dquote ∉ s →
     ∃ tokens,
       quote_aware_split s delimiter = Returns tokens
       ∧ join delimiter tokens.*1 = s ∧ Forall (λ t, t.2 = false) tokens)
  ∧ (∀ line (sep : ascii),
       dquote ∉ line →
       ∃ cells,
         _parse_csv_row line [sep] = Returns cells
         ∧ join [sep] cells.*1 = line ∧ Forall (λ t, t.2 = false) cells).
Proof.
  split.
  - intros s delimiter Hd Hfree.
    destruct (quote_aware_split_returns s delimiter Hd) as (tokens & Hsplit & _).
    exists tokens. split; [exact Hsplit|].
    by apply (quote_free_split s delimiter).
  - intros line sep Hfree. rewrite parse_csv_row_single.
    destruct (quote_aware_split_returns line [sep] ltac:(discriminate))
      as (cells & Hsplit & _).
    exists cells. split; [exact Hsplit|].
    by apply (quote_free_split line [sep]).
Qed.

Lemma split_without_quotes_witness :
  ∃ tokens,
    quote_aware_split (lit "urgent||priority") (lit "|") = Returns tokens
    ∧ join (lit "|") tokens.*1 = lit "urgent||priority"
    ∧ Forall (λ t : str * bool, t.2 = false) tokens.
Proof.
  apply (proj1 split_without_quotes (lit "urgent||priority") (lit "|")).
  - discriminate.
  - apply (bool_decide_unpack _). vm_compute. exact I.
Defined.

(** ** Quoted tokens *)

Lemma quoted_run (delimiter : str) (vs : list str) (fs : list bool) (tq : bool)
    (t : str) :
  ∀ (s pre cur : str) (fuel : nat),
    s = pre ++ escape_quotes t ++ [dquote] →
    length (escape_quotes t) + 1 ≤ fuel →
    scan_loop fuel s (quote_aware_split_step s delimiter)
      (Scan vs fs cur tq true (length pre))
    = Returns (Scan vs fs (cur ++ t) tq false (length s)).
Proof.
  induction t as [|c t IH]; intros s pre cur fuel Hs Hfuel.
  - simpl in Hs, Hfuel. destruct fuel as [|fuel]; [lia|]. simpl.
    assert (H0 : s !! length pre = Some dquote)
      by (subst s; by apply list_lookup_middle).
    assert (Hlen : length s = length pre + 1)
      by (subst s; rewrite length_app; simpl; lia).
    rewrite H0.
    rewrite (bool_decide_eq_true_2 (dquote = dquote)) by reflexivity.
    rewrite (bool_decide_eq_false_2 (s !! (length pre + 1) = Some dquote))
      by (rewrite lookup_ge_None_2 by lia; discriminate).
    destruct fuel; simpl; rewrite lookup_ge_None_2 by lia;
      rewrite app_nil_r, Hlen; reflexivity.
  - unfold escape_quotes in Hs, Hfuel. simpl in Hs, Hfuel.
    fold (escape_quotes t) in Hs, Hfuel.
    destruct fuel as [|fuel]; [rewrite length_app in Hfuel; simpl in Hfuel;
                               destruct (bool_decide (c = dquote)); simpl in *; lia|].
    destruct (bool_decide (c = dquote)) eqn:Hc.
    + apply bool_decide_eq_true in Hc. subst c. simpl in Hs, Hfuel.
      cbn [scan_loop i].
      assert (H0 : s !! length pre = Some dquote)
        by (subst s; by apply list_lookup_middle).
      assert (H1 : s !! (length pre + 1) = Some dquote).
      { subst s. rewrite lookup_app_r by lia.
        replace (length pre + 1 - length pre) with 1 by lia. reflexivity. }
      rewrite H0. unfold quote_aware_split_step at 2.
      rewrite (bool_decide_eq_true_2 (dquote = dquote)) by reflexivity.
      rewrite (bool_decide_eq_true_2 _ H1).
      replace (length pre + 2) with (length (pre ++ [dquote; dquote]))
        by (rewrite length_app; simpl; lia).
      rewrite (IH s (pre ++ [dquote; dquote]) (cur ++ [dquote]) fuel).
      * by rewrite <- app_assoc.
      * subst s. by rewrite <- !app_assoc.
      * lia.
    + apply bool_decide_eq_false in Hc. simpl in Hs, Hfuel.
      cbn [scan_loop i].
      assert (H0 : s !! length pre = Some c)
        by (subst s; by apply list_lookup_middle).
      rewrite H0. unfold quote_aware_split_step at 2.
      rewrite (bool_decide_eq_false_2 (c = dquote)) by exact Hc.
      replace (length pre + 1) with (length (pre ++ [c]))
        by (rewrite length_app; simpl; lia).
      rewrite (IH s (pre ++ [c]) (cur ++ [c]) fuel).
      * by rewrite <- app_assoc.
      * subst s. by rewrite <- !app_assoc.
      * lia.
Qed.

(** X10. A token written between double quotes, its own double quotes
    doubled, is split off as that token, flagged as quoted, whatever it
    contains and whatever the delimiter is: delimiters and quotes inside
    it are content. *)
Theorem quoted_token_round_trip (t delimiter : str) :
  quote_aware_split (quote_token t) delimiter = Returns [(t, true)].
Proof.
  unfold quote_aware_split, quote_token, quoted.
  set (s := dquote :: escape_quotes t ++ [dquote]).
  assert (Hlen : length s = S (length (escape_quotes t) + 1))
    by (unfold s; simpl; rewrite length_app; reflexivity).
  rewrite Hlen. cbn [scan_loop scan_init i].
  change (s !! 0) with (Some dquote).
  unfold quote_aware_split_step at 2. simpl.
  change 1 with (length [dquote]) at 2.
  rewrite (quoted_run delimiter [] [] true t s [dquote] [] _ eq_refl (le_n _)).
  reflexivity.
Qed.

(** ** Logical lines *)

Lemma split_csv_lines_loop_acc_below (n : nat) :
  ∀ (rest : str), length rest ≤ n →
  ∀ (l0 lines : list str) (cur : str) (q : bool),
    split_csv_lines_loop rest (l0 ++ lines) cur q
    = ((l0 ++ (split_csv_lines_loop rest lines cur q).1),
       (split_csv_lines_loop rest lines cur q).2).
Proof.
  induction n as [|n IH]; intros rest Hlen l0 lines cur q.
  { destruct rest; [reflexivity | simpl in Hlen; lia]. }
  destruct rest as [|c rest]; [reflexivity|]. simpl in Hlen.
  assert (IH1 : ∀ l0 lines cur q,
    split_csv_lines_loop rest (l0 ++ lines) cur q
    = ((l0 ++ (split_csv_lines_loop rest lines cur q).1),
       (split_csv_lines_loop rest lines cur q).2))
    by (apply IH; lia).
  assert (IH2 : ∀ c' rest', rest = c' :: rest' → ∀ l0 lines cur q,
    split_csv_lines_loop rest' (l0 ++ lines) cur q
    = ((l0 ++ (split_csv_lines_loop rest' lines cur q).1),
       (split_csv_lines_loop rest' lines cur q).2)).
  { intros c' rest' ->. apply IH. simpl in Hlen. lia. }
  simpl.
  destruct (bool_decide (c = dquote)).
  - destruct q, rest as [|c' rest']; try apply IH1.
    destruct (bool_decide (c' = dquote)); [by eapply IH2 | apply IH1].
  - destruct (bool_decide (c = CR) && negb q).
    + destruct rest as [|c' rest'].
      * rewrite <- app_assoc. apply IH1.
      * destruct (bool_decide (c' = LF)); rewrite <- app_assoc;
          [by eapply IH2 | apply IH1].
    + destruct (bool_decide (c = LF) && negb q);
        [rewrite <- app_assoc|]; apply IH1.
Qed.

Lemma split_csv_lines_loop_acc (rest : str) :
  ∀ (l0 lines : list str) (cur : str) (q : bool),
    split_csv_lines_loop rest (l0 ++ lines) cur q
    = ((l0 ++ (split_csv_lines_loop rest lines cur q).1),
       (split_csv_lines_loop rest lines cur q).2).
Proof. by apply (split_csv_lines_loop_acc_below (length rest)). Qed.

(** Inside quotes everything but a double quote is content. *)
Lemma split_csv_lines_loop_quoted (body rest : str) :
  dquote ∉ body →
  ∀ lines cur,
    split_csv_lines_loop (body ++ rest) lines cur true
    = split_csv_lines_loop rest lines (cur ++ body) true.
Proof.
  induction body as [|c body IH]; intros Hfree lines cur.
  - by rewrite app_nil_r.
  - apply not_elem_of_cons in Hfree as [Hc Hfree]. simpl.
    rewrite (bool_decide_eq_false_2 (c = dquote)) by congruence.
    rewrite !andb_false_r. rewrite IH by exact Hfree.
    by rewrite <- app_assoc.
Qed.

(** Outside quotes everything but a double quote and a line terminator is
    content. *)
Lemma split_csv_lines_loop_plain (a rest : str) :
  dquote ∉ a → CR ∉ a → LF ∉ a →
  ∀ lines cur,
    split_csv_lines_loop (a ++ rest) lines cur false
    = split_csv_lines_loop rest lines (cur ++ a) false.
Proof.
  induction a as [|c a IH]; intros Hq Hcr Hlf lines cur.
  - by rewrite app_nil_r.
  - apply not_elem_of_cons in Hq as [Hq1 Hq].
    apply not_elem_of_cons in Hcr as [Hcr1 Hcr].
    apply not_elem_of_cons in Hlf as [Hlf1 Hlf]. simpl.
    rewrite (bool_decide_eq_false_2 (c = dquote)) by congruence.
    rewrite (bool_decide_eq_false_2 (c = CR)) by congruence.
    rewrite (bool_decide_eq_false_2 (c = LF)) by congruence.
    simpl. rewrite IH by assumption. by rewrite <- app_assoc.
Qed.

Lemma split_csv_lines_cons (cur rest : str) :
  (let '(lines, current) := split_csv_lines_loop rest [cur] [] false in
   if bool_decide (current ≠ []) then lines ++ [current] else lines)
  = cur :: _split_csv_lines rest.
Proof.
  unfold _split_csv_lines.
  pose proof (split_csv_lines_loop_acc rest [cur] [] [] false) as Hacc.
  simpl in Hacc. rewrite Hacc.
  destruct (split_csv_lines_loop rest [] [] false) as [lines current]. simpl.
  destruct (bool_decide (current ≠ [])); reflexivity.
Qed.

(** X11. Logical lines of text outside quotes.  A stretch of text without
    double quotes and line terminators is one line, ended alike by LF, by
    CR LF and by a CR that no LF follows; the last line needs no
    terminator, and a terminator at the end of the text opens no further
    line. *)
Theorem lines_outside_quotes (a b : str) :
  dquote ∉ a → CR ∉ a → LF ∉ a →
  _split_csv_lines (a ++ [LF] ++ b) = a :: _split_csv_lines b
  ∧ _split_csv_lines (a ++ [CR; LF] ++ b) = a :: _split_csv_lines b
  ∧ (head b ≠ Some LF →
     _split_csv_lines (a ++ [CR] ++ b) = a :: _split_csv_lines b)
  ∧ _split_csv_lines a = (if bool_decide (a ≠ []) then [a] else [])
  ∧ _split_csv_lines (a ++ [LF]) = [a].
Proof.
  intros Hq Hcr Hlf.
  assert (H1 : _split_csv_lines (a ++ [LF] ++ b) = a :: _split_csv_lines b).
  { unfold _split_csv_lines at 1.
    rewrite split_csv_lines_loop_plain by assumption. simpl.
    apply split_csv_lines_cons. }
  split; [exact H1|]. split; [|split; [|split]].
  - unfold _split_csv_lines at 1.
    rewrite split_csv_lines_loop_plain by assumption. simpl.
    apply split_csv_lines_cons.
  - intros Hb. unfold _split_csv_lines at 1.
    rewrite split_csv_lines_loop_plain by assumption. simpl.
    destruct b as [|c b]; [apply split_csv_lines_cons|].
    rewrite (bool_decide_eq_false_2 (c = LF)) by (intros ->; by apply Hb).
    apply split_csv_lines_cons.
  - unfold _split_csv_lines.
    rewrite <- (app_nil_r a) at 1.
    rewrite split_csv_lines_loop_plain by assumption. simpl.
    destruct (bool_decide (a ≠ [])); reflexivity.
  - unfold _split_csv_lines.
    rewrite split_csv_lines_loop_plain by assumption. reflexivity.
Qed.

Lemma lines_outside_quotes_witness :
  _split_csv_lines (lit "id,name" ++ [CR; LF] ++ lit "1,Alice")
  = lit "id,name" :: _split_csv_lines (lit "1,Alice").
Proof.
  refine (proj1 (proj2 (lines_outside_quotes (lit "id,name") (lit "1,Alice")
                          _ _ _))).
  - apply (bool_decide_unpack _). vm_compute. exact I.
  - apply (bool_decide_unpack _). vm_compute. exact I.
  - apply (bool_decide_unpack _). vm_compute. exact I.
Defined.

Lemma split_csv_lines_loop_open (rest : str) lines cur :
  split_csv_lines_loop (dquote :: rest) lines cur false
  = split_csv_lines_loop rest lines (cur ++ [dquote]) true.
Proof.
  cbn [split_csv_lines_loop].
  rewrite (bool_decide_eq_true_2 (dquote = dquote)) by reflexivity.
  reflexivity.
Qed.

Lemma split_csv_lines_loop_close (post : str) lines cur :
  dquote ∉ post →
  split_csv_lines_loop (dquote :: post) lines cur true
  = split_csv_lines_loop post lines (cur ++ [dquote]) false.
Proof.
  intros Hpost. cbn [split_csv_lines_loop].
  rewrite (bool_decide_eq_true_2 (dquote = dquote)) by reflexivity.
  destruct post as [|c post]; [reflexivity|].
  apply not_elem_of_cons in Hpost as [Hc _].
  rewrite (bool_decide_eq_false_2 (c = dquote)) by congruence.
  reflexivity.
Qed.

(** X12. A line terminator between double quotes does not end the line:
    text that has a quoted stretch, and otherwise neither quotes nor line
    terminators, is one logical line, unchanged. *)
Theorem quoted_line_terminators (pre body post : str) :
  dquote ∉ pre → CR ∉ pre → LF ∉ pre →
  dquote ∉ body →
  dquote ∉ post → CR ∉ post → LF ∉ post →
  _split_csv_lines (pre ++ quoted body ++ post) = [pre ++ quoted body ++ post].
Proof.
  intros Hq1 Hcr1 Hlf1 Hb Hq2 Hcr2 Hlf2.
  unfold _split_csv_lines.
  assert (Htext : quoted body ++ post = dquote :: body ++ dquote :: post)
    by (unfold quoted; simpl; by rewrite <- app_assoc).
  rewrite Htext.
  rewrite split_csv_lines_loop_plain by assumption.
  rewrite split_csv_lines_loop_open.
  rewrite split_csv_lines_loop_quoted by assumption.
  rewrite split_csv_lines_loop_close by assumption.
  rewrite <- (app_nil_r post) at 1.
  rewrite split_csv_lines_loop_plain by assumption.
  cbn [split_csv_lines_loop].
  rewrite bool_decide_eq_true_2.
  - simpl. f_equal. rewrite <- !app_assoc. reflexivity.
  - simpl. intros H. apply app_eq_nil in H as [H _].
    apply app_eq_nil in H as [_ H]. discriminate.
Qed.

Lemma quoted_line_terminators_witness :
  _split_csv_lines (lit "1," ++ quoted [CR; LF] ++ lit ",x")
  = [lit "1," ++ quoted [CR; LF] ++ lit ",x"].
Proof.
  apply (quoted_line_terminators (lit "1,") [CR; LF] (lit ",x"));
    apply (bool_decide_unpack _); vm_compute; exact I.
Defined.

(** ** One record per data line *)

(** X13. When [parse] returns, it returns one record for every line after
    the first that is not blank, in order: the record of a line is the
    decoding, against the schemas of the header, of the cells of that line.
    A row is never empty, so the check [len(raw_row) == 0] skips nothing;
    blank lines are the only lines left out. *)
Theorem record_per_line
    (csv_reader_next : str → str → reader_result)
    (text field_sep : str) (records : list (list (str * Value))) :
  parse csv_reader_next text field_sep = Returns records →
  ∃ raw_headers schemas,
    csv_reader_next text field_sep = FirstRecord raw_headers
    ∧ parse_header_row raw_headers = Returns schemas
    ∧ Forall2 (λ line record,
         ∃ cells, _parse_csv_row line field_sep = Returns cells
                  ∧ parse_record schemas cells = Returns record)
        (filter (λ line, strip line ≠ []) (drop 1 (_split_csv_lines text)))
        records
    ∧ length records
      = length (filter (λ line, strip line ≠ [])
                  (drop 1 (_split_csv_lines text))).
Proof.
  unfold parse. intros H.
  destruct (csv_reader_next text field_sep) as [raw_headers| | |];
    try discriminate.
  apply bind_eq_Returns in H as (schemas & Hschemas & H).
  apply bind_eq_Returns in H as (rows & Hrows & H).
  exists raw_headers, schemas. split; [reflexivity|]. split; [exact Hschemas|].
  unfold _iter_rows_with_quoting in Hrows. apply for_each_Returns in Hrows.
  assert (Hnonempty : Forall (λ raw_row : list (str * bool), length raw_row ≠ 0) rows).
  { clear H. induction Hrows as [|line row lines rows Hline _ IH];
      constructor; [|exact IH].
    destruct (parse_csv_row_cells line field_sep) as (cells & Hcells & Hlen).
    rewrite Hcells in Hline. injection Hline as <-. lia. }
  rewrite (filter_all _ rows Hnonempty) in H. apply for_each_Returns in H.
  assert (Hall : Forall2 (λ line record,
            ∃ cells, _parse_csv_row line field_sep = Returns cells
                     ∧ parse_record schemas cells = Returns record)
            (filter (λ line, strip line ≠ []) (drop 1 (_split_csv_lines text)))
            records).
  { clear Hnonempty. revert records H.
    induction Hrows as [|line row lines rows Hline _ IH]; intros records H.
    - inversion H. constructor.
    - inversion H as [|? record ? records' Hrec Hrest]; subst.
      constructor; [eauto | by apply IH]. }
  split; [exact Hall|]. symmetry. by eapply Forall2_length.
Qed.

Lemma record_per_line_witness :
  ∃ raw_headers schemas,
    first_line_reader (lit "id" ++ [LF; LF] ++ lit "7" ++ [LF]) (lit ",")
    = FirstRecord raw_headers
    ∧ parse_header_row raw_headers = Returns schemas
    ∧ Forall2 (λ line record,
         ∃ cells, _parse_csv_row line (lit ",") = Returns cells
                  ∧ parse_record schemas cells = Returns record)
        (filter (λ line, strip line ≠ [])
           (drop 1 (_split_csv_lines (lit "id" ++ [LF; LF] ++ lit "7" ++ [LF]))))
        [[(lit "id", VStr (lit "7"))]]
    ∧ length [[(lit "id", VStr (lit "7"))]]
      = length (filter (λ line, strip line ≠ [])
                  (drop 1 (_split_csv_lines
                             (lit "id" ++ [LF; LF] ++ lit "7" ++ [LF])))).
Proof.
  apply (record_per_line first_line_reader
           (lit "id" ++ [LF; LF] ++ lit "7" ++ [LF]) (lit ",")).
  vm_compute. reflexivity.
Defined.

(** ** The shape of decoded values *)

Lemma dict_set_entries {V} (d : list (str * V)) k v kv :
  kv ∈ dict_set d k v → kv = (k, v) ∨ kv ∈ d.
Proof.
  induction d as [|[k' v'] d IH]; simpl.
  - rewrite list_elem_of_singleton. auto.
  - destruct (bool_decide (k' = k)); rewrite !elem_of_cons; [tauto|].
    intros [?|?]; [auto|]. destruct IH; auto.
Qed.

Lemma dict_of_entries {V} (d bs : list (str * V)) kv :
  kv ∈ dict_of d bs → kv ∈ d ∨ kv ∈ bs.
Proof.
  revert d. induction bs as [|[k v] bs IH]; intros d; simpl; [auto|].
  intros H. apply IH in H as [H|H]; [|right; by apply list_elem_of_further].
  apply dict_set_entries in H as [->|H]; [right; apply list_elem_of_here | auto].
Qed.

Lemma parse_value_conforms schema :
  ∀ raw was_quoted v,
    parse_value raw schema was_quoted = Returns v → conforms schema v.
Proof.
  induction schema as [name | name delimiter element IH
                      | name cd components IH] using Field_nested_ind;
    intros raw was_quoted v Hv.
  - injection Hv as <-. constructor.
  - destruct was_quoted; [discriminate|].
    rewrite parse_value_array in Hv. unfold decode_array in Hv.
    destruct (bool_decide (raw = [])).
    { injection Hv as <-. constructor. constructor. }
    apply bind_eq_Returns in Hv as (tokens & _ & Hv).
    apply bind_eq_Returns in Hv as (vs & Hvs & [= <-]).
    constructor. apply for_each_Returns in Hvs.
    induction Hvs as [|[token quoted] v' tokens vs Htoken _ IHvs];
      constructor; [by eapply IH | exact IHvs].
  - destruct was_quoted; [discriminate|].
    destruct (parse_struct_last_wins _ _ _ _ _ Hv) as (d & -> & Hnd & Hkeys & _).
    constructor; [exact Hnd | exact Hkeys |].
    destruct (decide (components = [])) as [->|Hne].
    { injection Hv as <-. constructor. }
    destruct (quote_aware_split raw cd) as [tokens|e|] eqn:Hsplit.
    2,3: simpl in Hv; rewrite bool_decide_eq_false_2 in Hv by exact Hne;
         rewrite Hsplit in Hv; discriminate.
    rewrite (parse_value_struct _ _ _ _ _ Hne Hsplit) in Hv.
    destruct (bool_decide (length components < length tokens)); [discriminate|].
    apply bind_eq_Returns in Hv as (bs & Hbs & Hd).
    simpl in Hd. injection Hd as <-.
    apply Forall_forall. intros kv Hin.
    apply dict_of_entries in Hin as [Hin|Hin]; [by apply elem_of_nil in Hin|].
    apply for_each_Returns in Hbs.
    apply list_elem_of_lookup in Hin as [n Hn].
    destruct (Forall2_lookup_r _ _ _ _ _ Hbs Hn) as ([m comp] & Hm & Hb).
    rewrite enumerate_from_lookup in Hm.
    destruct (components !! n) as [c|] eqn:Hc; [|discriminate].
    injection Hm as <- <-.
    exists c. split; [by eapply list_elem_of_lookup_2|].
    unfold component_binding in Hb. simpl in Hb.
    destruct (tokens !! n) as [[token quoted]|].
    + apply bind_eq_Returns in Hb as (v & Hv & [= <-]). simpl.
      split; [reflexivity|]. right.
      rewrite Forall_lookup in IH. by eapply (IH n c Hc).
    + injection Hb as <-. simpl. auto.
Qed.

(** X14. A decoded value has the shape of its schema: a string for a
    [SimpleField], a list of values of the element type for an
    [ArrayField], and for a [StructField] a dict with every component name
    once, each entry holding a value of a component of that name or
    [None].  So [None] is never the value of a cell or an item of an
    array. *)
Theorem decoded_value_conforms raw schema was_quoted v :
  parse_value raw schema was_quoted = Returns v →
  conforms schema v
  ∧ v ≠ VNone
  ∧ ∀ vs, v = VList vs → VNone ∉ vs.
Proof.
  intros Hv. apply parse_value_conforms in Hv.
  split; [exact Hv|]. split.
  - intros ->. inversion Hv.
  - intros vs ->. inversion Hv as [|? ? element ? Hall|]; subst.
    intros Hin. rewrite Forall_forall in Hall.
    specialize (Hall VNone Hin). inversion Hall.
Qed.

Lemma decoded_value_conforms_witness :
  conforms (StructField (lit "geo") (lit "^")
              [SimpleField (lit "lat"); SimpleField (lit "lon")])
    (VDict [(lit "lat", VStr (lit "34.05")); (lit "lon", VNone)])
  ∧ VDict [(lit "lat", VStr (lit "34.05")); (lit "lon", VNone)] ≠ VNone
  ∧ ∀ vs, VDict [(lit "lat", VStr (lit "34.05")); (lit "lon", VNone)]
          = VList vs → VNone ∉ vs.
Proof.
  apply (decoded_value_conforms (lit "34.05")
           (StructField (lit "geo") (lit "^")
              [SimpleField (lit "lat"); SimpleField (lit "lon")]) false).
  vm_compute. reflexivity.
Defined.

(** ** Empty cells *)

Lemma quote_aware_split_empty delimiter :
  quote_aware_split [] delimiter = Returns [([], false)].
Proof. reflexivity. Qed.

Lemma component_bindings_missing (tokens : list (str * bool)) (rest : list Field) :
  ∀ start, length tokens ≤ start →
  for_each (component_binding tokens) (enumerate_from start rest)
  = Returns ((λ r, (field_name r, VNone)) <$> rest).
Proof.
  induction rest as [|r rest IH]; intros start Hstart; [reflexivity|].
  rewrite enumerate_from_cons. cbn [for_each].
  rewrite component_binding_missing by (apply lookup_ge_None_2; lia).
  simpl. rewrite IH by lia. reflexivity.
Qed.

(** X15. The empty cell, which is also what a row too short for its
    header leaves to a column: a scalar is the empty string, an array is the
    empty list, and a struct with components binds its first component to
    the decoding of the empty string and every other component to
    [None]. *)
Theorem empty_cell :
  (∀ name was_quoted,
     parse_value [] (SimpleField name) was_quoted = Returns (VStr []))
  ∧ (∀ name delimiter element,
       parse_value [] (ArrayField name delimiter element) false
       = Returns (VList []))
  ∧ (∀ name component_delimiter comp rest,
       parse_value [] (StructField name component_delimiter (comp :: rest)) false
       = (v ← parse_value [] comp false;
          Returns (VDict (dict_of []
                     ((field_name comp, v)
                      :: ((λ r, (field_name r, VNone)) <$> rest))))))
  ∧ (∀ (row : list (str * bool)) (n : nat),
       length row ≤ n → cell row n = ([], false)).
Proof.
  split; [reflexivity|]. split; [reflexivity|]. split.
  - intros name cd comp rest.
    rewrite (parse_value_struct name cd (comp :: rest) [] [([], false)]);
      [|discriminate|apply quote_aware_split_empty].
    rewrite bool_decide_eq_false_2 by (simpl; lia).
    unfold component_bindings. rewrite enumerate_from_cons. cbn [for_each].
    rewrite (component_binding_token [([], false)] 0 comp [] false eq_refl).
    destruct (parse_value [] comp false) as [v| |]; simpl; try reflexivity.
    rewrite component_bindings_missing by (simpl; lia). reflexivity.
  - intros row n Hrow. unfold cell.
    by rewrite lookup_ge_None_2.
Qed.

Lemma empty_cell_witness :
  cell [(lit "1", false)] 1 = ([], false).
Proof.
  apply (proj2 (proj2 (proj2 empty_cell)) [(lit "1", false)] 1).
  simpl. lia.
Defined.

(** ** Splitting token by token *)

Lemma slice_app_shift (pre rest : str) (a b : nat) :
  slice (pre ++ rest) (length pre + a) (length pre + b) = slice rest a b.
Proof.
  unfold slice. rewrite drop_app_add'  by reflexivity.
  f_equal. lia.
Qed.

Lemma quote_aware_split_step_shift (pre rest d : str) vs0 fs0 st ch :
  quote_aware_split_step (pre ++ rest) d (scan_shift (length pre) vs0 fs0 st) ch
  = scan_shift (length pre) vs0 fs0 (quote_aware_split_step rest d st ch).
Proof.
  destruct st as [vs fs cur tq inq n]. unfold scan_shift. simpl.
  replace (length pre + n + 1) with (length pre + (n + 1)) by lia.
  rewrite lookup_app_r by lia.
  replace (length pre + (n + 1) - length pre) with (n + 1) by lia.
  replace (length pre + n + length d) with (length pre + (n + length d)) by lia.
  rewrite slice_app_shift.
  destruct inq; simpl.
  - destruct (bool_decide (ch = dquote)); simpl;
      [destruct (bool_decide (rest !! (n + 1) = Some dquote)); simpl|];
      f_equal; lia.
  - destruct (bool_decide (ch = dquote) && bool_decide (cur = [])); simpl;
      [f_equal; lia|].
    destruct (bool_decide (slice rest n (n + length d) = d)); simpl;
      rewrite ?app_assoc; f_equal; lia.
Qed.

Lemma scan_loop_shift (pre rest d : str) vs0 fs0 :
  ∀ fuel st r,
    scan_loop fuel rest (quote_aware_split_step rest d) st = Returns r →
    scan_loop fuel (pre ++ rest) (quote_aware_split_step (pre ++ rest) d)
              (scan_shift (length pre) vs0 fs0 st)
    = Returns (scan_shift (length pre) vs0 fs0 r).
Proof.
  induction fuel as [|fuel IH]; intros st r H;
    assert (Hl : (pre ++ rest) !! i (scan_shift (length pre) vs0 fs0 st)
                 = rest !! i st)
      by (unfold scan_shift; simpl; rewrite lookup_app_r by lia; f_equal; lia);
    cbn [scan_loop] in *; rewrite Hl;
    destruct (rest !! i st) as [ch|] eqn:Hch; try discriminate;
    try (by injection H as <-).
  rewrite quote_aware_split_step_shift. by apply IH.
Qed.

Lemma scan_loop_more_fuel (s : str) (step : scan → ascii → scan) :
  ∀ fuel fuel' st r,
    scan_loop fuel s step st = Returns r → fuel ≤ fuel' →
    scan_loop fuel' s step st = Returns r.
Proof.
  induction fuel as [|fuel IH]; intros fuel' st r; simpl.
  - destruct (s !! i st) eqn:E; [discriminate|]. intros [= <-] _.
    destruct fuel'; simpl; by rewrite E.
  - destruct (s !! i st) eqn:E.
    + intros H Hle. destruct fuel' as [|fuel']; [lia|]. simpl. rewrite E.
      apply (IH fuel'); [exact H | lia].
    + intros [= <-] _. destruct fuel'; simpl; by rewrite E.
Qed.

Lemma slice_prefix (u v : str) (b : nat) :
  b ≤ length u → slice (u ++ v) 0 b = slice u 0 b.
Proof.
  intros Hb. unfold slice. rewrite !drop_0, Nat.sub_0_r.
  by rewrite take_app_le.
Qed.

Lemma slice_delimiter_here (pre d rest : str) :
  slice (pre ++ d ++ rest) (length pre) (length pre + length d) = d.
Proof.
  replace (length pre) with (length pre + 0) at 1 by lia.
  rewrite slice_app_shift. unfold slice. rewrite drop_0, Nat.sub_0_r.
  by rewrite take_app_length.
Qed.

Lemma delimiter_free_tail (d : str) (x : ascii) (a : str) :
  delimiter_free d (x :: a) → delimiter_free d a.
Proof.
  intros Hd k Hk. specialize (Hd (S k) ltac:(simpl; lia)).
  intros Heq. apply Hd.
  change ((x :: a) ++ d) with ([x] ++ (a ++ d)).
  change (S k) with (length [x] + k) at 1.
  change (S k + length d) with (length [x] + (k + length d)).
  by rewrite slice_app_shift.
Qed.

Lemma not_opening_quote (x : ascii) (cur a : str) :
  cur ≠ [] ∨ head (x :: a) ≠ Some dquote →
  bool_decide (x = dquote) && bool_decide (cur = []) = false.
Proof.
  intros [Hcur|Hx].
  - rewrite (bool_decide_eq_false_2 (cur = [])) by exact Hcur.
    by destruct (bool_decide (x = dquote)).
  - rewrite (bool_decide_eq_false_2 (x = dquote)); [reflexivity|].
    intros ->. by apply Hx.
Qed.

(** An unquoted stretch [a] and the delimiter after it: one token more. *)
Lemma plain_run (d rest : str) vs fs tq :
  d ≠ [] → head d ≠ Some dquote →
  ∀ (a pre cur : str) (s : str) (fuel : nat) (r : scan),
    s = pre ++ a ++ d ++ rest →
    cur ≠ [] ∨ head a ≠ Some dquote → delimiter_free d a →
    scan_loop fuel s (quote_aware_split_step s d)
      (Scan (vs ++ [cur ++ a]) (fs ++ [tq]) [] false false
            (length pre + length a + length d)) = Returns r →
    scan_loop (length a + 1 + fuel) s (quote_aware_split_step s d)
      (Scan vs fs cur tq false (length pre)) = Returns r.
Proof.
  intros Hd Hhead.
  induction a as [|x a IH]; intros pre cur s fuel r Hs Hquote Hfree Hr.
  - simpl in Hs. cbn [length Nat.add scan_loop i].
    destruct d as [|d0 d']; [done|].
    assert (H0 : s !! length pre = Some d0)
      by (subst s; by apply list_lookup_middle).
    rewrite H0. unfold quote_aware_split_step at 2.
    rewrite (bool_decide_eq_false_2 (d0 = dquote))
      by (intros ->; by apply Hhead).
    cbn [andb].
    rewrite bool_decide_eq_true_2 by (subst s; apply slice_delimiter_here).
    rewrite app_nil_r, Nat.add_0_r in Hr. exact Hr.
  - cbn [length Nat.add scan_loop i].
    assert (H0 : s !! length pre = Some x)
      by (subst s; by apply list_lookup_middle).
    rewrite H0. unfold quote_aware_split_step at 2.
    rewrite (not_opening_quote x cur a Hquote).
    rewrite bool_decide_eq_false_2.
    + replace (length pre + 1) with (length (pre ++ [x]))
        by (rewrite length_app; simpl; lia).
      apply (IH (pre ++ [x]) (cur ++ [x]) s fuel r).
      * subst s. by rewrite <- app_assoc.
      * left. by destruct cur.
      * by apply delimiter_free_tail in Hfree.
      * rewrite length_app. simpl. rewrite <- app_assoc. simpl.
        replace (length pre + 1 + length a) with (length pre + S (length a))
          by lia. exact Hr.
    + specialize (Hfree 0 ltac:(simpl; lia)).
      intros Heq. apply Hfree. subst s.
      replace (length pre) with (length pre + 0) in Heq at 1 by lia.
      rewrite slice_app_shift in Heq.
      rewrite (app_assoc (x :: a) d rest) in Heq.
      rewrite slice_prefix in Heq by (rewrite length_app; simpl; lia).
      exact Heq.
Qed.

(** The inside of a quoted token up to its closing quote. *)
Lemma quoted_run_closing (d post : str) vs fs tq :
  head post ≠ Some dquote →
  ∀ (t pre cur : str) (s : str) (fuel : nat) (r : scan),
    s = pre ++ escape_quotes t ++ [dquote] ++ post →
    scan_loop fuel s (quote_aware_split_step s d)
      (Scan vs fs (cur ++ t) tq false
            (length pre + length (escape_quotes t) + 1)) = Returns r →
    scan_loop (length t + 1 + fuel) s (quote_aware_split_step s d)
      (Scan vs fs cur tq true (length pre)) = Returns r.
Proof.
  intros Hpost. induction t as [|c t IH]; intros pre cur s fuel r Hs Hr.
  - simpl in Hs. cbn [length Nat.add scan_loop i].
    assert (H0 : s !! length pre = Some dquote)
      by (subst s; by apply list_lookup_middle).
    rewrite H0. unfold quote_aware_split_step at 2.
    rewrite (bool_decide_eq_true_2 (dquote = dquote)) by reflexivity.
    rewrite bool_decide_eq_false_2.
    + simpl in Hr. rewrite app_nil_r, Nat.add_0_r in Hr. exact Hr.
    + subst s. rewrite lookup_app_r by lia.
      replace (length pre + 1 - length pre) with 1 by lia.
      simpl. by destruct post.
  - unfold escape_quotes in Hs, Hr. simpl in Hs, Hr.
    fold (escape_quotes t) in Hs, Hr.
    cbn [length Nat.add scan_loop i].
    destruct (bool_decide (c = dquote)) eqn:Hc.
    + apply bool_decide_eq_true in Hc. subst c. simpl in Hs, Hr.
      assert (H0 : s !! length pre = Some dquote)
        by (subst s; by apply list_lookup_middle).
      assert (H1 : s !! (length pre + 1) = Some dquote).
      { subst s. rewrite lookup_app_r by lia.
        replace (length pre + 1 - length pre) with 1 by lia. reflexivity. }
      rewrite H0. unfold quote_aware_split_step at 2.
      rewrite (bool_decide_eq_true_2 (dquote = dquote)) by reflexivity.
      rewrite (bool_decide_eq_true_2 _ H1).
      replace (length pre + 2) with (length (pre ++ [dquote; dquote]))
        by (rewrite length_app; simpl; lia).
      apply (IH (pre ++ [dquote; dquote]) (cur ++ [dquote]) s fuel r).
      * subst s. by rewrite <- !app_assoc.
      * rewrite length_app. simpl. rewrite <- app_assoc. simpl.
        replace (length pre + 2 + length (escape_quotes t) + 1)
          with (length pre + S (S (length (escape_quotes t))) + 1) by lia.
        exact Hr.
    + apply bool_decide_eq_false in Hc. simpl in Hs, Hr.
      assert (H0 : s !! length pre = Some c)
        by (subst s; by apply list_lookup_middle).
      rewrite H0. unfold quote_aware_split_step at 2.
      rewrite (bool_decide_eq_false_2 (c = dquote)) by exact Hc.
      replace (length pre + 1) with (length (pre ++ [c]))
        by (rewrite length_app; simpl; lia).
      apply (IH (pre ++ [c]) (cur ++ [c]) s fuel r).
      * subst s. by rewrite <- !app_assoc.
      * rewrite length_app. simpl. rewrite <- app_assoc. simpl.
        replace (length pre + 1 + length (escape_quotes t) + 1)
          with (length pre + S (length (escape_quotes t)) + 1) by lia.
        exact Hr.
Qed.

Lemma scan_result_shift (n : nat) (a : str) (q : bool) (st : scan) :
  scan_result (scan_shift n [a] [q] st) = (a, q) :: scan_result st.
Proof. by destruct st. Qed.

Lemma escape_quotes_length (t : str) : length t ≤ length (escape_quotes t).
Proof.
  induction t as [|c t IH]; [reflexivity|].
  unfold escape_quotes. simpl. fold (escape_quotes t).
  rewrite length_app. destruct (bool_decide (c = dquote)); simpl; lia.
Qed.

Lemma split_plain_cons (a d rest : str) (tokens : list (str * bool)) :
  d ≠ [] → head d ≠ Some dquote → plain_token d a →
  quote_aware_split rest d = Returns tokens →
  quote_aware_split (a ++ d ++ rest) d = Returns ((a, false) :: tokens).
Proof.
  intros Hd Hhead Hplain H. unfold quote_aware_split in *.
  apply bind_eq_Returns in H as (st & Hst & [= <-]).
  apply (scan_loop_shift (a ++ d) rest d [a] [false]) in Hst.
  rewrite <- app_assoc in Hst.
  set (s := a ++ d ++ rest) in *.
  assert (Hd1 : 1 ≤ length d) by (destruct d; [done | simpl; lia]).
  rewrite (scan_loop_more_fuel s _ (length a + 1 + length rest) (length s)
             scan_init (scan_shift (length (a ++ d)) [a] [false] st)).
  - simpl. by rewrite scan_result_shift.
  - destruct Hplain as [Hquote Hfree].
    apply (plain_run d rest [] [] false Hd Hhead a [] [] s);
      [reflexivity | by right | exact Hfree |].
    simpl.
    replace (Scan [a] [false] [] false false (length a + length d))
      with (scan_shift (length (a ++ d)) [a] [false] scan_init)
      by (unfold scan_shift, scan_init; simpl; rewrite length_app;
          f_equal; lia).
    exact Hst.
  - unfold s. rewrite !length_app. lia.
Qed.

Lemma split_quoted_cons (t d rest : str) (tokens : list (str * bool)) :
  d ≠ [] → head d ≠ Some dquote →
  quote_aware_split rest d = Returns tokens →
  quote_aware_split (quote_token t ++ d ++ rest) d = Returns ((t, true) :: tokens).
Proof.
  intros Hd Hhead H. unfold quote_aware_split in *.
  apply bind_eq_Returns in H as (st & Hst & [= <-]).
  apply (scan_loop_shift (quote_token t ++ d) rest d [t] [true]) in Hst.
  rewrite <- app_assoc in Hst.
  set (s := quote_token t ++ d ++ rest) in *.
  assert (Hd1 : 1 ≤ length d) by (destruct d; [done | simpl; lia]).
  assert (Hs : s = [dquote] ++ escape_quotes t ++ [dquote] ++ d ++ rest).
  { unfold s, quote_token, quoted. simpl. by rewrite <- app_assoc. }
  pose proof (escape_quotes_length t) as Ht.
  rewrite (scan_loop_more_fuel s _ (1 + (length t + 1 + (0 + 1 + length rest)))
             (length s) scan_init
             (scan_shift (length (quote_token t ++ d)) [t] [true] st)).
  - simpl. by rewrite scan_result_shift.
  - cbn [Nat.add scan_loop scan_init i].
    assert (H0 : s !! 0 = Some dquote) by (by rewrite Hs).
    rewrite H0. unfold quote_aware_split_step at 2. simpl.
    apply (quoted_run_closing d (d ++ rest) [] [] true
             ltac:(by destruct d) t [dquote] [] s (S (length rest)) _ Hs).
    change (S (length rest)) with (length (@nil ascii) + 1 + length rest).
    replace (length [dquote] + length (escape_quotes t) + 1)
      with (length ([dquote] ++ escape_quotes t ++ [dquote]))
      by (rewrite !length_app; simpl; lia).
    apply (plain_run d rest [] [] true Hd Hhead []
             ([dquote] ++ escape_quotes t ++ [dquote]) ([] ++ t) s).
    + rewrite Hs. simpl. by rewrite <- !app_assoc.
    + by right.
    + intros k Hk. simpl in Hk. lia.
    + match goal with
      | |- scan_loop _ _ _ ?st0 = _ =>
          replace st0
            with (scan_shift (length (quote_token t ++ d)) [t] [true] scan_init)
      end; [exact Hst|].
      unfold scan_shift, scan_init, quote_token, quoted. simpl.
      rewrite !length_app. simpl. rewrite app_nil_r. f_equal. lia.
  - rewrite Hs. rewrite !length_app. simpl. lia.
Qed.

Lemma plain_run_end (d : str) vs fs tq :
  ∀ (a pre cur : str) (s : str) (fuel : nat),
    s = pre ++ a →
    cur ≠ [] ∨ head a ≠ Some dquote → delimiter_free d a →
    scan_loop (length a + fuel) s (quote_aware_split_step s d)
      (Scan vs fs cur tq false (length pre))
    = Returns (Scan vs fs (cur ++ a) tq false (length s)).
Proof.
  induction a as [|x a IH]; intros pre cur s fuel Hs Hquote Hfree.
  - rewrite app_nil_r in Hs. subst s. rewrite app_nil_r.
    destruct fuel; simpl; by rewrite lookup_ge_None_2 by lia.
  - cbn [length Nat.add scan_loop i].
    assert (H0 : s !! length pre = Some x)
      by (subst s; by apply list_lookup_middle).
    rewrite H0. unfold quote_aware_split_step at 2.
    rewrite (not_opening_quote x cur a Hquote).
    rewrite bool_decide_eq_false_2.
    + replace (length pre + 1) with (length (pre ++ [x]))
        by (rewrite length_app; simpl; lia).
      rewrite (IH (pre ++ [x]) (cur ++ [x]) s fuel).
      * by rewrite <- app_assoc.
      * subst s. by rewrite <- app_assoc.
      * left. by destruct cur.
      * by apply delimiter_free_tail in Hfree.
    + specialize (Hfree 0 ltac:(simpl; lia)).
      intros Heq. apply Hfree. subst s.
      replace (length pre) with (length pre + 0) in Heq at 1 by lia.
      rewrite slice_app_shift in Heq.
      pose proof (slice_length_le (x :: a) 0 (length d)) as Hle.
      rewrite Heq in Hle. change (0 + length d) with (length d).
      rewrite slice_prefix by lia. exact Heq.
Qed.

Lemma split_plain_last (a d : str) :
  plain_token d a → quote_aware_split a d = Returns [(a, false)].
Proof.
  intros Hplain. unfold quote_aware_split.
  pose proof (plain_run_end d [] [] false a [] [] a 0 eq_refl
                (or_intror (proj1 Hplain)) (proj2 Hplain)) as H.
  rewrite Nat.add_0_r in H. change (length []) with 0 in H.
  unfold scan_init. by rewrite H.
Qed.

Lemma split_quoted_last (t d : str) :
  quote_aware_split (quote_token t) d = Returns [(t, true)].
Proof.
  unfold quote_aware_split, quote_token, quoted.
  set (s := dquote :: escape_quotes t ++ [dquote]).
  assert (Hlen : length s = S (length (escape_quotes t) + 1))
    by (unfold s; simpl; rewrite length_app; reflexivity).
  rewrite Hlen. cbn [scan_loop scan_init i].
  change (s !! 0) with (Some dquote).
  unfold quote_aware_split_step at 2. simpl.
  change 1 with (length [dquote]) at 2.
  rewrite (quoted_run d [] [] true t s [dquote] [] _ eq_refl (le_n _)).
  reflexivity.
Qed.

(** X16. Tokens are split off one at a time, whatever follows them: in
    front of a delimiter that is not empty and does not begin with a double
    quote, a leading token that does not begin with a double quote and in
    which the delimiter does not start is returned unquoted, a leading
    quoted token is returned unescaped and flagged, and the rest of the
    string is split on its own. *)
Theorem split_token_by_token (d : str) :
  d ≠ [] → head d ≠ Some dquote →
  (∀ a rest,
     plain_token d a →
     quote_aware_split (a ++ d ++ rest) d
     = (tokens ← quote_aware_split rest d; Returns ((a, false) :: tokens)))
  ∧ (∀ t rest,
       quote_aware_split (quote_token t ++ d ++ rest) d
       = (tokens ← quote_aware_split rest d; Returns ((t, true) :: tokens))).
Proof.
  intros Hd Hhead. split.
  - intros a rest Hplain.
    destruct (quote_aware_split_returns rest d Hd) as (tokens & Hrest & _).
    rewrite Hrest. simpl. by apply split_plain_cons.
  - intros t rest.
    destruct (quote_aware_split_returns rest d Hd) as (tokens & Hrest & _).
    rewrite Hrest. simpl. by apply split_quoted_cons.
Qed.

Lemma split_token_by_token_witness :
  quote_aware_split (lit "a" ++ lit ";" ++ quoted (lit "b;c")) (lit ";")
  = (tokens ← quote_aware_split (quoted (lit "b;c")) (lit ";");
     Returns ((lit "a", false) :: tokens)).
Proof.
  apply (proj1 (split_token_by_token (lit ";") ltac:(discriminate)
                  ltac:(discriminate))).
  split; [discriminate|].
  intros k Hk. simpl in Hk. replace k with 0 by lia. discriminate.
Defined.

Lemma written_tokens_split (d : str) (tokens : list (str * bool)) :
  d ≠ [] → head d ≠ Some dquote → tokens ≠ [] →
  Forall (λ t, t.2 = false → plain_token d t.1) tokens →
  quote_aware_split (join d (write_token <$> tokens)) d = Returns tokens.
Proof.
  intros Hd Hhead Hne Hall.
  induction tokens as [|[t q] tokens IH]; [done|].
  apply Forall_cons in Hall as [Ht Hall].
  destruct tokens as [|t' tokens].
  - simpl. destruct q; [apply split_quoted_last|].
    apply split_plain_last. by apply Ht.
  - specialize (IH ltac:(discriminate) Hall).
    change (join d (write_token <$> (t, q) :: t' :: tokens))
      with (write_token (t, q) ++ d ++ join d (write_token <$> t' :: tokens)).
    destruct q; unfold write_token at 1; simpl fst; simpl snd; cbv iota.
    + by apply split_quoted_cons.
    + apply split_plain_cons; auto.
Qed.

(** X17. Writing and reading a list of tokens, for a delimiter that is not
    empty and does not begin with a double quote, and a list of tokens that
    is not empty: when each token is written between quotes with its quotes
    doubled, or as it is if it does not begin with a double quote and the
    delimiter does not start in it, and the written tokens are joined by
    the delimiter, [quote_aware_split] returns the tokens with their
    flags. *)
Theorem token_list_round_trip (d : str) (tokens : list (str * bool)) :
  d ≠ [] → head d ≠ Some dquote → tokens ≠ [] →
  Forall (λ t, t.2 = false → plain_token d t.1) tokens →
  quote_aware_split (join d (write_token <$> tokens)) d = Returns tokens.
Proof.
  intros Hd Hhead Hne Hall.
  exact (written_tokens_split d tokens Hd Hhead Hne Hall).
Qed.

Lemma token_list_round_trip_witness :
  quote_aware_split
    (join (lit ";") (write_token <$> [(lit "a", false); (lit "b;c", true)]))
    (lit ";")
  = Returns [(lit "a", false); (lit "b;c", true)].
Proof.
  apply token_list_round_trip; [discriminate | discriminate | discriminate|].
  apply Forall_cons. split.
  - intros _. split; [discriminate|].
    intros k Hk. simpl in Hk. replace k with 0 by lia. discriminate.
  - apply Forall_cons. split; [discriminate | apply Forall_nil_2].
Defined.

(** ** Writing leaf values *)

Lemma for_each_scalars (element_name : str) (tokens : list (str * bool)) :
  for_each (λ '(token, quoted), parse_value token (SimpleField element_name) quoted)
    tokens
  = Returns (VStr <$> tokens.*1).
Proof.
  induction tokens as [|[t q] tokens IH]; [reflexivity|].
  cbn [for_each]. rewrite IH. reflexivity.
Qed.

Lemma component_bindings_scalars (tokens : list (str * bool)) :
  ∀ (comps : list Field) (k : nat),
    Forall (λ c, is_SimpleField c = true) comps →
    for_each (component_binding tokens) (enumerate_from k comps)
    = Returns (zip (field_name <$> comps)
                 ((VStr <$> (drop k tokens).*1)
                  ++ replicate (length comps - length (drop k tokens)) VNone)).
Proof.
  induction comps as [|comp comps IH]; intros k Hall; [reflexivity|].
  apply Forall_cons in Hall as [Hc Hall].
  rewrite enumerate_from_cons. cbn [for_each].
  rewrite (IH (S k) Hall).
  destruct (tokens !! k) as [[t q]|] eqn:Hk.
  - rewrite (component_binding_token _ _ _ _ _ Hk).
    rewrite (drop_S _ _ _ Hk).
    destruct comp; try discriminate. reflexivity.
  - rewrite (component_binding_missing _ _ _ Hk).
    apply lookup_ge_None in Hk.
    rewrite !drop_ge by lia. simpl. rewrite Nat.sub_0_r. reflexivity.
Qed.

(** X18. Written leaf values decode back.  For a delimiter that is not
    empty and does not begin with a double quote, and a list of tokens that
    is not empty, each written between quotes with its quotes doubled, or as
    it is if it does not begin with a double quote and the delimiter does
    not start in it: the written tokens, joined by the delimiter, decode
    against an array of scalars with that delimiter to the list of the
    tokens' texts, when the written cell is not empty (the empty cell is
    the empty list); and against a struct of scalar components with that
    delimiter and at least as many components as there are tokens, to the
    dict of the assignments, in order, of the texts to the component names
    and of [None] to the components that are left. *)
Theorem leaf_values_round_trip (d : str) (tokens : list (str * bool)) :
  d ≠ [] → head d ≠ Some dquote → tokens ≠ [] →
  Forall (λ t, t.2 = false → plain_token d t.1) tokens →
  (∀ name element_name,
     join d (write_token <$> tokens) ≠ [] →
     parse_value (join d (write_token <$> tokens))
       (ArrayField name d (SimpleField element_name)) false
     = Returns (VList (VStr <$> tokens.*1)))
  ∧ (∀ name components,
       Forall (λ c, is_SimpleField c = true) components →
       length tokens ≤ length components →
       parse_value (join d (write_token <$> tokens))
         (StructField name d components) false
       = Returns (VDict (dict_of []
           (zip (field_name <$> components)
              ((VStr <$> tokens.*1)
               ++ replicate (length components - length tokens) VNone))))).
Proof.
  intros Hd Hhead Hne Hall.
  pose proof (written_tokens_split d tokens Hd Hhead Hne Hall) as Hsplit.
  split.
  - intros name element_name Hraw.
    rewrite parse_value_array. unfold decode_array.
    rewrite bool_decide_eq_false_2 by exact Hraw.
    rewrite Hsplit. rewrite bind_Returns. by rewrite for_each_scalars.
  - intros name components Hleaf Hlen.
    rewrite (parse_value_struct name d components _ tokens);
      [| destruct components, tokens; simpl in *; (done || lia) | exact Hsplit].
    rewrite bool_decide_eq_false_2 by lia.
    unfold component_bindings.
    rewrite (component_bindings_scalars tokens components 0 Hleaf).
    by rewrite drop_0.
Qed.

Lemma leaf_values_round_trip_witness :
  parse_value
    (join (lit ";") (write_token <$> [(lit "a", false); (lit "b;c", true)]))
    (ArrayField (lit "tags") (lit ";") (SimpleField (lit "tags"))) false
  = Returns (VList (VStr <$> [(lit "a", false); (lit "b;c", true)].*1)).
Proof.
  refine (proj1 (leaf_values_round_trip (lit ";")
                   [(lit "a", false); (lit "b;c", true)] _ _ _ _) _ _ _);
    try discriminate.
  apply Forall_cons. split.
  - intros _. split; [discriminate|].
    intros k Hk. simpl in Hk. replace k with 0 by lia. discriminate.
  - apply Forall_cons. split; [discriminate | apply Forall_nil_2].
Defined.

(** ** Rendering values *)

Lemma render_items_lines (render : Value → option (list str)) c items :
  Forall (λ item, ∃ lines, render item = Some lines ∧ lines ≠ []) items →
  ∀ idx, ∃ lines, Pprint.render_items render c idx items = Some lines
                  ∧ length items ≤ length lines.
Proof.
  induction 1 as [|item rest (item_lines & Hitem & Hne) _ IH]; intros idx.
  - exists []. by split.
  - destruct (IH (S idx)) as (more & Hmore & Hlen).
    destruct item_lines as [|first others]; [done|].
    cbn [Pprint.render_items]. rewrite Hitem. simpl. rewrite Hmore. simpl.
    eexists. split; [reflexivity|].
    simpl. rewrite length_app. lia.
Qed.

Lemma render_entries_lines (render : Value → option (list str)) c w entries :
  Forall (λ kv, ∃ lines, render kv.2 = Some lines ∧ lines ≠ []) entries →
  ∃ lines, Pprint.render_entries render c w entries = Some lines
           ∧ length entries ≤ length lines.
Proof.
  induction 1 as [|[key value] rest (val_lines & Hval & Hne) _ IH].
  - exists []. by split.
  - destruct IH as (more & Hmore & Hlen).
    destruct val_lines as [|first others]; [done|].
    cbn [Pprint.render_entries]. simpl in Hval. rewrite Hval. simpl.
    rewrite Hmore. simpl.
    eexists. split; [reflexivity|].
    simpl. rewrite length_app. lia.
Qed.

Lemma render_value_list c items :
  Pprint._render_value c (VList items)
  = Pprint._render_list (Pprint._render_value c) c items.
Proof. reflexivity. Qed.

Lemma render_value_dict c struct :
  Pprint._render_value c (VDict struct)
  = Pprint._render_struct (Pprint._render_value c) c struct.
Proof. reflexivity. Qed.

Lemma strings_of_length items strs :
  Pprint.strings_of items = Some strs → length strs = length items.
Proof.
  revert strs. induction items as [|item rest IH]; intros strs; simpl.
  - by intros [= <-].
  - destruct item; try discriminate.
    destruct (Pprint.strings_of rest) as [rest'|]; [|discriminate].
    intros [= <-]. simpl. by rewrite (IH rest').
Qed.

Lemma render_value_lines c :
  ∀ v, ∃ lines, Pprint._render_value c v = Some lines ∧ lines ≠ [].
Proof.
  induction v as [s | items IH | struct IH |] using Value_nested_ind.
  - simpl. destruct (bool_decide (s = [])); eexists; by split.
  - rewrite render_value_list. destruct items as [|item rest].
    { eexists; by split. }
    unfold Pprint._render_list.
    destruct (Pprint.strings_of (item :: rest)) as [strs|] eqn:Hstrs.
    + destruct (bool_decide _); [eexists; by split|].
      eexists. split; [reflexivity|].
      apply strings_of_length in Hstrs.
      destruct strs; [discriminate | done].
    + destruct (render_items_lines _ c _ IH 0) as (lines & Hlines & Hlen).
      exists lines. split; [exact Hlines|].
      destruct lines; [simpl in Hlen; lia | done].
  - rewrite render_value_dict. destruct struct as [|entry rest].
    { eexists; by split. }
    unfold Pprint._render_struct.
    destruct (render_entries_lines _ c
                (max_list (length <$> (entry :: rest).*1)) _ IH)
      as (lines & Hlines & Hlen).
    exists lines. split; [exact Hlines|].
    destruct lines; [simpl in Hlen; lia | done].
  - eexists; by split.
Qed.

(** X19. The renderer of values never indexes an empty list: every value,
    however nested, is rendered, to at least one display line.  A dict
    takes at least one line for each of its entries, and a list that does
    not hold strings only takes at least one line for each item. *)
Theorem rendered_lines :
  (∀ c v, ∃ lines, Pprint._render_value c v = Some lines ∧ lines ≠ [])
  ∧ (∀ c struct lines,
       Pprint._render_value c (VDict struct) = Some lines →
       length struct ≤ length lines)
  ∧ (∀ c items lines,
       Pprint.strings_of items = None →
       Pprint._render_value c (VList items) = Some lines →
       length items ≤ length lines).
Proof.
  split; [intros c v; apply render_value_lines|]. split.
  - intros c struct lines. rewrite render_value_dict.
    destruct struct as [|entry rest]; [simpl; lia|].
    unfold Pprint._render_struct.
    destruct (render_entries_lines (Pprint._render_value c) c
                (max_list (length <$> (entry :: rest).*1)) (entry :: rest))
      as (lines' & Hlines & Hlen).
    { apply Forall_forall. intros kv _. apply render_value_lines. }
    rewrite Hlines. by intros [= <-].
  - intros c items lines Hmixed. rewrite render_value_list.
    destruct items as [|item rest]; [simpl; lia|].
    unfold Pprint._render_list. rewrite Hmixed.
    destruct (render_items_lines (Pprint._render_value c) c (item :: rest))
      with (idx := 0) as (lines' & Hlines & Hlen).
    { apply Forall_forall. intros v _. apply render_value_lines. }
    rewrite Hlines. by intros [= <-].
Qed.

Lemma rendered_lines_witness :
  length [(lit "street", VStr (lit "Main St")); (lit "zip", VNone)]
  ≤ length [lit "street  Main St"; lit "zip     (none)"].
Proof.
  apply (proj1 (proj2 rendered_lines) Pprint._PLAIN
           [(lit "street", VStr (lit "Main St")); (lit "zip", VNone)]).
  vm_compute. reflexivity.
Defined.

(** ** Doubled quotes in data rows *)

Lemma escape_quotes_plain (a : str) : dquote ∉ a → escape_quotes a = a.
Proof.
  induction a as [|c a IH]; intros Hq; [reflexivity|].
  apply not_elem_of_cons in Hq as [Hc Hq].
  unfold escape_quotes. simpl. fold (escape_quotes a).
  rewrite (bool_decide_eq_false_2 (c = dquote)) by congruence.
  simpl. by rewrite IH.
Qed.

Lemma delimiter_free_char (c : ascii) (token : str) :
  c ∉ token → delimiter_free [c] token.
Proof.
  intros Hc k Hk Heq.
  destruct (lookup_lt_is_Some_2 token k Hk) as [x Hx].
  change (length [c]) with 1 in Heq.
  rewrite (slice_one (token ++ [c]) k x) in Heq
    by (by apply lookup_app_l_Some).
  injection Heq as ->. apply Hc. by eapply list_elem_of_lookup_2.
Qed.

Lemma scan_open_quote (s d : str) vs fs tq (n fuel : nat) :
  s !! n = Some dquote →
  scan_loop (S fuel) s (quote_aware_split_step s d) (Scan vs fs [] tq false n)
  = scan_loop fuel s (quote_aware_split_step s d) (Scan vs fs [] true true (n + 1)).
Proof.
  intros Hn. cbn [scan_loop i]. rewrite Hn.
  unfold quote_aware_split_step at 2.
  rewrite (bool_decide_eq_true_2 (dquote = dquote)) by reflexivity.
  rewrite (bool_decide_eq_true_2 ([] = [])) by reflexivity.
  reflexivity.
Qed.

Lemma lstrip_not_space (c : ascii) (s : str) :
  is_space c = false → lstrip (c :: s) = c :: s.
Proof. intros H. simpl. by rewrite H. Qed.

Lemma reverse_quoted (x : str) : reverse (quoted x) = quoted (reverse x).
Proof.
  unfold quoted. rewrite reverse_cons, reverse_app. reflexivity.
Qed.

Lemma strip_quoted (x : str) : strip (quoted x) = quoted x.
Proof.
  unfold strip.
  assert (Hl : ∀ y, lstrip (quoted y) = quoted y)
    by (intros y; by apply lstrip_not_space).
  by rewrite Hl, reverse_quoted, Hl, reverse_quoted, reverse_involutive.
Qed.

Lemma split_csv_lines_lf (a rest : str) :
  dquote ∉ a → CR ∉ a → LF ∉ a →
  _split_csv_lines (a ++ [LF] ++ rest) = a :: _split_csv_lines rest.
Proof.
  intros Hq Hcr Hlf. unfold _split_csv_lines at 1.
  rewrite split_csv_lines_loop_plain by assumption. simpl.
  apply split_csv_lines_cons.
Qed.

Lemma split_csv_lines_doubled_quote (a b : str) :
  dquote ∉ a → dquote ∉ b →
  _split_csv_lines (quoted (a ++ [dquote; dquote] ++ b))
  = [quoted (a ++ [dquote] ++ b)].
Proof.
  intros Ha Hb. unfold _split_csv_lines, quoted.
  rewrite split_csv_lines_loop_open.
  rewrite <- app_assoc.
  rewrite split_csv_lines_loop_quoted by exact Ha.
  cbn [app split_csv_lines_loop].
  rewrite !(bool_decide_eq_true_2 (dquote = dquote)) by reflexivity.
  rewrite split_csv_lines_loop_quoted by exact Hb.
  rewrite split_csv_lines_loop_close by apply not_elem_of_nil.
  cbn [split_csv_lines_loop].
  rewrite bool_decide_eq_true_2 by (by destruct a).
  simpl. by rewrite <- !app_assoc.
Qed.

Lemma parse_csv_row_closed_early (a b : str) (sep : ascii) :
  dquote ∉ a → dquote ∉ b → b ≠ [] → sep ∉ b → sep ≠ dquote →
  _parse_csv_row (quoted (a ++ [dquote] ++ b)) [sep]
  = Returns [(a ++ b ++ [dquote], true)].
Proof.
  intros Ha Hb Hne Hsep Hsq.
  rewrite parse_csv_row_single. unfold quote_aware_split.
  set (s := quoted (a ++ [dquote] ++ b)).
  assert (Hs : s = [dquote] ++ escape_quotes a ++ [dquote] ++ (b ++ [dquote])).
  { unfold s, quoted. rewrite (escape_quotes_plain a Ha). simpl.
    by rewrite <- !app_assoc. }
  assert (Hlen : length s = S (length a + 1 + (length (b ++ [dquote]) + 0))).
  { rewrite Hs, (escape_quotes_plain a Ha), !length_app. simpl. lia. }
  assert (Hrun : scan_loop (length s) s (quote_aware_split_step s [sep]) scan_init
                 = Returns (Scan [] [] (a ++ b ++ [dquote]) true false (length s))).
  { rewrite Hlen. unfold scan_init.
    rewrite scan_open_quote by (by rewrite Hs).
    apply (quoted_run_closing [sep] (b ++ [dquote]) [] [] true
             ltac:(destruct b as [|c b]; [done|];
                   apply not_elem_of_cons in Hb as [Hc _]; simpl; congruence)
             a [dquote] [] s _ _ Hs).
    replace (length [dquote] + length (escape_quotes a) + 1)
      with (length ([dquote] ++ escape_quotes a ++ [dquote]))
      by (rewrite !length_app; simpl; lia).
    rewrite (plain_run_end [sep] [] [] true (b ++ [dquote])
               ([dquote] ++ escape_quotes a ++ [dquote]) ([] ++ a) s 0).
    - rewrite Hlen. reflexivity.
    - rewrite Hs. by rewrite <- !app_assoc.
    - right. destruct b as [|c b]; [done|].
      apply not_elem_of_cons in Hb as [Hc _]. simpl. congruence.
    - apply delimiter_free_char. rewrite elem_of_app.
      intros [Hin|Hin]; [by apply Hsep|].
      apply list_elem_of_singleton in Hin. by apply Hsq. }
  rewrite Hrun. reflexivity.
Qed.

(** X20. A doubled double quote inside a quoted cell of a data row,
    with more text of the cell after it.  For [a] and [b] without double
    quote, [b] not empty and without the separator, and a separator of one
    character that is not the double quote: [_split_csv_lines] writes the
    pair as one quote into the logical line, so that for [_parse_csv_row]
    the cell ends there, and what follows is appended outside the quotes,
    the closing quote included.  The quoted cell made of [a], the doubled
    quote and [b], alone on the line after a header line without double
    quote, CR and LF, is read as [a], [b] and a double quote, flagged as
    quoted; [quote_aware_split] reads the same text as [a], one double
    quote and [b]. *)
Theorem doubled_quote_in_row (a b header : str) (sep : ascii) :
  dquote ∉ a → dquote ∉ b → b ≠ [] → sep ∉ b → sep ≠ dquote →
  dquote ∉ header → CR ∉ header → LF ∉ header →
  _split_csv_lines (quoted (a ++ [dquote; dquote] ++ b))
  = [quoted (a ++ [dquote] ++ b)]
  ∧ _parse_csv_row (quoted (a ++ [dquote] ++ b)) [sep]
    = Returns [(a ++ b ++ [dquote], true)]
  ∧ _iter_rows_with_quoting
      (header ++ [LF] ++ quoted (a ++ [dquote; dquote] ++ b)) [sep]
    = Returns [[(a ++ b ++ [dquote], true)]]
  ∧ quote_aware_split (quoted (a ++ [dquote; dquote] ++ b)) [sep]
    = Returns [(a ++ [dquote] ++ b, true)].
Proof.
  intros Ha Hb Hne Hsep Hsq Hhq Hhcr Hhlf.
  split; [by apply split_csv_lines_doubled_quote|].
  split; [by apply parse_csv_row_closed_early|]. split.
  - unfold _iter_rows_with_quoting.
    assert (Hlines : _split_csv_lines
                       (header ++ [LF] ++ quoted (a ++ [dquote; dquote] ++ b))
                     = [header; quoted (a ++ [dquote] ++ b)]).
    { rewrite split_csv_lines_lf by assumption.
      by rewrite split_csv_lines_doubled_quote. }
    rewrite Hlines. cbn [drop].
    rewrite filter_cons_True by (rewrite strip_quoted; discriminate).
    rewrite filter_nil. cbn [for_each].
    rewrite parse_csv_row_closed_early by assumption. reflexivity.
  - pose proof (split_quoted_last (a ++ [dquote] ++ b) [sep]) as H.
    unfold quote_token in H.
    assert (He : escape_quotes (a ++ [dquote] ++ b)
                 = a ++ [dquote; dquote] ++ b).
    { unfold escape_quotes. rewrite !flat_map_app.
      fold (escape_quotes a). fold (escape_quotes b).
      rewrite (escape_quotes_plain a Ha), (escape_quotes_plain b Hb).
      reflexivity. }
    by rewrite He in H.
Qed.

Lemma doubled_quote_in_row_witness :
  _iter_rows_with_quoting
    (lit "name" ++ [LF] ++ quoted (lit "a" ++ [dquote; dquote] ++ lit "b"))
    (lit ",")
  = Returns [[(lit "a" ++ lit "b" ++ [dquote], true)]].
Proof.
  refine (proj1 (proj2 (proj2
            (doubled_quote_in_row (lit "a") (lit "b") (lit "name") (ch ",")
               _ _ _ _ _ _ _ _))));
    try discriminate;
    apply (bool_decide_unpack _); vm_compute; exact I.
Defined.

(** ** Writing headers *)

Lemma bracket_delta_app (a b : str) :
  bracket_delta (a ++ b) = (bracket_delta a + bracket_delta b)%Z.
Proof. induction a as [|c a IH]; simpl; [lia | rewrite IH; lia]. Qed.

Lemma bracket_value_plain (c : ascii) :
  is_bracket c = false → bracket_value c = 0%Z.
Proof.
  unfold is_bracket, bracket_value. intros H.
  apply orb_false_iff in H as [H H4]. apply orb_false_iff in H as [H H3].
  apply orb_false_iff in H as [H1 H2].
  rewrite H1, H2, H3, H4. reflexivity.
Qed.

Lemma field_char_not_bracket (c : ascii) :
  is_field_char c = true → is_bracket c = false.
Proof.
  intros H. unfold is_bracket.
  destruct (bool_decide (c = ch "(")) eqn:E1;
    [apply bool_decide_eq_true in E1; by subst c|].
  destruct (bool_decide (c = ch ")")) eqn:E2;
    [apply bool_decide_eq_true in E2; by subst c|].
  destruct (bool_decide (c = ch "[")) eqn:E3;
    [apply bool_decide_eq_true in E3; by subst c|].
  destruct (bool_decide (c = ch "]")) eqn:E4;
    [apply bool_decide_eq_true in E4; by subst c|].
  reflexivity.
Qed.

Lemma bracket_delta_plain (a : str) :
  Forall (λ c, is_bracket c = false) a → bracket_delta a = 0%Z.
Proof.
  induction 1 as [|c a Hc _ IH]; simpl; [reflexivity|].
  rewrite (bracket_value_plain c Hc), IH. reflexivity.
Qed.

(** A stretch without the delimiter: [depth] follows the brackets. *)
Lemma bracket_run (y : ascii) (s rest : str) :
  ∀ (a pre cur : str) (parts : list str) (depth : Z) (fuel : nat),
    s = pre ++ a ++ rest → y ∉ a →
    bracket_aware_split_loop (length a + fuel) s [y]
      (BScan parts cur depth (length pre))
    = bracket_aware_split_loop fuel s [y]
        (BScan parts (cur ++ a) (depth + bracket_delta a)%Z
               (length pre + length a)).
Proof.
  induction a as [|x a IH]; intros pre cur parts depth fuel Hs Hy.
  - simpl. by rewrite app_nil_r, Z.add_0_r, Nat.add_0_r.
  - apply not_elem_of_cons in Hy as [Hx Hy].
    assert (H0 : s !! length pre = Some x)
      by (subst s; by apply list_lookup_middle).
    assert (Hnext : s = (pre ++ [x]) ++ a ++ rest)
      by (subst s; by rewrite <- app_assoc).
    cbn [length Nat.add bracket_aware_split_loop b_i]. rewrite H0.
    specialize (IH (pre ++ [x]) (cur ++ [x]) parts).
    rewrite length_app in IH. simpl in IH.
    unfold bracket_aware_split_step. cbn [bracket_delta].
    unfold bracket_value. simpl.
    assert (Hend : ∀ d1 d2 : Z, d1 = d2 →
              bracket_aware_split_loop fuel s [y]
                (BScan parts ((cur ++ [x]) ++ a) d1 (length pre + 1 + length a))
              = bracket_aware_split_loop fuel s [y]
                  (BScan parts (cur ++ x :: a) d2 (length pre + S (length a)))).
    { intros d1 d2 ->. rewrite <- app_assoc. simpl.
      by replace (length pre + 1 + length a) with (length pre + S (length a))
        by lia. }
    destruct (bool_decide (x = "("%char) || bool_decide (x = "["%char)).
    { rewrite IH by assumption. apply Hend. lia. }
    destruct (bool_decide (x = ")"%char) || bool_decide (x = "]"%char)).
    { rewrite IH by assumption. apply Hend. lia. }
    rewrite (slice_one s (length pre) x H0).
    rewrite (bool_decide_eq_false_2 ([x] = [y])) by congruence.
    rewrite andb_false_r.
    rewrite IH by assumption. apply Hend. lia.
Qed.

Lemma is_bracket_false (y : ascii) :
  is_bracket y = false →
  y ≠ ch "(" ∧ y ≠ ch ")" ∧ y ≠ ch "[" ∧ y ≠ ch "]".
Proof.
  unfold is_bracket. intros H.
  apply orb_false_iff in H as [H H4]. apply orb_false_iff in H as [H H3].
  apply orb_false_iff in H as [H1 H2].
  apply bool_decide_eq_false in H1, H2, H3, H4. auto.
Qed.

Lemma bracket_split_texts_from (y : ascii) :
  is_bracket y = false →
  ∀ (texts : list str) (pre : str) (parts : list str) (s : str),
    texts ≠ [] →
    Forall (λ t, (y ∉ t) ∧ bracket_delta t = 0%Z) texts →
    s = pre ++ join [y] texts →
    ∃ st, bracket_aware_split_loop (length (join [y] texts)) s [y]
            (BScan parts [] 0%Z (length pre)) = Returns st
          ∧ b_parts st ++ [b_current st] = parts ++ texts.
Proof.
  intros Hy. destruct (is_bracket_false y Hy) as (Hy1 & Hy2 & Hy3 & Hy4).
  induction texts as [|t texts IH]; intros pre parts s Hne Hall Hs; [done|].
  apply Forall_cons in Hall as [[Hfree Hdelta] Hall].
  destruct texts as [|t' texts].
  - simpl in *. rewrite <- (Nat.add_0_r (length t)).
    rewrite (bracket_run y s [] t pre [] parts 0%Z 0)
      by (try rewrite app_nil_r; assumption).
    simpl. rewrite lookup_ge_None_2
      by (subst s; rewrite length_app; lia).
    eexists. split; [reflexivity|]. reflexivity.
  - change (join [y] (t :: t' :: texts))
      with (t ++ [y] ++ join [y] (t' :: texts)) in *.
    set (tail := join [y] (t' :: texts)) in *.
    replace (length (t ++ [y] ++ tail)) with (length t + S (length tail))
      by (rewrite !length_app; simpl; lia).
    rewrite (bracket_run y s ([y] ++ tail) t pre [] parts 0%Z (S (length tail)))
      by assumption.
    assert (H0 : s !! (length pre + length t) = Some y).
    { subst s. rewrite app_assoc, <- length_app.
      by apply list_lookup_middle. }
    cbn [bracket_aware_split_loop b_i]. rewrite H0.
    unfold bracket_aware_split_step.
    rewrite (bool_decide_eq_false_2 (y = ch "(")) by exact Hy1.
    rewrite (bool_decide_eq_false_2 (y = ch ")")) by exact Hy2.
    rewrite (bool_decide_eq_false_2 (y = ch "[")) by exact Hy3.
    rewrite (bool_decide_eq_false_2 (y = ch "]")) by exact Hy4.
    cbn [orb]. rewrite Hdelta.
    rewrite (bool_decide_eq_true_2 ((0 + 0)%Z = 0%Z)) by reflexivity.
    change (length [y]) with 1.
    rewrite (slice_one s _ y H0).
    rewrite (bool_decide_eq_true_2 ([y] = [y])) by reflexivity.
    cbn [andb app].
    destruct (IH (pre ++ t ++ [y]) (parts ++ [t]) s ltac:(discriminate) Hall)
      as (st & Hst & Hparts).
    { subst s. by rewrite <- !app_assoc. }
    rewrite !length_app in Hst. simpl in Hst.
    rewrite Nat.add_assoc in Hst.
    exists st. split; [exact Hst|].
    rewrite Hparts. by rewrite <- app_assoc.
Qed.

Lemma bracket_split_texts (y : ascii) (texts : list str) :
  is_bracket y = false → texts ≠ [] →
  Forall (λ t, (y ∉ t) ∧ bracket_delta t = 0%Z) texts →
  _bracket_aware_split (join [y] texts) [y] = Returns texts.
Proof.
  intros Hy Hne Hall. unfold _bracket_aware_split.
  destruct (bracket_split_texts_from y Hy texts [] [] (join [y] texts)
              Hne Hall eq_refl) as (st & Hst & Hparts).
  simpl in Hst. rewrite Hst. simpl. by rewrite Hparts.
Qed.

Lemma paren_neutral_nil : paren_neutral [].
Proof. intros rest pos k. simpl. by rewrite Nat.add_0_r. Qed.

Lemma paren_neutral_app (a b : str) :
  paren_neutral a → paren_neutral b → paren_neutral (a ++ b).
Proof.
  intros Ha Hb rest pos k.
  rewrite <- app_assoc, Ha, Hb, length_app. f_equal. lia.
Qed.

Lemma paren_neutral_char (c : ascii) :
  c ≠ ch "(" → c ≠ ch ")" → paren_neutral [c].
Proof.
  intros H1 H2 rest pos k. cbn [app paren_loop].
  rewrite (bool_decide_eq_false_2 (S k = 0)) by lia.
  rewrite (bool_decide_eq_false_2 (c = ch "(")) by exact H1.
  rewrite (bool_decide_eq_false_2 (c = ch ")")) by exact H2.
  reflexivity.
Qed.

Lemma paren_neutral_plain (a : str) :
  Forall (λ c, is_bracket c = false) a → paren_neutral a.
Proof.
  induction 1 as [|c a Hc _ IH]; [apply paren_neutral_nil|].
  destruct (is_bracket_false c Hc) as (H1 & H2 & _).
  change (c :: a) with ([c] ++ a).
  apply paren_neutral_app; [by apply paren_neutral_char | exact IH].
Qed.

Lemma paren_neutral_parens (t : str) :
  paren_neutral t → paren_neutral (lit "(" ++ t ++ lit ")").
Proof.
  intros Ht rest pos k.
  change (paren_loop ((lit "(" ++ t ++ lit ")") ++ rest) pos (S k))
    with (paren_loop (ch "(" :: (t ++ lit ")") ++ rest) pos (S k)).
  cbn [paren_loop].
  rewrite (bool_decide_eq_false_2 (S k = 0)) by lia.
  rewrite (bool_decide_eq_true_2 (ch "(" = ch "(")) by reflexivity.
  replace (S k + 1) with (S (S k)) by lia.
  rewrite <- app_assoc, Ht.
  change (lit ")" ++ rest) with (ch ")" :: rest).
  cbn [paren_loop].
  rewrite (bool_decide_eq_false_2 (S (S k) = 0)) by lia.
  rewrite (bool_decide_eq_false_2 (ch ")" = ch "(")) by discriminate.
  rewrite (bool_decide_eq_true_2 (ch ")" = ch ")")) by reflexivity.
  replace (S (S k) - 1) with (S k) by lia.
  f_equal. rewrite !length_app. simpl. lia.
Qed.

Lemma paren_neutral_join (y : ascii) (texts : list str) :
  is_bracket y = false → Forall paren_neutral texts →
  paren_neutral (join [y] texts).
Proof.
  intros Hy. destruct (is_bracket_false y Hy) as (H1 & H2 & _).
  induction 1 as [|t texts Ht Hall IH]; [apply paren_neutral_nil|].
  destruct texts as [|t' texts]; [exact Ht|].
  change (join [y] (t :: t' :: texts))
    with (t ++ [y] ++ join [y] (t' :: texts)).
  apply paren_neutral_app; [exact Ht|].
  apply paren_neutral_app; [by apply paren_neutral_char | exact IH].
Qed.

(** The closing parenthesis of a struct body is found at its end. *)
Lemma paren_loop_body (body : str) (pos : nat) :
  paren_neutral body →
  paren_loop (body ++ lit ")") pos 1 = (pos + length body + 1, 0).
Proof.
  intros Hb. rewrite Hb. reflexivity.
Qed.

Lemma parse_head_steps s depth used m_end name array_delim pos struct :
  NAME_RE_match s 0 = Some m_end →
  slice s 0 m_end = name →
  parse_array_part s m_end depth used = Returns (array_delim, pos) →
  parse_struct_part s pos array_delim used = Returns struct →
  parse_head s 0 depth used = Returns (name, array_delim, pos, struct).
Proof.
  intros Hm Hname Harray Hstruct. unfold parse_head.
  rewrite Hm, Harray. simpl. rewrite Hstruct. simpl. by rewrite Hname.
Qed.

Lemma slice_name (name rest : str) :
  slice (name ++ rest) 0 (length name) = name.
Proof.
  unfold slice. by rewrite drop_0, Nat.sub_0_r, take_app_length.
Qed.

Lemma parse_array_part_written (name rest : str) (x : ascii) depth used :
  x ≠ ch "]" → [x] ∉ used →
  parse_array_part (name ++ lit "[" ++ [x] ++ lit "]" ++ rest)
    (length name) depth used
  = Returns (Some [x], length name + 3).
Proof.
  intros Hx4 Hused.
  unfold parse_array_part, read_array_brackets.
  set (s := name ++ lit "[" ++ [x] ++ lit "]" ++ rest).
  assert (H0 : s !! length name = Some (ch "["))
    by (by apply list_lookup_middle).
  assert (H1 : s !! (length name + 1) = Some x).
  { unfold s. rewrite lookup_app_r by lia.
    replace (length name + 1 - length name) with 1 by lia. reflexivity. }
  assert (Hdrop : drop (length name + 1) s = x :: ch "]" :: rest).
  { unfold s. rewrite drop_app_add' by reflexivity. reflexivity. }
  rewrite (bool_decide_eq_true_2 _ H0).
  unfold find. rewrite Hdrop. cbn [find_from].
  rewrite (bool_decide_eq_false_2 (x = ch "]")) by exact Hx4.
  rewrite (bool_decide_eq_true_2 (ch "]" = ch "]")) by reflexivity.
  replace (S (length name + 1)) with (length name + 1 + 1) by lia.
  rewrite (slice_one s _ x H1).
  rewrite (bool_decide_eq_false_2 ([x] = [])) by discriminate.
  rewrite (bool_decide_eq_false_2 (length [x] ≠ 1)) by (simpl; lia).
  simpl. rewrite (bool_decide_eq_false_2 _ Hused).
  do 2 f_equal. lia.
Qed.

Lemma parse_array_part_absent (s : str) (pos depth : nat) used :
  s !! pos ≠ Some (ch "[") →
  parse_array_part s pos depth used = Returns (None, pos).
Proof.
  intros H. unfold parse_array_part, read_array_brackets.
  by rewrite (bool_decide_eq_false_2 _ H).
Qed.

Lemma parse_struct_part_absent (s : str) (pos : nat) array_delim used :
  length s ≤ pos → parse_struct_part s pos array_delim used = Returns None.
Proof.
  intros H. unfold parse_struct_part, struct_opener.
  rewrite !lookup_ge_None_2 by lia.
  rewrite !bool_decide_eq_false_2 by discriminate. reflexivity.
Qed.

Lemma parse_struct_part_written (pre body : str) (y : ascii) array_delim used :
  is_bracket y = false → paren_neutral body →
  [y] ∉ used → array_delim ≠ Some [y] →
  parse_struct_part (pre ++ [y] ++ lit "(" ++ body ++ lit ")") (length pre)
    array_delim used
  = Returns (Some (StructPart [y] body
                     (length (pre ++ [y] ++ lit "(" ++ body ++ lit ")"))
                     (match array_delim with
                      | Some d => used ∪ {[ [y] ]} ∪ {[ d ]}
                      | None => used ∪ {[ [y] ]}
                      end))).
Proof.
  intros Hy Hbody Hused Hneq.
  destruct (is_bracket_false y Hy) as (Hy1 & _).
  set (s := pre ++ [y] ++ lit "(" ++ body ++ lit ")").
  assert (H0 : s !! length pre = Some y) by (by apply list_lookup_middle).
  assert (H1 : s !! (length pre + 1) = Some (ch "(")).
  { unfold s. rewrite lookup_app_r by lia.
    replace (length pre + 1 - length pre) with 1 by lia. reflexivity. }
  assert (Hdrop : drop (length pre + 1 + 1) s = body ++ lit ")").
  { unfold s. rewrite <- Nat.add_assoc.
    rewrite drop_app_add' by reflexivity. reflexivity. }
  unfold parse_struct_part, struct_opener.
  rewrite H0, H1.
  rewrite (bool_decide_eq_false_2 (Some y = Some (ch "(")))
    by (intros [= ->]; by apply Hy1).
  rewrite (bool_decide_eq_true_2 (Some (ch "(") = Some (ch "(")))
    by reflexivity.
  rewrite (slice_one s _ y H0). rewrite H1.
  rewrite (bool_decide_eq_false_2 (Some (ch "(") ≠ Some (ch "(")))
    by (intros H; by apply H).
  rewrite (bool_decide_eq_false_2 _ Hused).
  rewrite (bool_decide_eq_false_2 _ Hneq).
  rewrite Hdrop, (paren_loop_body body _ Hbody).
  rewrite (bool_decide_eq_false_2 (0 ≠ 0)) by (intros H; by apply H).
  assert (Hslice : slice s (length pre + 1 + 1)
                     (length pre + 1 + 1 + length body + 1 - 1) = body).
  { unfold slice. rewrite Hdrop.
    replace (length pre + 1 + 1 + length body + 1 - 1 - (length pre + 1 + 1))
      with (length body) by lia.
    by rewrite take_app_length. }
  rewrite Hslice.
  assert (Hend : length pre + 1 + 1 + length body + 1 = length s)
    by (unfold s; rewrite !length_app; simpl; lia).
  rewrite Hend. by destruct array_delim.
Qed.

Lemma bracket_delta_join (y : ascii) (texts : list str) :
  is_bracket y = false →
  Forall (λ t, bracket_delta t = 0%Z) texts →
  bracket_delta (join [y] texts) = 0%Z.
Proof.
  intros Hy. induction 1 as [|t texts Ht Hall IH]; [reflexivity|].
  destruct texts as [|t' texts]; [exact Ht|].
  change (join [y] (t :: t' :: texts))
    with (t ++ [y] ++ join [y] (t' :: texts)).
  rewrite !bracket_delta_app, Ht, IH. simpl.
  rewrite (bracket_value_plain y Hy). reflexivity.
Qed.

Lemma elem_of_join (y c : ascii) (texts : list str) :
  c ∈ join [y] texts → c = y ∨ ∃ t, t ∈ texts ∧ c ∈ t.
Proof.
  induction texts as [|t texts IH]; [by intros ?%elem_of_nil|].
  destruct texts as [|t' texts].
  - intros Hc. right. exists t. split; [left | exact Hc].
  - change (join [y] (t :: t' :: texts))
      with (t ++ [y] ++ join [y] (t' :: texts)).
    rewrite !elem_of_app. intros [Hc|[Hc|Hc]].
    + right. exists t. split; [left | exact Hc].
    + left. by apply list_elem_of_singleton in Hc.
    + destruct (IH Hc) as [->|(t0 & Ht0 & Hc0)]; [by left|].
      right. exists t0. split; [by right | exact Hc0].
Qed.

Lemma header_text_head used f :
  well_formed used f →
  ∃ c0 r, header_text f = c0 :: r ∧ is_field_char c0 = true.
Proof.
  assert (Hname : ∀ name tail, valid_name name →
            ∃ c0 r, name ++ tail = c0 :: r ∧ is_field_char c0 = true).
  { intros name tail [Hne Hall]. destruct name as [|c0 name]; [done|].
    apply Forall_cons in Hall as [Hc _]. by exists c0, (name ++ tail). }
  intros Hwf. inversion Hwf; subst; simpl.
  - destruct (Hname name [] H) as (c0 & r & Heq & Hc).
    rewrite app_nil_r in Heq. eauto.
  - by apply Hname.
  - by apply Hname.
  - by apply Hname.
Qed.

Lemma header_text_not_paren used f :
  well_formed used f → startswith (header_text f) (lit "(") = false.
Proof.
  intros Hwf. destruct (header_text_head used f Hwf) as (c0 & r & -> & Hc).
  unfold startswith. apply bool_decide_eq_false_2. simpl.
  intros [= ->]. discriminate.
Qed.

Lemma for_each_written {A B} (f : A → outcome B) (g : B → A) (l : list B) :
  Forall (λ x, f (g x) = Returns x) l → for_each f (g <$> l) = Returns l.
Proof.
  induction 1 as [|x l Hx _ IH]; [reflexivity|].
  rewrite fmap_cons. cbn [for_each].
  rewrite Hx, bind_Returns, IH. reflexivity.
Qed.

Lemma name_text_facts (name : str) :
  valid_name name →
  bracket_delta name = 0%Z ∧ paren_neutral name
  ∧ ∀ y, is_field_char y = false → y ∉ name.
Proof.
  intros [_ Hall].
  assert (Hplain : Forall (λ c, is_bracket c = false) name).
  { eapply Forall_impl; [exact Hall|]. apply field_char_not_bracket. }
  split; [by apply bracket_delta_plain|].
  split; [by apply paren_neutral_plain|].
  intros y Hy Hin. rewrite Forall_forall in Hall.
  specialize (Hall y Hin). congruence.
Qed.

Lemma array_text_facts (x : ascii) :
  is_bracket x = false →
  bracket_delta (lit "[" ++ [x] ++ lit "]") = 0%Z
  ∧ paren_neutral (lit "[" ++ [x] ++ lit "]")
  ∧ ∀ y, is_bracket y = false → y ≠ x → y ∉ lit "[" ++ [x] ++ lit "]".
Proof.
  intros Hx. destruct (is_bracket_false x Hx) as (H1 & H2 & _).
  split; [|split].
  - simpl. rewrite (bracket_value_plain x Hx). reflexivity.
  - apply paren_neutral_app; [by apply paren_neutral_char|].
    apply paren_neutral_app; by apply paren_neutral_char.
  - intros y Hy Hyx Hin.
    destruct (is_bracket_false y Hy) as (_ & _ & Hy3 & Hy4).
    simpl in Hin. rewrite !elem_of_cons in Hin.
    destruct Hin as [->|[->|[->|Hin]]]; try done.
    by apply elem_of_nil in Hin.
Qed.

Lemma struct_text_facts (y : ascii) (body : str) :
  is_bracket y = false →
  bracket_delta body = 0%Z → paren_neutral body →
  bracket_delta ([y] ++ lit "(" ++ body ++ lit ")") = 0%Z
  ∧ paren_neutral ([y] ++ lit "(" ++ body ++ lit ")")
  ∧ ∀ y', is_bracket y' = false → y' ≠ y → y' ∉ body →
          y' ∉ [y] ++ lit "(" ++ body ++ lit ")".
Proof.
  intros Hy Hdelta Hneutral. destruct (is_bracket_false y Hy) as (H1 & H2 & _).
  split; [|split].
  - rewrite !bracket_delta_app, Hdelta. simpl.
    rewrite (bracket_value_plain y Hy). reflexivity.
  - apply paren_neutral_app; [by apply paren_neutral_char|].
    by apply paren_neutral_parens.
  - intros y' Hy' Hne Hbody Hin.
    destruct (is_bracket_false y' Hy') as (Hy1 & Hy2 & _).
    rewrite !elem_of_app in Hin.
    destruct Hin as [Hin|[Hin|[Hin|Hin]]];
      try (apply list_elem_of_singleton in Hin); done.
Qed.

Lemma components_written (y : ascii) (comps : list Field) (inner : gset str) :
  is_bracket y = false → is_field_char y = false → [y] ∈ inner →
  comps ≠ [] →
  Forall (well_formed inner) comps →
  Forall (λ f, bracket_delta (header_text f) = 0%Z
               ∧ paren_neutral (header_text f)
               ∧ (∀ y', [y'] ∈ inner → is_field_char y' = false →
                        is_bracket y' = false → y' ∉ header_text f)
               ∧ (∀ depth, parse_at depth inner (header_text f)
                           = Returns (f, length (header_text f)))) comps →
  bracket_delta (join [y] (header_text <$> comps)) = 0%Z
  ∧ paren_neutral (join [y] (header_text <$> comps))
  ∧ (∀ y', [y'] ∈ inner → is_field_char y' = false →
           is_bracket y' = false → y' ≠ y →
           y' ∉ join [y] (header_text <$> comps))
  ∧ (∀ depth,
       (raws ← _bracket_aware_split (join [y] (header_text <$> comps)) [y];
        for_each (component_outcome depth inner) raws) = Returns comps).
Proof.
  intros Hy Hyf Hyin Hne Hwf Hfacts.
  rewrite Forall_forall in Hfacts.
  split; [|split; [|split]].
  - apply bracket_delta_join; [exact Hy|].
    apply Forall_fmap, Forall_forall. intros f Hf. by apply Hfacts.
  - apply paren_neutral_join; [exact Hy|].
    apply Forall_fmap, Forall_forall. intros f Hf. by apply Hfacts.
  - intros y' Hin' Hf' Hb' Hneq Hin.
    apply elem_of_join in Hin as [->|(t & Ht & Hin)]; [done|].
    apply list_elem_of_fmap in Ht as (f & -> & Hf).
    destruct (Hfacts f Hf) as (_ & _ & Hfree & _).
    by apply (Hfree y').
  - intros depth. rewrite bracket_split_texts.
    + rewrite bind_Returns. apply for_each_written.
      apply Forall_forall. intros f Hf.
      destruct (Hfacts f Hf) as (_ & _ & _ & Hparse).
      rewrite Forall_forall in Hwf.
      unfold component_outcome, parse_component.
      rewrite (header_text_not_paren inner f) by (by apply Hwf).
      rewrite Hparse. simpl.
      by rewrite bool_decide_eq_false_2 by (intros H; by apply H).
    + exact Hy.
    + by destruct comps.
    + apply Forall_fmap, Forall_forall. intros f Hf.
      destruct (Hfacts f Hf) as (Hdelta & _ & Hfree & _).
      split; [by apply Hfree | exact Hdelta].
Qed.

Lemma single_char (d : str) (P : ascii → Prop) :
  length d = 1 → Forall P d → ∃ x, d = [x] ∧ P x.
Proof.
  destruct d as [|x [|? ?]]; try discriminate.
  intros _ H. apply Forall_cons in H as [H _]. eauto.
Qed.

Lemma header_text_parse (n : nat) :
  ∀ f used, height f ≤ n → well_formed used f → writable f →
    bracket_delta (header_text f) = 0%Z
    ∧ paren_neutral (header_text f)
    ∧ (∀ y, [y] ∈ used → is_field_char y = false → is_bracket y = false →
            y ∉ header_text f)
    ∧ (∀ depth, parse_at depth used (header_text f)
                = Returns (f, length (header_text f))).
Proof.
  induction n as [|n IH]; intros f used Hheight Hwf Hw.
  { destruct f; simpl in Hheight; lia. }
  assert (Hcomps_facts : ∀ comps inner,
            max_list (height <$> comps) ≤ n →
            Forall (well_formed inner) comps → Forall writable comps →
            Forall (λ f, bracket_delta (header_text f) = 0%Z
               ∧ paren_neutral (header_text f)
               ∧ (∀ y', [y'] ∈ inner → is_field_char y' = false →
                        is_bracket y' = false → y' ∉ header_text f)
               ∧ (∀ depth, parse_at depth inner (header_text f)
                           = Returns (f, length (header_text f)))) comps).
  { intros comps inner Hmax Hwfs Hws. apply Forall_forall. intros comp Hin.
    rewrite Forall_forall in Hwfs, Hws.
    apply IH; [|by apply Hwfs | by apply Hws].
    etrans; [|exact Hmax].
    apply max_list_elem_of_le. by apply list_elem_of_fmap_2. }
  inversion Hwf as [u name Hname
                   | u name d Hname Hd Hdu
                   | u name c comps Hname Hc Hcu Hne Hcomps
                   | u name d c comps Hname Hd Hc Hdu Hcu Hcd Hne Hcomps];
    subst.
  - (* a scalar *)
    destruct (name_text_facts name Hname) as (Hdelta & Hneutral & Hfree).
    simpl. split; [exact Hdelta|]. split; [exact Hneutral|].
    split; [intros y _ Hyf _; by apply Hfree|].
    intros depth. rewrite parse_at_unfold.
    rewrite (parse_head_steps name depth used (length name) name None
               (length name) None).
    + reflexivity.
    + destruct Hname. by apply NAME_RE_match_all.
    + rewrite <- (app_nil_r name) at 1. apply slice_name.
    + apply parse_array_part_absent.
      by rewrite lookup_ge_None_2 by lia.
    + by apply parse_struct_part_absent.
  - (* an array of scalars *)
    inversion Hw as [| ? ? ? Hdw _ |]; subst.
    destruct (single_char d _ Hd Hdw) as (x & -> & Hx).
    destruct (name_text_facts name Hname) as (Hdelta & Hneutral & Hfree).
    destruct (array_text_facts x Hx) as (Hadelta & Haneutral & Hafree).
    change (header_text (ArrayField name [x] (SimpleField name)))
      with (name ++ (lit "[" ++ [x] ++ lit "]") ++ []).
    rewrite app_nil_r.
    split; [by rewrite bracket_delta_app, Hdelta, Hadelta|].
    split; [by apply paren_neutral_app|].
    split.
    { intros y Hyin Hyf Hyb. rewrite elem_of_app. intros [Hin|Hin].
      - by apply (Hfree y).
      - apply (Hafree y Hyb); [|exact Hin]. intros ->. by apply Hdu. }
    intros depth. rewrite parse_at_unfold.
    set (s := name ++ lit "[" ++ [x] ++ lit "]").
    rewrite (parse_head_steps s depth used (length name) name (Some [x])
               (length name + 3) None).
    + simpl. do 2 f_equal. unfold s. rewrite !length_app. simpl. lia.
    + destruct Hname. by apply NAME_RE_match_app.
    + apply slice_name.
    + unfold s. rewrite <- (app_nil_r (lit "]")).
      apply parse_array_part_written; [|exact Hdu].
      by destruct (is_bracket_false x Hx) as (_ & _ & _ & ?).
    + apply parse_struct_part_absent.
      unfold s. rewrite !length_app. simpl. lia.
  - (* a struct *)
    inversion Hw as [| | ? ? ? Hcw Hcompsw]; subst.
    destruct (single_char c _ Hc Hcw) as (y & -> & Hyb & Hyf).
    destruct (name_text_facts name Hname) as (Hdelta & Hneutral & Hfree).
    simpl in Hheight.
    destruct (components_written y comps (used ∪ {[ [y] ]}) Hyb Hyf
                ltac:(apply elem_of_union_r; by apply elem_of_singleton)
                Hne Hcomps
                (Hcomps_facts comps _ ltac:(lia) Hcomps Hcompsw))
      as (Hbdelta & Hbneutral & Hbfree & Hbparse).
    set (body := join [y] (header_text <$> comps)) in *.
    destruct (struct_text_facts y body Hyb Hbdelta Hbneutral)
      as (Hsdelta & Hsneutral & Hsfree).
    change (header_text (StructField name [y] comps))
      with (name ++ [y] ++ lit "(" ++ body ++ lit ")").
    split; [by rewrite bracket_delta_app, Hdelta, Hsdelta|].
    split; [by apply paren_neutral_app|].
    split.
    { intros y' Hyin' Hyf' Hyb'. rewrite elem_of_app. intros [Hin|Hin].
      - by apply (Hfree y').
      - assert (Hne' : y' ≠ y) by (intros ->; by apply Hcu).
        apply (Hsfree y' Hyb' Hne'); [|exact Hin].
        apply Hbfree; try assumption. by apply elem_of_union_l. }
    intros depth. rewrite parse_at_unfold.
    set (s := name ++ [y] ++ lit "(" ++ body ++ lit ")").
    rewrite (parse_head_steps s depth used (length name) name None
               (length name)
               (Some (StructPart [y] body (length s) (used ∪ {[ [y] ]})))).
    + cbn [bind mbind sp_body sp_comp_delim sp_inner_used sp_end].
      rewrite bind_Returns.
      cbn [sp_body sp_comp_delim sp_inner_used sp_end].
      rewrite Hbparse. reflexivity.
    + destruct Hname. by apply NAME_RE_match_app.
    + apply slice_name.
    + apply parse_array_part_absent.
      assert (H0 : s !! length name = Some y)
        by (by apply list_lookup_middle).
      rewrite H0. intros [= ->]. discriminate.
    + apply (parse_struct_part_written name body y None used Hyb Hbneutral Hcu).
      discriminate.
  - (* an array of structs *)
    inversion Hw as [| ? ? ? Hdw Hew |]; subst.
    inversion Hew as [| | ? ? ? Hcw Hcompsw]; subst.
    destruct (single_char d _ Hd Hdw) as (x & -> & Hx).
    destruct (single_char c _ Hc Hcw) as (y & -> & Hyb & Hyf).
    destruct (name_text_facts name Hname) as (Hdelta & Hneutral & Hfree).
    destruct (array_text_facts x Hx) as (Hadelta & Haneutral & Hafree).
    simpl in Hheight.
    destruct (components_written y comps (used ∪ {[ [y] ]} ∪ {[ [x] ]}) Hyb Hyf
                ltac:(apply elem_of_union_l, elem_of_union_r;
                      by apply elem_of_singleton)
                Hne Hcomps
                (Hcomps_facts comps _ ltac:(lia) Hcomps Hcompsw))
      as (Hbdelta & Hbneutral & Hbfree & Hbparse).
    set (body := join [y] (header_text <$> comps)) in *.
    destruct (struct_text_facts y body Hyb Hbdelta Hbneutral)
      as (Hsdelta & Hsneutral & Hsfree).
    change (header_text (ArrayField name [x] (StructField name [y] comps)))
      with (name ++ lit "[" ++ [x] ++ lit "]"
            ++ [y] ++ lit "(" ++ body ++ lit ")").
    assert (Hassoc : name ++ lit "[" ++ [x] ++ lit "]"
                     ++ [y] ++ lit "(" ++ body ++ lit ")"
                     = name ++ (lit "[" ++ [x] ++ lit "]")
                       ++ ([y] ++ lit "(" ++ body ++ lit ")"))
      by reflexivity.
    split.
    { rewrite Hassoc, (bracket_delta_app name),
        (bracket_delta_app (lit "[" ++ [x] ++ lit "]")).
      by rewrite Hdelta, Hadelta, Hsdelta. }
    split.
    { rewrite Hassoc. apply paren_neutral_app; [exact Hneutral|].
      by apply paren_neutral_app. }
    split.
    { intros y' Hyin' Hyf' Hyb'.
      rewrite Hassoc, (elem_of_app name),
        (elem_of_app (lit "[" ++ [x] ++ lit "]")).
      intros [Hin|[Hin|Hin]].
      - by apply (Hfree y').
      - apply (Hafree y' Hyb'); [|exact Hin]. intros ->. by apply Hdu.
      - assert (Hne' : y' ≠ y) by (intros ->; by apply Hcu).
        apply (Hsfree y' Hyb' Hne'); [|exact Hin].
        apply Hbfree; try assumption. by do 2 apply elem_of_union_l. }
    intros depth. rewrite parse_at_unfold.
    set (s := name ++ lit "[" ++ [x] ++ lit "]"
              ++ [y] ++ lit "(" ++ body ++ lit ")").
    rewrite (parse_head_steps s depth used (length name) name (Some [x])
               (length name + 3)
               (Some (StructPart [y] body (length s)
                        (used ∪ {[ [y] ]} ∪ {[ [x] ]})))).
    + rewrite bind_Returns.
      cbn [sp_body sp_comp_delim sp_inner_used sp_end].
      rewrite Hbparse. reflexivity.
    + destruct Hname. by apply NAME_RE_match_app.
    + apply slice_name.
    + apply parse_array_part_written; [|exact Hdu].
      by destruct (is_bracket_false x Hx) as (_ & _ & _ & ?).
    + assert (Hs : s = (name ++ lit "[" ++ [x] ++ lit "]")
                       ++ [y] ++ lit "(" ++ body ++ lit ")")
        by (unfold s; by rewrite <- !app_assoc).
      assert (Hpre : length name + 3
                     = length (name ++ lit "[" ++ [x] ++ lit "]"))
        by (rewrite !length_app; simpl; lia).
      rewrite Hpre, Hs.
      apply (parse_struct_part_written _ body y (Some [x]) used Hyb Hbneutral Hcu).
      intros [= ->]. by apply Hcd.
Qed.

Lemma field_char_not_space (c : ascii) :
  is_field_char c = true → is_space c = false.
Proof.
  destruct c as [[] [] [] [] [] [] [] []]; vm_compute; congruence.
Qed.

Lemma header_text_last used f :
  well_formed used f →
  ∃ r c, header_text f = r ++ [c] ∧ is_space c = false.
Proof.
  intros Hwf. inversion Hwf; subst; cbn [header_text].
  - destruct H as [Hne Hall].
    destruct (exists_last Hne) as [r [c ->]].
    exists r, c. split; [reflexivity|].
    apply Forall_app in Hall as [_ Hc]. apply Forall_cons in Hc as [Hc _].
    by apply field_char_not_space.
  - exists (name ++ lit "[" ++ d), (ch "]"). split; [|reflexivity].
    rewrite app_nil_r. by rewrite <- !app_assoc.
  - exists (name ++ c ++ lit "(" ++ join c (header_text <$> components)),
      (ch ")").
    split; [|reflexivity]. by rewrite <- !app_assoc.
  - exists (name ++ lit "[" ++ d ++ lit "]" ++ c ++ lit "("
            ++ join c (header_text <$> components)), (ch ")").
    split; [|reflexivity]. by rewrite <- !app_assoc.
Qed.

Lemma strip_header_text used f :
  well_formed used f → strip (header_text f) = header_text f.
Proof.
  intros Hwf.
  destruct (header_text_head used f Hwf) as (c0 & r0 & H0 & Hc0).
  destruct (header_text_last used f Hwf) as (r1 & c1 & H1 & Hc1).
  unfold strip.
  rewrite H0, (lstrip_not_space c0 r0 (field_char_not_space c0 Hc0)), <- H0.
  rewrite H1, reverse_app. change (reverse [c1]) with [c1].
  change ([c1] ++ reverse r1) with (c1 :: reverse r1).
  rewrite (lstrip_not_space c1 _ Hc1).
  by rewrite reverse_cons, reverse_involutive.
Qed.

(** X21. Headers read back.  The header written for a schema by the
    grammar -- the name, the array delimiter between square brackets, the
    component delimiter and the component headers between parentheses --
    is parsed by [parse_field] into that very schema, for every schema of
    the data model whose delimiters are no brackets and whose component
    delimiters are no characters of names; a row of such headers is parsed
    by [parse_header_row] into the list of the schemas. *)
Theorem header_round_trip :
  (∀ f, well_formed ∅ f → writable f →
        parse_field (header_text f) = Returns f)
  ∧ (∀ fs, Forall (well_formed ∅) fs → Forall writable fs →
           parse_header_row (header_text <$> fs) = Returns fs).
Proof.
  assert (Hone : ∀ f, well_formed ∅ f → writable f →
                      parse_field (header_text f) = Returns f).
  { intros f Hwf Hw.
    destruct (header_text_parse (height f) f ∅ (le_n _) Hwf Hw)
      as (_ & _ & _ & Hparse).
    rewrite parse_field_parse_at_top, Hparse. simpl.
    by rewrite bool_decide_eq_false_2 by (intros H; by apply H). }
  split; [exact Hone|].
  intros fs Hwf Hw. unfold parse_header_row.
  apply for_each_written. apply Forall_forall. intros f Hf.
  rewrite Forall_forall in Hwf, Hw.
  rewrite (strip_header_text ∅ f) by (by apply Hwf).
  apply Hone; [by apply Hwf | by apply Hw].
Qed.

Lemma header_round_trip_witness :
  parse_field
    (header_text
       (ArrayField (lit "address") (lit "~")
          (StructField (lit "address") (lit "^")
             [SimpleField (lit "street");
              ArrayField (lit "phones") (lit ";") (SimpleField (lit "phones"))])))
  = Returns
      (ArrayField (lit "address") (lit "~")
         (StructField (lit "address") (lit "^")
            [SimpleField (lit "street");
             ArrayField (lit "phones") (lit ";") (SimpleField (lit "phones"))])).
Proof.
  assert (Hname : ∀ s : string,
            lit s ≠ [] → forallb is_field_char (lit s) = true →
            valid_name (lit s)).
  { intros s Hne Hall. split; [exact Hne|].
    apply Forall_forall. intros c Hc.
    rewrite forallb_forall in Hall. apply Hall.
    by apply list_elem_of_In. }
  apply (proj1 header_round_trip).
  - apply wf_array_struct; try reflexivity; try discriminate;
      try apply not_elem_of_empty.
    + by apply Hname.
    + apply Forall_cons. split; [apply wf_simple; by apply Hname|].
      apply Forall_cons. split; [|apply Forall_nil_2].
      apply wf_array; [by apply Hname | reflexivity |].
      rewrite !elem_of_union, !elem_of_singleton.
      intros [[H|H]|H]; [by apply elem_of_empty in H | discriminate
                         | discriminate].
  - apply writable_array; [by repeat constructor|].
    apply writable_struct; [by repeat constructor|].
    apply Forall_cons. split; [apply writable_simple|].
    apply Forall_cons. split; [|apply Forall_nil_2].
    apply writable_array; [by repeat constructor | apply writable_simple].
Defined.

(** ** Default delimiters *)

Lemma paren_loop_shift (k : nat) :
  ∀ rest pos dc,
    paren_loop rest (k + pos) dc
    = ((k + (paren_loop rest pos dc).1), (paren_loop rest pos dc).2).
Proof.
  induction rest as [|c rest IH]; intros pos dc; [reflexivity|].
  cbn [paren_loop].
  destruct (bool_decide (dc = 0)); [reflexivity|].
  replace (k + pos + 1) with (k + (pos + 1)) by lia. apply IH.
Qed.

Lemma paren_loop_ge :
  ∀ rest pos dc, pos ≤ (paren_loop rest pos dc).1.
Proof.
  induction rest as [|c rest IH]; intros pos dc; [reflexivity|].
  cbn [paren_loop].
  destruct (bool_decide (dc = 0)); [reflexivity|].
  etrans; [|apply IH]. lia.
Qed.

Lemma slice_drop (s : str) (n a b : nat) :
  slice (drop n s) a b = slice s (n + a) (n + b).
Proof.
  unfold slice. rewrite drop_drop. f_equal. lia.
Qed.

Lemma parse_struct_part_drop s pos array_delim used :
  parse_struct_part s pos array_delim used
  = shift_struct pos (parse_struct_part (drop pos s) 0 array_delim used).
Proof.
  assert (Hstep : ∀ j comp_delim,
    (let p := pos + j + 1 in
     let body_start := p in
     let '(p, depth_count) := paren_loop (drop p s) p 1 in
     if bool_decide (depth_count ≠ 0) then Raises HeaderParseError
     else
       let body := slice s body_start (p - 1) in
       let inner_used := used ∪ {[comp_delim]} in
       let inner_used :=
         match array_delim with
         | Some d => inner_used ∪ {[d]}
         | None => inner_used
         end in
       Returns (Some (StructPart comp_delim body p inner_used)))
    = shift_struct pos
        (let p := j + 1 in
         let body_start := p in
         let '(p, depth_count) := paren_loop (drop p (drop pos s)) p 1 in
         if bool_decide (depth_count ≠ 0) then Raises HeaderParseError
         else
           let body := slice (drop pos s) body_start (p - 1) in
           let inner_used := used ∪ {[comp_delim]} in
           let inner_used :=
             match array_delim with
             | Some d => inner_used ∪ {[d]}
             | None => inner_used
             end in
           Returns (Some (StructPart comp_delim body p inner_used)))).
  { intros j comp_delim. cbv zeta.
    rewrite drop_drop.
    replace (pos + j + 1) with (pos + (j + 1)) by lia.
    rewrite (paren_loop_shift pos).
    pose proof (paren_loop_ge (drop (pos + (j + 1)) s) (j + 1) 1) as Hge.
    destruct (paren_loop (drop (pos + (j + 1)) s) (j + 1) 1) as [q dc].
    simpl in Hge. cbn [fst snd].
    destruct (bool_decide (dc ≠ 0)); [reflexivity|].
    unfold shift_struct.
    unfold shift_struct_part. cbn [sp_comp_delim sp_body sp_end sp_inner_used].
    rewrite slice_drop.
    replace (pos + q - 1) with (pos + (q - 1)) by lia.
    reflexivity. }
  unfold parse_struct_part, struct_opener.
  rewrite !lookup_drop. rewrite Nat.add_0_r.
  destruct (bool_decide (s !! pos = Some (ch "("))) eqn:H0.
  - rewrite lookup_drop, Nat.add_0_r.
    destruct (bool_decide (s !! pos ≠ Some (ch "("))); [reflexivity|].
    destruct (bool_decide (DEFAULT_COMP_DELIM ∈ used)); [reflexivity|].
    destruct (bool_decide (array_delim = Some DEFAULT_COMP_DELIM));
      [reflexivity|].
    pose proof (Hstep 0 DEFAULT_COMP_DELIM) as H. cbv zeta in H.
    rewrite Nat.add_0_r in H. exact H.
  - change (0 + 1) with 1.
    destruct (bool_decide (s !! (pos + 1) = Some (ch "("))) eqn:H1;
      [|reflexivity].
    rewrite lookup_drop.
    destruct (bool_decide (s !! (pos + 1) ≠ Some (ch "("))); [reflexivity|].
    rewrite (slice_drop s pos 0 1), Nat.add_0_r.
    destruct (bool_decide (slice s pos (pos + 1) ∈ used)); [reflexivity|].
    destruct (bool_decide (array_delim = Some (slice s pos (pos + 1))));
      [reflexivity|].
    exact (Hstep 1 (slice s pos (pos + 1))).
Qed.

Lemma parse_struct_part_default (rest : str) array_delim used :
  parse_struct_part (lit "^(" ++ rest) 0 array_delim used
  = shift_struct 1 (parse_struct_part (lit "(" ++ rest) 0 array_delim used).
Proof.
  unfold parse_struct_part, struct_opener. simpl.
  change (slice ("^"%char :: "("%char :: rest) 0 1) with DEFAULT_COMP_DELIM.
  destruct (bool_decide (DEFAULT_COMP_DELIM ∈ used)); [reflexivity|].
  destruct (bool_decide (array_delim = Some DEFAULT_COMP_DELIM));
    [reflexivity|].
  rewrite drop_0.
  change (paren_loop rest 2 1) with (paren_loop rest (1 + 1) 1).
  rewrite (paren_loop_shift 1 rest 1 1).
  destruct (paren_loop rest 1 1) as [q dc]. cbn [fst snd].
  destruct (bool_decide (dc ≠ 0)); [reflexivity|].
  unfold shift_struct, shift_struct_part, slice. simpl.
  rewrite !drop_0. replace (q - 0 - 2) with (q - 1 - 1) by lia. reflexivity.
Qed.

Lemma parse_array_part_empty (name rest : str) used :
  lit "~" ∉ used →
  parse_array_part (name ++ lit "[]" ++ rest) (length name) 0 used
  = Returns (Some (lit "~"), length name + 2).
Proof.
  intros Hused. unfold parse_array_part, read_array_brackets.
  set (s := name ++ lit "[]" ++ rest).
  assert (H0 : s !! length name = Some (ch "["))
    by (by apply list_lookup_middle).
  assert (Hdrop : drop (length name + 1) s = ch "]" :: rest).
  { unfold s. rewrite drop_app_add' by reflexivity. reflexivity. }
  rewrite (bool_decide_eq_true_2 _ H0).
  unfold find. rewrite Hdrop. cbn [find_from].
  rewrite (bool_decide_eq_true_2 (ch "]" = ch "]")) by reflexivity.
  assert (Hslice : slice s (length name + 1) (length name + 1) = [])
    by (unfold slice; by rewrite Nat.sub_diag).
  rewrite Hslice.
  rewrite (bool_decide_eq_true_2 ([] = [])) by reflexivity.
  rewrite (bool_decide_eq_false_2 (0 < 0)) by lia.
  simpl. unfold DEFAULT_ARRAY_DELIM.
  rewrite (bool_decide_eq_false_2 _ Hused).
  do 2 f_equal. lia.
Qed.

(** Two headers with the same name, array delimiter, component delimiter
    and body, the second [k] characters longer up to the end of what is
    parsed, give the same schema or the same error. *)
Lemma parse_field_same_heads (k : nat) (s1 s2 : str) :
  length s2 = k + length s1 →
  match parse_head s1 0 0 ∅ with
  | Returns (name, array_delim, pos1, struct) =>
      ∃ pos2, parse_head s2 0 0 ∅
              = Returns (name, array_delim, pos2, shift_struct_part k <$> struct)
              ∧ (struct = None → pos2 = k + pos1)
  | Raises e => parse_head s2 0 0 ∅ = Raises e
  | NoReturn => parse_head s2 0 0 ∅ = NoReturn
  end →
  parse_field s2 = parse_field s1.
Proof.
  intros Hlen Hhead.
  rewrite !parse_field_parse_at_top, !parse_at_unfold.
  destruct (parse_head s1 0 0 ∅)
    as [[[[name array_delim] pos1] [sp|]]| |] eqn:H1.
  - destruct Hhead as (pos2 & -> & _). simpl.
    destruct (_bracket_aware_split (sp_body sp) (sp_comp_delim sp)
              ≫= λ raws, for_each (component_outcome 1 (sp_inner_used sp)) raws)
      as [components| |]; simpl; try reflexivity.
    destruct array_delim; simpl;
      destruct (bool_decide (sp_end sp ≠ length s1)) eqn:E;
      [rewrite bool_decide_eq_true_2 | rewrite bool_decide_eq_false_2
      |rewrite bool_decide_eq_true_2 | rewrite bool_decide_eq_false_2];
      try reflexivity;
      try (apply bool_decide_eq_true in E; lia);
      try (apply bool_decide_eq_false in E; lia).
  - destruct Hhead as (pos2 & -> & Hpos). specialize (Hpos eq_refl). subst pos2.
    simpl.
    destruct array_delim; simpl;
      destruct (bool_decide (pos1 ≠ length s1)) eqn:E;
      [rewrite bool_decide_eq_true_2 | rewrite bool_decide_eq_false_2
      |rewrite bool_decide_eq_true_2 | rewrite bool_decide_eq_false_2];
      try reflexivity;
      try (apply bool_decide_eq_true in E; lia);
      try (apply bool_decide_eq_false in E; lia).
  - rewrite Hhead. reflexivity.
  - rewrite Hhead. reflexivity.
Qed.

Lemma shift_struct_shift (a b : nat) (r : outcome (option struct_part)) :
  shift_struct a (shift_struct b r) = shift_struct (a + b) r.
Proof.
  destruct r as [[sp|]| |]; try reflexivity.
  unfold shift_struct, shift_struct_part. simpl. do 3 f_equal. lia.
Qed.

Lemma parse_struct_part_paren (rest : str) array_delim used :
  parse_struct_part (lit "(" ++ rest) 0 array_delim used ≠ Returns None.
Proof.
  unfold parse_struct_part, struct_opener. simpl.
  repeat case_match; discriminate.
Qed.

Lemma same_heads_from_struct (k : nat) (name : str) array_delim
    (s1 s2 : str) (p1 p2 q1 : nat) (r : outcome (option struct_part)) :
  length s2 = k + length s1 →
  NAME_RE_match s1 0 = Some (length name) →
  NAME_RE_match s2 0 = Some (length name) →
  slice s1 0 (length name) = name →
  slice s2 0 (length name) = name →
  parse_array_part s1 (length name) 0 ∅ = Returns (array_delim, p1) →
  parse_array_part s2 (length name) 0 ∅ = Returns (array_delim, p2) →
  parse_struct_part s1 p1 array_delim ∅ = shift_struct q1 r →
  parse_struct_part s2 p2 array_delim ∅ = shift_struct (k + q1) r →
  (r = Returns None → p2 = k + p1) →
  parse_field s2 = parse_field s1.
Proof.
  intros Hlen Hm1 Hm2 Hn1 Hn2 Ha1 Ha2 Hs1 Hs2 Hpos.
  apply (parse_field_same_heads k); [exact Hlen|].
  unfold parse_head.
  rewrite Hm1, Hm2, Hn1, Hn2, Ha1, Ha2. simpl. rewrite Hs1, Hs2.
  destruct r as [[sp|]| |]; simpl; try reflexivity.
  - eexists. split; [|discriminate].
    unfold shift_struct_part. simpl. do 4 f_equal. lia.
  - exists p2. split; [reflexivity|]. intros _. by apply Hpos.
Qed.

(** X22. The delimiters a top-level header leaves out are the defaults:
    empty square brackets declare the array delimiter [~], and an opening
    parenthesis right after the name or after the array brackets declares
    the component delimiter [^].  The header with the delimiter left out
    and the header with the default written out are parsed to the same
    schema, or are refused with the same error, whatever follows. *)
Theorem default_delimiters (name : str) :
  valid_name name →
  (∀ rest, parse_field (name ++ lit "[]" ++ rest)
           = parse_field (name ++ lit "[~]" ++ rest))
  ∧ (∀ rest, parse_field (name ++ lit "(" ++ rest)
             = parse_field (name ++ lit "^(" ++ rest))
  ∧ (∀ x rest, x ≠ ch "]" →
       parse_field (name ++ lit "[" ++ [x] ++ lit "]" ++ lit "(" ++ rest)
       = parse_field (name ++ lit "[" ++ [x] ++ lit "]" ++ lit "^(" ++ rest)).
Proof.
  intros [Hne Hname]. split; [|split].
  - intros rest. symmetry.
    apply (same_heads_from_struct 1 name (Some (lit "~")) _ _
             (length name + 2) (length name + 3) (length name + 2)
             (parse_struct_part rest 0 (Some (lit "~")) ∅)).
    + rewrite !length_app. simpl. lia.
    + by apply NAME_RE_match_app.
    + by apply NAME_RE_match_app.
    + apply slice_name.
    + apply slice_name.
    + apply parse_array_part_empty, not_elem_of_empty.
    + apply (parse_array_part_written name rest (ch "~"));
        [discriminate | apply not_elem_of_empty].
    + rewrite parse_struct_part_drop. f_equal. f_equal.
      rewrite drop_app_add' by reflexivity. reflexivity.
    + rewrite parse_struct_part_drop.
      replace (1 + (length name + 2)) with (length name + 3) by lia.
      f_equal. f_equal.
      rewrite drop_app_add' by reflexivity. reflexivity.
    + intros _. lia.
  - intros rest. symmetry.
    apply (same_heads_from_struct 1 name None _ _
             (length name) (length name) (length name)
             (parse_struct_part (lit "(" ++ rest) 0 None ∅)).
    + rewrite !length_app. simpl. lia.
    + by apply NAME_RE_match_app.
    + by apply NAME_RE_match_app.
    + apply slice_name.
    + apply slice_name.
    + apply parse_array_part_absent.
      assert (H : (name ++ lit "(" ++ rest) !! length name = Some (ch "("))
        by (by apply list_lookup_middle).
      rewrite H. discriminate.
    + apply parse_array_part_absent.
      assert (H : (name ++ lit "^(" ++ rest) !! length name = Some (ch "^"))
        by (by apply list_lookup_middle).
      rewrite H. discriminate.
    + rewrite parse_struct_part_drop. f_equal. f_equal.
      by rewrite drop_app_length.
    + rewrite parse_struct_part_drop, drop_app_length.
      rewrite parse_struct_part_default, shift_struct_shift.
      f_equal. lia.
    + intros H. by apply parse_struct_part_paren in H.
  - intros x rest Hx. symmetry.
    assert (Hdrop : ∀ tail,
              drop (length name + 3) (name ++ lit "[" ++ [x] ++ lit "]" ++ tail)
              = tail).
    { intros tail. rewrite drop_app_add' by reflexivity. reflexivity. }
    apply (same_heads_from_struct 1 name (Some [x]) _ _
             (length name + 3) (length name + 3) (length name + 3)
             (parse_struct_part (lit "(" ++ rest) 0 (Some [x]) ∅)).
    + rewrite !length_app. simpl. lia.
    + by apply NAME_RE_match_app.
    + by apply NAME_RE_match_app.
    + apply slice_name.
    + apply slice_name.
    + apply parse_array_part_written; [exact Hx | apply not_elem_of_empty].
    + apply parse_array_part_written; [exact Hx | apply not_elem_of_empty].
    + rewrite parse_struct_part_drop. by rewrite Hdrop.
    + rewrite parse_struct_part_drop, Hdrop.
      rewrite parse_struct_part_default, shift_struct_shift.
      f_equal. lia.
    + intros H. by apply parse_struct_part_paren in H.
Qed.

Lemma default_delimiters_witness :
  parse_field (lit "address" ++ lit "(" ++ lit "street^city)")
  = parse_field (lit "address" ++ lit "^(" ++ lit "street^city)").
Proof.
  assert (Hname : valid_name (lit "address")).
  { split; [discriminate|].
    apply Forall_forall. intros c Hc.
    assert (H : forallb is_field_char (lit "address") = true) by reflexivity.
    rewrite forallb_forall in H. apply H. by apply list_elem_of_In. }
  exact (proj1 (proj2 (default_delimiters (lit "address") Hname))
           (lit "street^city)")).
Defined.

(** ** Whole documents: termination and the origin of errors *)

Lemma parse_header_row_terminates headers :
  parse_header_row headers ≠ NoReturn.
Proof.
  unfold parse_header_row. apply for_each_not_NoReturn.
  intros h _. apply parse_field_terminates.
Qed.

Lemma parse_header_row_well_formed headers schemas :
  parse_header_row headers = Returns schemas →
  Forall (well_formed ∅) schemas.
Proof.
  unfold parse_header_row. intros H. apply for_each_Returns in H.
  induction H as [|h schema hs schemas Hh _ IH]; constructor; [|exact IH].
  by eapply parsed_schema_well_formed_aux.
Qed.

Lemma parse_record_terminates schemas row :
  Forall (well_formed ∅) schemas → parse_record schemas row ≠ NoReturn.
Proof.
  intros Hwf. unfold parse_record. rewrite record_loop_bindings.
  destruct (for_each (column_binding row) (enumerate_from 0 schemas))
    as [bs|e|] eqn:Hloop; simpl; try discriminate.
  exfalso. revert Hloop. apply for_each_not_NoReturn.
  intros [n schema] Hin. unfold column_binding. simpl.
  assert (Hschema : schema ∈ schemas).
  { apply list_elem_of_lookup in Hin as [m Hm].
    unfold enumerate_from in Hm. rewrite list_lookup_imap in Hm.
    destruct (schemas !! m) as [schema'|] eqn:Hs; [|discriminate].
    injection Hm as _ <-. by eapply list_elem_of_lookup_2. }
  rewrite Forall_forall in Hwf.
  destruct (parse_value _ schema _) as [v|e|] eqn:Hv; simpl; try discriminate.
  by apply (well_formed_decode_terminates schema ∅ (Hwf schema Hschema)) in Hv.
Qed.

Lemma iter_rows_returns text field_sep :
  ∃ rows, _iter_rows_with_quoting text field_sep = Returns rows.
Proof.
  destruct (_iter_rows_with_quoting text field_sep) as [rows|e|] eqn:H.
  - eauto.
  - by apply iter_rows_not_Raises in H.
  - exfalso. revert H. unfold _iter_rows_with_quoting.
    apply for_each_not_NoReturn. intros line _.
    destruct (parse_csv_row_cells line field_sep) as (cells & -> & _).
    discriminate.
Qed.

(** X23. [parse] has no loop that does not finish, and each error of the
    package or of the reader that it raises has one origin: [TypeError]
    and [csv.Error] are the reader's own and pass through [parse];
    [CSVPPError] is raised when the reader finds no header record;
    [HeaderParseError] and [DelimiterConflictError] come from the header
    row, before any data is read; [InvalidQuotingError] and
    [ValueParseError] come from the decoding of the cells of one line that
    is not blank, against the schemas of a header row that was parsed. *)
Theorem parse_outcomes
    (csv_reader_next : str → str → reader_result)
    (text field_sep : str) :
  parse csv_reader_next text field_sep ≠ NoReturn
  ∧ ∀ e, parse csv_reader_next text field_sep = Raises e →
      (e = TypeError ∧ csv_reader_next text field_sep = ReaderTypeError)
      ∨ (e = CsvError ∧ csv_reader_next text field_sep = ReaderCsvError)
      ∨ (e = CSVPPError ∧ csv_reader_next text field_sep = StopIteration)
      ∨ (∃ raw_headers,
           csv_reader_next text field_sep = FirstRecord raw_headers
           ∧ parse_header_row raw_headers = Raises e
           ∧ (e = HeaderParseError ∨ e = DelimiterConflictError))
      ∨ (∃ raw_headers schemas line cells,
           csv_reader_next text field_sep = FirstRecord raw_headers
           ∧ parse_header_row raw_headers = Returns schemas
           ∧ line ∈ filter (λ line, strip line ≠ [])
                      (drop 1 (_split_csv_lines text))
           ∧ _parse_csv_row line field_sep = Returns cells
           ∧ parse_record schemas cells = Raises e
           ∧ (e = InvalidQuotingError ∨ e = ValueParseError)).
Proof.
  unfold parse.
  destruct (csv_reader_next text field_sep) as [raw_headers| | |].
  2: { split; [discriminate | intros e [= <-]; right; right; by left]. }
  2: { split; [discriminate | intros e [= <-]; by left]. }
  2: { split; [discriminate | intros e [= <-]; right; by left]. }
  destruct (parse_header_row raw_headers) as [schemas|e0|] eqn:Hheader.
  - pose proof (parse_header_row_well_formed _ _ Hheader) as Hwf.
    destruct (iter_rows_returns text field_sep) as [rows Hrows].
    rewrite Hrows, !bind_Returns. split.
    + apply for_each_not_NoReturn. intros row _.
      by apply parse_record_terminates.
    + intros e He. do 4 right.
      apply for_each_Raises_elem in He as (cells & Hin & Hrec).
      apply list_elem_of_filter in Hin as [_ Hin].
      unfold _iter_rows_with_quoting in Hrows.
      apply for_each_Returns in Hrows.
      apply list_elem_of_lookup in Hin as [n Hn].
      destruct (Forall2_lookup_r _ _ _ _ _ Hrows Hn) as (line & Hline & Hcells).
      exists raw_headers, schemas, line, cells.
      split; [reflexivity|]. split; [exact Hheader|].
      split; [by eapply list_elem_of_lookup_2|].
      split; [exact Hcells|]. split; [exact Hrec|].
      by eapply parse_record_raises.
  - split; [discriminate|]. intros e [= <-]. do 3 right. left.
    exists raw_headers. split; [reflexivity|]. split; [exact Hheader|].
    unfold parse_header_row in Hheader.
    apply for_each_Raises_elem in Hheader as (h & _ & Hh).
    by eapply parse_field_raises.
  - by apply parse_header_row_terminates in Hheader.
Qed.

Lemma parse_outcomes_witness :
  parse first_line_reader
    (lit "tags[|]" ++ [LF] ++ quoted (lit "a|b")) (lit ",")
  = Raises InvalidQuotingError
  ∧ ∃ raw_headers schemas line cells,
      first_line_reader (lit "tags[|]" ++ [LF] ++ quoted (lit "a|b")) (lit ",")
      = FirstRecord raw_headers
      ∧ parse_header_row raw_headers = Returns schemas
      ∧ line ∈ filter (λ line, strip line ≠ [])
                 (drop 1 (_split_csv_lines
                            (lit "tags[|]" ++ [LF] ++ quoted (lit "a|b"))))
      ∧ _parse_csv_row line (lit ",") = Returns cells
      ∧ parse_record schemas cells = Raises InvalidQuotingError
      ∧ (InvalidQuotingError = InvalidQuotingError
         ∨ InvalidQuotingError = ValueParseError).
Proof.
  assert (H : parse first_line_reader
                (lit "tags[|]" ++ [LF] ++ quoted (lit "a|b")) (lit ",")
              = Raises InvalidQuotingError) by (vm_compute; reflexivity).
  split; [exact H|].
  destruct (proj2 (parse_outcomes first_line_reader
                     (lit "tags[|]" ++ [LF] ++ quoted (lit "a|b")) (lit ","))
              InvalidQuotingError H)
    as [[Hc _]|[[Hc _]|[[Hc _]|[(hs & _ & _ & [Hc|Hc])|Hdata]]]];
    try discriminate.
  exact Hdata.
Defined.
